(** * Reservoir limiter (reservoir_limiter.go): model and verification

    The limiter is a concurrent Go program: callers of [Limit], one
    [manageTokens] goroutine started on demand and one [refillTokens]
    goroutine per token taken from a full reservoir.  They share the
    counter [numConcurrent] (guarded by [mutex]) and meet on the two
    unbuffered channels [in] and [out].

    The embedding has two layers.
    - Each function of the source becomes a thread-local transition
      function: for a program point (named after the source line the
      goroutine is about to execute) it lists the statements that can be
      executed next, each with a label saying what the statement needs from
      the Go runtime (the mutex, a channel partner, a tick, ...).
    - [step] is the Go runtime: it interleaves the goroutines of a pool,
      hands the mutex to one goroutine at a time, completes a channel
      operation only as a rendezvous of a sender and a receiver, and takes
      the [default] case of a [select] only when no other case can proceed.
      A schedule is a list of [action]s; [run] executes it. *)

From Stdlib Require Import ZArith Lia List.
From stdpp Require Import base option list.
Import ListNotations.

Local Open Scope Z_scope.

(** ** Go's [int] *)

Module GoInt.

(** [int] is 64 bits wide on the platforms Go targets by default;
    arithmetic wraps around in two's complement. *)
Definition int_min : Z := -9223372036854775808.
Definition int_max : Z := 9223372036854775807.

Definition is_int (x : Z) : Prop := int_min <= x <= int_max.

Definition wrap (x : Z) : Z :=
  (x + 9223372036854775808) mod 18446744073709551616 - 9223372036854775808.

Definition add (x y : Z) : Z := wrap (x + y).
Definition sub (x y : Z) : Z := wrap (x - y).

End GoInt.

Arguments GoInt.wrap : simpl never.
Arguments GoInt.add : simpl never.
Arguments GoInt.sub : simpl never.

(** ** Data *)

(** [context.Context], as far as [Limit] observes it: [Done()] has fired
    iff [Err()] is non-nil.  [None] is a context that is still live. *)
Inductive error := Canceled | DeadlineExceeded.
Definition Context := option error.

(** The two channels of the struct.  Both are made without a buffer, so
    they hold no state of their own: a transfer is a joint step of a
    goroutine that sends and one that receives. *)
Inductive chan := ch_in | ch_out.

(** [type reservoirLimiter struct].  [mutex] is [true] when locked. *)
Record reservoirLimiter := mkLimiter {
  maxTokens : Z;
  refillDuration : Z;
  numConcurrent : Z;
  mutex : bool
}.

(** What a call of a Go function can do: return a value or panic. *)
Inductive outcome (A : Type) :=
| Returns (a : A)
| Panics.
Arguments Returns {A} a.
Arguments Panics {A}.

(** [func NewReservoirLimiter]: a struct literal; the fields it does not
    mention get their zero values. *)
Definition NewReservoirLimiter (maxTokens refillDuration : Z)
  : outcome reservoirLimiter :=
  Returns {| maxTokens := maxTokens;
             refillDuration := refillDuration;
             numConcurrent := 0;
             mutex := false |}.

(** ** Program points

    [L n], [M n], [R n]: the goroutine is about to execute line [n] of
    reservoir_limiter.go; one source line is one atomic statement. *)

Inductive limit_pc :=
| L33   (* l.mutex.Lock() *)
| L34   (* if l.numConcurrent == 0 *)
| L35   (* l.numConcurrent = 2 *)
| L36   (* go l.manageTokens() *)
| L38   (* l.numConcurrent++ *)
| L40   (* l.mutex.Unlock() *)
| L41   (* select { case <-l.out: ... case <-ctx.Done(): ... } *)
| L43   (* l.mutex.Lock() *)
| L44   (* l.numConcurrent-- *)
| L45   (* l.mutex.Unlock() *)
| L46   (* return nil *)
| L48   (* l.mutex.Lock() *)
| L49   (* l.numConcurrent-- *)
| L50   (* l.mutex.Unlock() *)
| L51   (* return ctx.Err() *)
| Lret (r : option error).  (* returned; [None] is nil *)

Inductive manage_pc :=
| M57   (* tokenCount := l.maxTokens *)
| M59   (* switch tokenCount *)
| M61   (* <-l.in *)
| M62   (* tokenCount++ *)
| M64   (* l.mutex.Lock() *)
| M65   (* if l.numConcurrent == 1 *)
| M67   (* l.numConcurrent = 0 *)
| M68   (* l.mutex.Unlock() *)
| M69   (* return *)
| M71   (* l.mutex.Unlock() *)
| M72   (* l.out <- token{} *)
| M73   (* tokenCount-- *)
| M74   (* go l.refillTokens() *)
| M76   (* select { case <-l.in: ... case l.out <- token{}: ... } *)
| M78   (* tokenCount++ *)
| M80   (* tokenCount-- *)
| Mret. (* returned *)

Inductive refill_pc :=
| R88   (* ticker := time.NewTicker(l.refillDuration) *)
| R89   (* for range ticker.C *)
| R90   (* select { case l.in <- token{}: default: ... } *)
| R95   (* ticker.Stop() *)
| R96   (* return *)
| Rret. (* returned *)

(** A goroutine: the function it runs, its program point and its local
    variables ([ctx] for [Limit]; [tokenCount] for [manageTokens], which is
    0 until line 57 declares it; whether the ticker runs for
    [refillTokens]). *)
Inductive goroutine :=
| GLimit (pc : limit_pc) (ctx : Context)
| GManage (pc : manage_pc) (tokenCount : Z)
| GRefill (pc : refill_pc) (ticking : bool).

(** What a statement asks of the runtime. *)
Inductive label :=
| Tau                (* a statement on local variables or on
                        l.numConcurrent *)
| Lock
| Unlock
| Send (c : chan)
| Recv (c : chan)
| Default            (* the default case of a select *)
| CtxDone            (* case <-ctx.Done() *)
| Tick               (* a value arrives on ticker.C *)
| Go (g : goroutine) (* go f() *)
| Panic.

(** A transition: label, new value of numConcurrent, new local state. *)
Definition transition : Type := label * Z * goroutine.

Definition t_label (t : transition) : label := t.1.1.
Definition t_count (t : transition) : Z := t.1.2.
Definition t_next (t : transition) : goroutine := t.2.

(** ** The three functions of the source *)

(** [func (l *reservoirLimiter) Limit(ctx context.Context) error].
    [n] is the current value of [l.numConcurrent]. *)
Definition Limit (n : Z) (pc : limit_pc) (ctx : Context) : list transition :=
  match pc with
  | L33 => [(Lock, n, GLimit L34 ctx)]
  | L34 => if n =? 0
           then [(Tau, n, GLimit L35 ctx)]
           else [(Tau, n, GLimit L38 ctx)]
  | L35 => [(Tau, 2, GLimit L36 ctx)]
  | L36 => [(Go (GManage M57 0), n, GLimit L40 ctx)]
  | L38 => [(Tau, GoInt.add n 1, GLimit L40 ctx)]
  | L40 => [(Unlock, n, GLimit L41 ctx)]
  | L41 => (Recv ch_out, n, GLimit L43 ctx)
           :: match ctx with
              | Some _ => [(CtxDone, n, GLimit L48 ctx)]
              | None => []
              end
  | L43 => [(Lock, n, GLimit L44 ctx)]
  | L44 => [(Tau, GoInt.sub n 1, GLimit L45 ctx)]
  | L45 => [(Unlock, n, GLimit L46 ctx)]
  | L46 => [(Tau, n, GLimit (Lret None) ctx)]
  | L48 => [(Lock, n, GLimit L49 ctx)]
  | L49 => [(Tau, GoInt.sub n 1, GLimit L50 ctx)]
  | L50 => [(Unlock, n, GLimit L51 ctx)]
  | L51 => [(Tau, n, GLimit (Lret ctx) ctx)]
  | Lret _ => []
  end.

(** [func (l *reservoirLimiter) manageTokens()].  The cases of the switch
    are tried in the order of the source: 0 first, then [l.maxTokens]. *)
Definition manageTokens (maxTokens n : Z) (pc : manage_pc) (tokenCount : Z)
  : list transition :=
  match pc with
  | M57 => [(Tau, n, GManage M59 maxTokens)]
  | M59 => if tokenCount =? 0 then [(Tau, n, GManage M61 tokenCount)]
           else if tokenCount =? maxTokens then [(Tau, n, GManage M64 tokenCount)]
           else [(Tau, n, GManage M76 tokenCount)]
  | M61 => [(Recv ch_in, n, GManage M62 tokenCount)]
  | M62 => [(Tau, n, GManage M59 (GoInt.add tokenCount 1))]
  | M64 => [(Lock, n, GManage M65 tokenCount)]
  | M65 => if n =? 1
           then [(Tau, n, GManage M67 tokenCount)]
           else [(Tau, n, GManage M71 tokenCount)]
  | M67 => [(Tau, 0, GManage M68 tokenCount)]
  | M68 => [(Unlock, n, GManage M69 tokenCount)]
  | M69 => [(Tau, n, GManage Mret tokenCount)]
  | M71 => [(Unlock, n, GManage M72 tokenCount)]
  | M72 => [(Send ch_out, n, GManage M73 tokenCount)]
  | M73 => [(Tau, n, GManage M74 (GoInt.sub tokenCount 1))]
  | M74 => [(Go (GRefill R88 false), n, GManage M59 tokenCount)]
  | M76 => [(Recv ch_in, n, GManage M78 tokenCount);
            (Send ch_out, n, GManage M80 tokenCount)]
  | M78 => [(Tau, n, GManage M59 (GoInt.add tokenCount 1))]
  | M80 => [(Tau, n, GManage M59 (GoInt.sub tokenCount 1))]
  | Mret => []
  end.

(** [func (l *reservoirLimiter) refillTokens()].  [time.NewTicker] panics
    when its argument is not positive. *)
Definition refillTokens (refillDuration n : Z) (pc : refill_pc) (ticking : bool)
  : list transition :=
  match pc with
  | R88 => if 0 <? refillDuration
           then [(Tau, n, GRefill R89 true)]
           else [(Panic, n, GRefill R88 ticking)]
  | R89 => if ticking then [(Tick, n, GRefill R90 ticking)] else []
  | R90 => [(Send ch_in, n, GRefill R89 ticking);
            (Default, n, GRefill R95 ticking)]
  | R95 => [(Tau, n, GRefill R96 false)]
  | R96 => [(Tau, n, GRefill Rret ticking)]
  | Rret => []
  end.

Definition transitions (l : reservoirLimiter) (g : goroutine) : list transition :=
  match g with
  | GLimit pc ctx => Limit (numConcurrent l) pc ctx
  | GManage pc tc => manageTokens (maxTokens l) (numConcurrent l) pc tc
  | GRefill pc tk => refillTokens (refillDuration l) (numConcurrent l) pc tk
  end.

(** ** The runtime *)

Definition is_send (c : chan) (lab : label) : bool :=
  match lab, c with
  | Send ch_in, ch_in | Send ch_out, ch_out => true
  | _, _ => false
  end.

Definition is_recv (c : chan) (lab : label) : bool :=
  match lab, c with
  | Recv ch_in, ch_in | Recv ch_out, ch_out => true
  | _, _ => false
  end.

Definition is_tick (lab : label) : bool :=
  match lab with Tick => true | _ => false end.

(** Statements a goroutine executes without a partner. *)
Definition internal (lab : label) : bool :=
  match lab with
  | Send _ | Recv _ | Tick => false
  | _ => true
  end.

Definition pick (p : label -> bool) (ts : list transition) : option transition :=
  find (fun t => p (t_label t)) ts.

Definition offers (l : reservoirLimiter) (p : label -> bool) (g : goroutine) : bool :=
  match pick p (transitions l g) with Some _ => true | None => false end.

(** Can the communication [lab] proceed right now, that is, is some
    goroutine of the pool waiting at the other end of the channel?  (No
    goroutine of this program sends and receives on the same channel, so
    none is its own partner.) *)
Definition ready (l : reservoirLimiter) (gs : list goroutine) (lab : label) : bool :=
  match lab with
  | Send c => existsb (offers l (is_recv c)) gs
  | Recv c => existsb (offers l (is_send c)) gs
  | _ => false
  end.

Definition can_proceed (l : reservoirLimiter) (gs : list goroutine) (g : goroutine) : bool :=
  existsb (fun t => ready l gs (t_label t)) (transitions l g).

Record state := mkState {
  lim : reservoirLimiter;
  pool : list goroutine;
  panicked : bool
}.

Definition set_pool (s : state) (gs : list goroutine) : state :=
  {| lim := lim s; pool := gs; panicked := panicked s |}.

Definition set_count (l : reservoirLimiter) (n : Z) : reservoirLimiter :=
  {| maxTokens := maxTokens l; refillDuration := refillDuration l;
     numConcurrent := n; mutex := mutex l |}.

Definition set_mutex (l : reservoirLimiter) (b : bool) : reservoirLimiter :=
  {| maxTokens := maxTokens l; refillDuration := refillDuration l;
     numConcurrent := numConcurrent l; mutex := b |}.

(** Goroutine [i] executes the internal transition [t].  [Lock] waits
    for the mutex to be free; [Unlock] of a mutex that is not locked is a
    fatal error of the Go runtime; [Default] is taken only when no
    communication of the select can proceed; a panic ends the program. *)
Definition exec (i : nat) (g : goroutine) (t : transition) (s : state) : option state :=
  let gs := <[i := t_next t]> (pool s) in
  match t_label t with
  | Tau =>
      Some {| lim := set_count (lim s) (t_count t); pool := gs; panicked := false |}
  | Lock =>
      if mutex (lim s) then None
      else Some {| lim := set_mutex (lim s) true; pool := gs; panicked := false |}
  | Unlock =>
      if mutex (lim s)
      then Some {| lim := set_mutex (lim s) false; pool := gs; panicked := false |}
      else Some {| lim := lim s; pool := pool s; panicked := true |}
  | Go h =>
      Some {| lim := lim s; pool := gs ++ [h]; panicked := false |}
  | Default =>
      if can_proceed (lim s) (pool s) g then None
      else Some {| lim := lim s; pool := gs; panicked := false |}
  | CtxDone =>
      Some {| lim := lim s; pool := gs; panicked := false |}
  | Panic =>
      Some {| lim := lim s; pool := pool s; panicked := true |}
  | Send _ | Recv _ | Tick => None
  end.

(** What can happen next in the system.  Time is abstract: a ticker may
    deliver its tick whenever its goroutine waits for one, and a context
    may fire at any moment, once. *)
Inductive action :=
| Call (ctx : Context)           (* a new goroutine calls l.Limit(ctx) *)
| Cancel (i : nat) (e : error)   (* the context of call [i] fires *)
| TickOf (i : nat)               (* the ticker of [i] delivers a tick *)
| Run (i : nat)                  (* [i] executes its next statement *)
| Sync (c : chan) (i j : nat).   (* [i] sends on [c], [j] receives *)

Definition step (a : action) (s : state) : option state :=
  if panicked s then None else
  match a with
  | Call ctx => Some (set_pool s (pool s ++ [GLimit L33 ctx]))
  | Cancel i e =>
      match pool s !! i with
      | Some (GLimit pc None) => Some (set_pool s (<[i := GLimit pc (Some e)]> (pool s)))
      | _ => None
      end
  | TickOf i =>
      g ← pool s !! i;
      t ← pick is_tick (transitions (lim s) g);
      Some (set_pool s (<[i := t_next t]> (pool s)))
  | Run i =>
      g ← pool s !! i;
      t ← pick internal (transitions (lim s) g);
      exec i g t s
  | Sync c i j =>
      if decide (i = j) then None else
      gi ← pool s !! i;
      gj ← pool s !! j;
      ti ← pick (is_send c) (transitions (lim s) gi);
      tj ← pick (is_recv c) (transitions (lim s) gj);
      Some (set_pool s (<[j := t_next tj]> (<[i := t_next ti]> (pool s))))
  end.

Fixpoint run (tr : list action) (s : state) : option state :=
  match tr with
  | [] => Some s
  | a :: tr' => s' ← step a s; run tr' s'
  end.

(** The system right after construction: no goroutine yet. *)
Definition init (l : reservoirLimiter) : state :=
  {| lim := l; pool := []; panicked := false |}.

(** Who can send and who can receive, and where it takes them: the
    [Send] and [Recv] transitions of the three functions, spelled out
    ([pick_send] and [pick_recv] below). *)
Inductive sends : chan -> goroutine -> goroutine -> Prop :=
| sends_M72 tc : sends ch_out (GManage M72 tc) (GManage M73 tc)
| sends_M76 tc : sends ch_out (GManage M76 tc) (GManage M80 tc)
| sends_R90 tk : sends ch_in (GRefill R90 tk) (GRefill R89 tk).

Inductive receives : chan -> goroutine -> goroutine -> Prop :=
| receives_L41 ctx : receives ch_out (GLimit L41 ctx) (GLimit L43 ctx)
| receives_M61 tc : receives ch_in (GManage M61 tc) (GManage M62 tc)
| receives_M76 tc : receives ch_in (GManage M76 tc) (GManage M78 tc).

(** ** Sums over the pool *)

Definition total (f : goroutine -> Z) (gs : list goroutine) : Z :=
  foldr (fun g acc => f g + acc) 0 gs.

(** ** The participant count *)

(** A Manager is running from the moment it is started until it has
    written 0 to the count at line 67: what is left for it then is to
    unlock and to return. *)
Definition running (g : goroutine) : Z :=
  match g with
  | GManage (M68 | M69 | Mret) _ => 0
  | GManage _ _ => 1
  | _ => 0
  end.

(** A Manager is being started: a caller has written 2 to the count at
    line 35 and executes [go l.manageTokens()] next. *)
Definition starting (g : goroutine) : Z :=
  match g with
  | GLimit L36 _ => 1
  | _ => 0
  end.

(** A call of Limit is counted from its increment (line 35 or 38) to its
    decrement (line 44 or 49). *)
Definition waiting (g : goroutine) : Z :=
  match g with
  | GLimit (L36 | L40 | L41 | L43 | L44 | L48 | L49) _ => 1
  | _ => 0
  end.

(** The goroutine is between a Lock and the Unlock that follows. *)
Definition holds (g : goroutine) : Z :=
  match g with
  | GLimit (L34 | L35 | L36 | L38 | L40 | L44 | L45 | L49 | L50) _ => 1
  | GManage (M65 | M67 | M68 | M71) _ => 1
  | _ => 0
  end.

(** The goroutine has tested the count and acts on the test next. *)
Definition saw_zero (g : goroutine) : Z :=
  match g with GLimit L35 _ => 1 | _ => 0 end.
Definition saw_nonzero (g : goroutine) : Z :=
  match g with GLimit L38 _ => 1 | _ => 0 end.
Definition saw_one (g : goroutine) : Z :=
  match g with GManage M67 _ => 1 | _ => 0 end.

Record count_inv (s : state) : Prop := {
  ci_count :
    numConcurrent (lim s)
    = total running (pool s) + total starting (pool s) + total waiting (pool s);
  ci_mutex : total holds (pool s) = if mutex (lim s) then 1 else 0;
  ci_single : total running (pool s) + total starting (pool s) <= 1;
  ci_served :
    total running (pool s) + total starting (pool s) = 0 ->
    total waiting (pool s) = 0;
  ci_zero : 0 < total saw_zero (pool s) -> numConcurrent (lim s) = 0;
  ci_nonzero : 0 < total saw_nonzero (pool s) -> numConcurrent (lim s) <> 0;
  ci_one : 0 < total saw_one (pool s) -> numConcurrent (lim s) = 1
}.

(** The pool is small enough for the count not to overflow an int. *)
Definition small (s : state) : Prop :=
  Z.of_nat (length (pool s)) + 2 <= GoInt.int_max.

(** ** The level of the reservoir *)

(** What each program point of [manageTokens] knows about [tokenCount].
    Before line 57 has run the variable does not exist yet. *)
Definition level_ok (maxTokens : Z) (g : goroutine) : Prop :=
  match g with
  | GManage pc tc =>
      match pc with
      | M57 => True
      | M59 => 0 <= tc <= maxTokens
      | M61 | M62 => tc = 0
      | M64 | M65 | M67 | M68 | M69 | Mret | M71 | M72 | M73 => tc = maxTokens
      | M74 => tc = maxTokens - 1
      | M76 | M78 | M80 => 0 < tc < maxTokens
      end
  | _ => True
  end.

(** ** A reservoir of capacity 0 *)

(** What holds of every goroutine when maxTokens is 0: a Manager sits in
    the empty state, there is no Refill Scheduler, and a call of Limit is
    past its select only through the case of a fired context. *)
Definition starved (g : goroutine) : Prop :=
  match g with
  | GManage pc tc => tc = 0 /\ (pc = M57 \/ pc = M59 \/ pc = M61)
  | GRefill _ _ => False
  | GLimit pc ctx =>
      match pc with
      | L43 | L44 | L45 | L46 => False
      | L48 | L49 | L50 | L51 => ctx <> None
      | Lret r => r <> None /\ r = ctx
      | _ => True
      end
  end.

(** ** The result of Limit *)

(** The schedule hands a token to call [i]: a rendezvous on the dispense
    channel with [i] as the receiver. *)
Definition delivered_to (i : nat) (a : action) : bool :=
  match a with
  | Sync ch_out _ j => Nat.eqb j i
  | _ => false
  end.

Definition tokens_received (tr : list action) (i : nat) : nat :=
  length (List.filter (delivered_to i) tr).

(** Where a call of Limit can be, given the number [k] of tokens it has
    received and its context. *)
Definition call_ok (k : nat) (pc : limit_pc) (ctx : Context) : Prop :=
  match pc with
  | L33 | L34 | L35 | L36 | L38 | L40 | L41 => k = 0%nat
  | L43 | L44 | L45 | L46 => k = 1%nat
  | L48 | L49 | L50 | L51 => k = 0%nat /\ ctx <> None
  | Lret None => k = 1%nat
  | Lret (Some e) => k = 0%nat /\ ctx = Some e
  end.

Definition calls_ok (tr : list action) (s : state) : Prop :=
  (forall i pc ctx,
     pool s !! i = Some (GLimit pc ctx) -> call_ok (tokens_received tr i) pc ctx)
  /\ (forall i, (length (pool s) <= i)%nat -> tokens_received tr i = 0%nat).

(** ** The constructor and its arguments *)

(** The validation the specification asks of the constructor: arguments
    that are not positive are refused. *)
Definition rejects_nonpositive (maxTokens refillDuration : Z) : Prop :=
  maxTokens <= 0 \/ refillDuration <= 0 ->
  NewReservoirLimiter maxTokens refillDuration = Panics.

(** ** One iteration of the Manager loop *)

(** How an iteration of [for { switch tokenCount ... } ] ends: back at the
    switch with a new level, or by the [return] of line 69. *)
Inductive iteration_end :=
| Continue (level : Z)
| Terminate.

(** An iteration as seen from outside: the operations on the mutex and the
    channels and the goroutines started, in order; the value of
    numConcurrent it leaves; how it ends. *)
Definition iteration : Type := list label * Z * iteration_end.

Definition visible (lab : label) : list label :=
  match lab with
  | Tau => []
  | _ => [lab]
  end.

Definition after (lab : label) (it : iteration) : iteration :=
  (visible lab ++ it.1.1, it.1.2, it.2).

(** All the ways in which [manageTokens] gets from [pc] to the next
    evaluation of the switch or to its return, following the transitions
    of the source.  [n] is the value of numConcurrent that the iteration
    reads; it reads it at line 65 only, with the mutex held. *)
Fixpoint manager_paths (fuel : nat) (maxTokens n : Z) (pc : manage_pc) (tc : Z)
  : list iteration :=
  match fuel with
  | O => []
  | S fuel' =>
      flat_map
        (fun t : transition =>
           match t_next t with
           | GManage M59 tc' => [(visible (t_label t), t_count t, Continue tc')]
           | GManage Mret _ => [(visible (t_label t), t_count t, Terminate)]
           | GManage pc' tc' =>
               map (after (t_label t))
                   (manager_paths fuel' maxTokens (t_count t) pc' tc')
           | _ => []
           end)
        (manageTokens maxTokens n pc tc)
  end.

Definition manager_iteration (maxTokens n level : Z) : list iteration :=
  manager_paths 8 maxTokens n M59 level.

(** The three-state machine of the specification, in its words: empty,
    full, partial. *)
Definition spec_manager (maxTokens n level : Z) : list iteration :=
  if level =? 0 then
    [([Recv ch_in], n, Continue (level + 1))]
  else if level =? maxTokens then
    if n =? 1 then
      [([Lock; Unlock], 0, Terminate)]
    else
      [([Lock; Unlock; Send ch_out; Go (GRefill R88 false)], n,
        Continue (level - 1))]
  else
    [([Recv ch_in], n, Continue (level + 1));
     ([Send ch_out], n, Continue (level - 1))].

(** ** A call whose context has fired before it starts *)

(** What a statement of Limit does apart from moving the call on: its
    label and the value it leaves in numConcurrent. *)
Definition effects (ts : list transition) : list (label * Z) :=
  map (fun t => (t_label t, t_count t)) ts.

(** ** Tokens handed out and tokens missing from the reservoir *)

(** The call has received a token (it is past the case [<-l.out]). *)
Definition admitted (g : goroutine) : Z :=
  match g with
  | GLimit (L43 | L44 | L45 | L46 | Lret None) _ => 1
  | _ => 0
  end.

(** The tokens a Manager has handed out and not got back: its capacity
    minus its level, where the level counts a transfer on a channel as
    soon as it has happened (lines 62, 73, 78 and 80 update the variable
    one step later). *)
Definition dispensed (maxTokens : Z) (g : goroutine) : Z :=
  match g with
  | GManage pc tc =>
      match pc with
      | M57 => 0
      | M73 | M80 => maxTokens - (tc - 1)
      | M62 | M78 => maxTokens - (tc + 1)
      | _ => maxTokens - tc
      end
  | _ => 0
  end.

(** No refill time elapses: no ticker delivers a tick. *)
Definition no_tick (a : action) : bool :=
  match a with
  | TickOf _ => false
  | _ => true
  end.

(** Neither a tick nor a cancellation, and calls come with a live
    context. *)
Definition quiet (a : action) : bool :=
  match a with
  | TickOf _ | Cancel _ _ | Call (Some _) => false
  | _ => true
  end.

(** Without a tick no Refill Scheduler is at its select and no Manager
    has just received a refill; and a call is on the cancelled path only
    with a fired context. *)
Definition unticked (g : goroutine) : Prop :=
  match g with
  | GRefill R90 _ => False
  | GManage (M62 | M78) _ => False
  | GLimit (L48 | L49 | L50 | L51) ctx => ctx <> None
  | _ => True
  end.

Record conserved (s : state) : Prop := {
  cv_tokens :
    total admitted (pool s) = total (dispensed (maxTokens (lim s))) (pool s);
  cv_unticked : Forall unticked (pool s)
}.

(** The schedule of the capacity test: [c + 1] calls arrive; the first
    [c] of them and the Manager (goroutine [c + 1]) run until each of the
    [c] calls has got its token and has returned; the Refill Scheduler
    (goroutine [c + 2]) starts its ticker. *)
Definition capacity_schedule (c : nat) : list action :=
  let m := S c in
  replicate (S c) (Call None)
  ++ replicate 5 (Run 0)
  ++ flat_map (fun k => replicate 4 (Run k)) (seq 1 c)
  ++ (replicate 5 (Run m) ++ [Sync ch_out m 0; Run m; Run m])
  ++ flat_map (fun k => [Run m; Sync ch_out m k; Run m]) (seq 1 (pred c))
  ++ [Run m]
  ++ flat_map (fun k => replicate 4 (Run k)) (seq 0 c)
  ++ [Run (S m)].

(** A state of a limiter that has not panicked. *)
Definition st (maxTokens refillDuration n : Z) (mu : bool) (gs : list goroutine)
  : state :=
  {| lim := mkLimiter maxTokens refillDuration n mu; pool := gs; panicked := false |}.

(** After the capacity schedule: the refill period elapses, the Refill
    Scheduler (goroutine [c + 2]) returns its token to the Manager, and
    the Manager hands it to the call that was left waiting. *)
Definition refill_schedule (c : nat) : list action :=
  let m := S c in
  let r := S (S c) in
  [TickOf r; Sync ch_in r m; Run m; Run m]
  ++ (if Nat.eqb c 1 then [Run m; Run m; Run m] else [])
  ++ [Sync ch_out m c].

(** After the capacity schedule: the context of the waiting call fires
    and the call returns. *)
Definition cancel_schedule (c : nat) (e : error) : list action :=
  Cancel c e :: replicate 5 (Run c).

(** The statements that write numConcurrent, with the value they
    write: lines 35, 38, 44 and 49 of Limit and line 67 of manageTokens. *)
Inductive count_write (s : state) (i : nat) : Z -> Prop :=
| write_L35 ctx :
    pool s !! i = Some (GLimit L35 ctx) ->
    numConcurrent (lim s) = 0 ->
    count_write s i 2
| write_L38 ctx :
    pool s !! i = Some (GLimit L38 ctx) ->
    count_write s i (numConcurrent (lim s) + 1)
| write_L44 ctx :
    pool s !! i = Some (GLimit L44 ctx) ->
    count_write s i (numConcurrent (lim s) - 1)
| write_L49 ctx :
    pool s !! i = Some (GLimit L49 ctx) ->
    count_write s i (numConcurrent (lim s) - 1)
| write_M67 tc :
    pool s !! i = Some (GManage M67 tc) ->
    numConcurrent (lim s) = 1 ->
    count_write s i 0.

(** The context of call [i] has fired at a moment of the schedule [tr]
    at which the call had received no token: the cancellation came
    first. *)
Definition fired_first (s0 : state) (tr : list action) (i : nat) : Prop :=
  exists tr1 tr2 s1 pc e,
    tr = tr1 ++ tr2
    /\ run tr1 s0 = Some s1
    /\ pool s1 !! i = Some (GLimit pc (Some e))
    /\ tokens_received tr1 i = 0%nat.

(** The order of the two events decides the result: a call whose
    cancellation came first does not return nil. *)
Definition outcome_by_order (s0 : state) : Prop :=
  forall tr s i r ctx,
    run tr s0 = Some s ->
    pool s !! i = Some (GLimit (Lret r) ctx) ->
    fired_first s0 tr i ->
    r <> None.

(** Under a quiet schedule every context is live. *)
Definition live_ctx (g : goroutine) : Prop :=
  match g with
  | GLimit _ (Some _) => False
  | _ => True
  end.

(** The system is at rest: no goroutine can execute a statement and no
    rendezvous is possible.  Only a new call, a tick or a cancellation can
    happen next. *)
Definition at_rest (s : state) : Prop :=
  (forall i, step (Run i) s = None)
  /\ (forall c i j, step (Sync c i j) s = None).

(** A goroutine that cannot execute a statement on its own: it waits at a
    channel or for its ticker, or it has returned. *)
Definition blocked (g : goroutine) : Prop :=
  match g with
  | GLimit L41 _ | GLimit (Lret _) _ => True
  | GManage (M61 | M72 | M76 | Mret) _ => True
  | GRefill (R89 | Rret) _ => True
  | _ => False
  end.

(** An upper bound on the statements a goroutine can still execute, by
    itself or through the goroutines it starts, while no ticker ticks:
    [3 * level] steps hand out the tokens of a partial reservoir, a full
    one takes six more for its critical section, and a call that finds no
    Manager pays for the one it starts. *)
Definition potential (maxTokens : Z) (g : goroutine) : Z :=
  match g with
  | GLimit pc _ =>
      match pc with
      | L33 => 3 * maxTokens + 18
      | L34 => 3 * maxTokens + 17
      | L35 => 3 * maxTokens + 16
      | L36 => 3 * maxTokens + 15
      | L38 => 8
      | L40 => 7
      | L41 => 6
      | L43 | L48 => 4
      | L44 | L49 => 3
      | L45 | L50 => 2
      | L46 | L51 => 1
      | Lret _ => 0
      end
  | GManage pc tc =>
      match pc with
      | M57 => 3 * maxTokens + 7
      | M59 => if tc =? 0 then 1
               else if tc =? maxTokens then 3 * maxTokens + 6
               else 3 * tc + 1
      | M61 => 0
      | M64 => 3 * maxTokens + 5
      | M65 => 3 * maxTokens + 4
      | M71 => 3 * maxTokens + 3
      | M72 => 3 * maxTokens + 2
      | M73 => 3 * maxTokens + 1
      | M74 => 3 * maxTokens
      | M67 => 3
      | M68 => 2
      | M69 => 1
      | Mret => 0
      | M76 => 3 * tc
      | M80 => 3 * tc - 1
      | M62 | M78 => 0
      end
  | GRefill pc _ =>
      match pc with
      | R88 => 1
      | R89 => 0
      | R90 => 3
      | R95 => 2
      | R96 => 1
      | Rret => 0
      end
  end.

Definition energy (s : state) : Z :=
  total (potential (maxTokens (lim s))) (pool s)
  + (if panicked s then 0 else 1).

(** The goroutines of the pool run; nothing arrives from outside. *)
Definition inner (a : action) : bool :=
  match a with
  | Run _ | Sync _ _ _ => true
  | _ => false
  end.

(** ** A scenario

    Capacity 1.  Call 1 is admitted at once.  Call 2 blocks, its context
    fires, it returns the error.  One refill period later the token is
    back and the Manager, with nobody waiting, retires; at the next tick
    the Refill Scheduler finds no receiver and stops.  Call 3 starts a new
    Manager and is admitted. *)
Definition scenario : list action :=
  [Call None] ++ replicate 5 (Run 0)
  ++ replicate 5 (Run 1) ++ [Sync ch_out 1 0] ++ replicate 3 (Run 1)
  ++ replicate 4 (Run 0)
  ++ [Run 2]
  ++ [Call None] ++ replicate 4 (Run 3)
  ++ [Cancel 3 Canceled] ++ replicate 5 (Run 3)
  ++ [TickOf 2; Sync ch_in 2 1] ++ replicate 7 (Run 1)
  ++ [TickOf 2] ++ replicate 3 (Run 2)
  ++ [Call None] ++ replicate 5 (Run 4)
  ++ replicate 5 (Run 5) ++ [Sync ch_out 5 4] ++ replicate 4 (Run 4).

(** ** Refills and ticks *)

(** The schedule returns a token to a Manager: a rendezvous on the
    request channel. *)
Definition refilled (a : action) : bool :=
  match a with
  | Sync ch_in _ _ => true
  | _ => false
  end.

Definition ticked (a : action) : bool :=
  match a with
  | TickOf _ => true
  | _ => false
  end.

Definition refills (tr : list action) : nat := length (List.filter refilled tr).

Definition ticks (tr : list action) : nat := length (List.filter ticked tr).

(** A Refill Scheduler has got a tick and is at its select. *)
Definition at_select (g : goroutine) : Z :=
  match g with
  | GRefill R90 _ => 1
  | _ => 0
  end.

(** A call is on the cancelled path only with a fired context. *)
Definition cancel_seen (g : goroutine) : Prop :=
  match g with
  | GLimit (L48 | L49 | L50 | L51) ctx => ctx <> None
  | _ => True
  end.

(** The books of the limiter after the schedule [tr]: every token handed
    out is either missing from the reservoir of a Manager or has been
    returned by a refill, and every refill has used up a tick. *)
Record metered (tr : list action) (s : state) : Prop := {
  mt_tokens :
    total admitted (pool s)
    = total (dispensed (maxTokens (lim s))) (pool s) + Z.of_nat (refills tr);
  mt_ticks :
    Z.of_nat (refills tr) + total at_select (pool s) <= Z.of_nat (ticks tr);
  mt_ctx : Forall cancel_seen (pool s)
}.

(** ** A refill period that is not positive *)

(** No ticker has been created: every Refill Scheduler is still at the
    call of [time.NewTicker]. *)
Definition no_ticker (g : goroutine) : Prop :=
  match g with
  | GRefill pc ticking => pc = R88 /\ ticking = false
  | _ => True
  end.

(** One call arrives and gets the first token from the Manager it has
    started; the Manager starts a Refill Scheduler (goroutine 2), which
    executes line 88. *)
Definition first_token_schedule : list action :=
  [Call None] ++ replicate 5 (Run 0)
  ++ (replicate 5 (Run 1) ++ [Sync ch_out 1 0; Run 1; Run 1])
  ++ [Run 2].

(** ** A tick that finds the Manager between two statements *)

(** A call gets the first token; the Manager starts a Refill Scheduler
    (goroutine 2) and is back at the top of its loop, about to evaluate
    the switch, when the ticker of the Refill Scheduler ticks: no receiver
    waits on the request channel, so the select of line 90 takes its
    default case and the Refill Scheduler returns.  The call returns. *)
Definition lost_refill_schedule : list action :=
  [Call None] ++ replicate 5 (Run 0)
  ++ (replicate 5 (Run 1) ++ [Sync ch_out 1 0; Run 1; Run 1])
  ++ [Run 2; TickOf 2] ++ replicate 3 (Run 2)
  ++ replicate 4 (Run 0).

(** What holds of every goroutine from then on: the Manager is below
    capacity and not in the full state, every Refill Scheduler has
    returned, and no call starts a Manager. *)
Definition stranded (maxTokens : Z) (g : goroutine) : Prop :=
  match g with
  | GRefill pc _ => pc = Rret
  | GManage pc tc =>
      match pc with
      | M59 => 0 <= tc < maxTokens
      | M61 => tc = 0
      | M76 | M80 => 0 < tc < maxTokens
      | _ => False
      end
  | GLimit pc _ =>
      match pc with
      | L35 | L36 => False
      | _ => True
      end
  end.

(** ** A negative capacity *)

(** [n] calls arrive; the first starts the Manager (goroutine [n]); each
    call gets a token and returns.  No ticker ticks. *)
Definition flood_schedule (n : nat) : list action :=
  replicate n (Call None)
  ++ replicate 5 (Run 0)
  ++ flat_map (fun k => replicate 4 (Run k)) (seq 1 (pred n))
  ++ (replicate 5 (Run n) ++ [Sync ch_out n 0; Run n; Run n])
  ++ flat_map (fun k => [Run n; Sync ch_out n k; Run n]) (seq 1 (pred n))
  ++ flat_map (fun k => replicate 4 (Run k)) (seq 0 n).

(** ** The ticker of a Refill Scheduler *)

(** The ticker runs from line 88 until [ticker.Stop()] at line 95. *)
Definition ticker_ok (g : goroutine) : Prop :=
  match g with
  | GRefill pc ticking =>
      match pc with
      | R89 | R90 | R95 => ticking = true
      | R88 | R96 | Rret => ticking = false
      end
  | _ => True
  end.

(** ** A Manager that has passed its check *)

(** A call arrives and starts the Manager (goroutine 1), which finds the
    count at 2, unlocks and goes to the send of line 72; the context of
    the call fires before the two meet, and the call returns [e]. *)
Definition parked_schedule (e : error) : list action :=
  [Call None] ++ replicate 5 (Run 0)
  ++ replicate 5 (Run 1)
  ++ cancel_schedule 0 e.

(** The next call (goroutine 2) enters and takes the token. *)
Definition next_call_schedule : list action :=
  [Call None] ++ replicate 4 (Run 2) ++ [Sync ch_out 1 2].

(** ** Refill Schedulers that pile up *)

(** One cycle of the Refill Scheduler [i], in a pool of [p] goroutines
    whose Manager is goroutine [m] and is one token short: the ticker
    ticks and the Refill Scheduler returns its token; a call (goroutine
    [p]) arrives; the Manager, full again, hands it the token, starts one
    more Refill Scheduler (goroutine [p + 1]) and is one token short
    again; the call returns and the new Refill Scheduler starts its
    ticker. *)
Definition refill_cycle (m i p : nat) : list action :=
  [TickOf i; Sync ch_in i m]
  ++ ([Run m; Call None]
      ++ replicate 4 (Run p)
      ++ replicate 4 (Run m) ++ [Sync ch_out m p] ++ replicate 3 (Run m)
      ++ replicate 4 (Run p)
      ++ [Run (S p)]).

(** A round: each of the [k + 1] Refill Schedulers that are alive when it
    starts, goroutines 2, 4, ..., [2 * k + 2], goes through one cycle. *)
Definition refill_round (k : nat) : list action :=
  flat_map (fun j => refill_cycle 1 (2 + 2 * j) (3 + 2 * (k + j)))
           (seq 0 (S k)).

(** The first call is served, then [r] rounds follow; round [q] starts
    with [2 ^ q] Refill Schedulers. *)
Definition burst_schedule (r : nat) : list action :=
  (first_token_schedule ++ [Run 1] ++ replicate 4 (Run 0))
  ++ flat_map (fun q => refill_round (2 ^ q - 1)) (seq 0 r).

(** A Manager that is one token short and waits at its receive. *)
Definition lean_manager (maxTokens : Z) : goroutine :=
  GManage (if maxTokens =? 1 then M61 else M76) (maxTokens - 1).

(** [k] served calls, each followed by the Refill Scheduler that its
    dispense has started. *)
Fixpoint pile (k : nat) : list goroutine :=
  match k with
  | O => []
  | S k' => GLimit (Lret None) None :: GRefill R89 true :: pile k'
  end.

(** The Refill Scheduler [j] of a pile, with what comes before it and
    after it. *)
Fixpoint pile_before (j : nat) : list goroutine :=
  match j with
  | O => []
  | S j' => GRefill R89 true :: GLimit (Lret None) None :: pile_before j'
  end.

Definition piled (maxTokens : Z) (k : nat) : list goroutine :=
  [GLimit (Lret None) None; lean_manager maxTokens; GRefill R89 true] ++ pile k.

(** The ticks of the ticker of goroutine [i] in a schedule. *)
Definition tick_of (i : nat) (a : action) : bool :=
  match a with
  | TickOf j => Nat.eqb j i
  | _ => false
  end.

Definition ticks_of (i : nat) (tr : list action) : nat :=
  length (List.filter (tick_of i) tr).

(** The Refill Scheduler waits for its running ticker. *)
Definition ticking (g : goroutine) : Z :=
  match g with
  | GRefill R89 true => 1
  | _ => 0
  end.

(** * Proofs *)

(** ** Arithmetic of Go's [int] *)

Section GoIntFacts.
Import GoInt.

Lemma wrap_id x : is_int x -> wrap x = x.
Proof.
  unfold is_int, wrap, int_min, int_max. intros Hx.
  rewrite Z.mod_small; lia.
Qed.

Lemma add_id x y : is_int (x + y) -> add x y = x + y.
Proof. apply wrap_id. Qed.

Lemma sub_id x y : is_int (x - y) -> sub x y = x - y.
Proof. apply wrap_id. Qed.

(** A wrapping increment followed by a wrapping decrement is the
    identity on [int], overflow or not. *)
Lemma sub_add_cancel x : is_int x -> sub (add x 1) 1 = x.
Proof.
  intros Hx. unfold sub, add, wrap.
  replace ((x + 1 + 9223372036854775808) mod 18446744073709551616
           - 9223372036854775808 - 1 + 9223372036854775808)
    with ((x + 1 + 9223372036854775808) mod 18446744073709551616 - 1) by lia.
  rewrite Zminus_mod_idemp_l.
  replace (x + 1 + 9223372036854775808 - 1) with (x + 9223372036854775808) by lia.
  apply wrap_id, Hx.
Qed.

End GoIntFacts.

(** ** Schedules *)

Lemma run_app tr1 tr2 s : run (tr1 ++ tr2) s = run tr1 s ≫= run tr2.
Proof.
  revert s. induction tr1 as [|a tr1 IH]; intros s; simpl; [done|].
  destruct (step a s) as [s1|]; simpl; [apply IH | done].
Qed.

Lemma run_snoc tr a s s' :
  run (tr ++ [a]) s = Some s' <->
  exists s1, run tr s = Some s1 /\ step a s1 = Some s'.
Proof.
  rewrite run_app. split.
  - destruct (run tr s) as [s1|]; simpl; [|done].
    destruct (step a s1) as [s2|] eqn:E; simpl; [|done].
    intros [= <-]. eauto.
  - intros (s1 & -> & H). simpl. by rewrite H.
Qed.

(** ** A scenario *)

Example scenario_runs :
  run scenario (init (mkLimiter 1 50 0 false))
  = Some {| lim := mkLimiter 1 50 1 false;
            pool := [GLimit (Lret None) None; GManage Mret 1;
                     GRefill Rret false;
                     GLimit (Lret (Some Canceled)) (Some Canceled);
                     GLimit (Lret None) None; GManage M73 1];
            panicked := false |}.
Proof. reflexivity. Qed.

(** ** Sums over the pool *)

Lemma total_app f gs hs : total f (gs ++ hs) = total f gs + total f hs.
Proof. induction gs as [|g gs IH]; simpl; lia. Qed.

Lemma total_insert f gs i g g' :
  gs !! i = Some g -> total f (<[i := g']> gs) = total f gs - f g + f g'.
Proof.
  revert i. induction gs as [|h gs IH]; intros [|i]; simpl; try done.
  - intros [= ->]. lia.
  - intros H. rewrite (IH _ H). lia.
Qed.

Lemma total_nonneg f gs : (forall g, 0 <= f g) -> 0 <= total f gs.
Proof. intros Hf. induction gs as [|g gs IH]; simpl; [lia|]. specialize (Hf g). lia. Qed.

Lemma total_le f h gs : (forall g, f g <= h g) -> total f gs <= total h gs.
Proof. intros Hf. induction gs as [|g gs IH]; simpl; [lia|]. specialize (Hf g). lia. Qed.

(** The part of a sum that comes from the other goroutines. *)
Lemma total_others f gs i g :
  (forall g, 0 <= f g) -> gs !! i = Some g -> 0 <= total f gs - f g.
Proof.
  intros Hf. revert i. induction gs as [|h gs IH]; intros [|i]; simpl; try done.
  - intros [= ->]. pose proof (total_nonneg f gs Hf). lia.
  - intros H. specialize (IH _ H). specialize (Hf h). lia.
Qed.

Lemma total_bound f gs b :
  (forall g, 0 <= f g <= b) -> 0 <= total f gs <= b * Z.of_nat (length gs).
Proof.
  intros Hf. induction gs as [|g gs IH]; simpl length; simpl total; [lia|].
  specialize (Hf g). nia.
Qed.

(** ** Inverting a step

    [step_inv H] turns [H : step a s = Some s'] into one goal per statement
    that [a] can have executed, with [s'] replaced by the state the
    statement leaves. *)

Lemma step_live a s s' : step a s = Some s' -> panicked s = false.
Proof. unfold step. by destruct (panicked s). Qed.

Ltac case_if H :=
  match type of H with
  | context [if (?x =? ?y) then _ else _] =>
      let E := fresh "Eq" in
      destruct (Z.eqb_spec x y) as [E|E]
  | context [if (?x <? ?y) then _ else _] =>
      let E := fresh "Eq" in
      destruct (Z.ltb_spec x y) as [E|E]
  | context [if mutex ?l then _ else _] =>
      let E := fresh "Emu" in
      destruct (mutex l) eqn:E
  | context [if can_proceed ?l ?p ?g then _ else _] =>
      let E := fresh "Ecp" in
      destruct (can_proceed l p g) eqn:E
  | context [match ?c with Some _ => _ | None => _ end] =>
      is_var c; destruct c
  | context [if ?b then _ else _] =>
      is_var b; destruct b
  end.

(* [run_inv H]: all the ways in which [H : step (Run i) s = Some s'] holds *)
Ltac run_inv H :=
  let Hl := fresh "Hlive" in
  let Hi := fresh "Hi" in
  pose proof (step_live _ _ _ H) as Hl;
  unfold step in H; rewrite Hl in H;
  match type of H with
  | context [pool ?s !! ?i] =>
      destruct (pool s !! i) as [[[]?|[]?|[]?]|] eqn:Hi
  end;
  cbn [mbind option_bind transitions Limit manageTokens refillTokens] in H;
  try discriminate H;
  repeat (case_if H;
          cbn [pick find t_label t_next t_count internal fst snd exec
               mbind option_bind] in H;
          try discriminate H);
  cbn [pick find t_label t_next t_count internal fst snd exec mbind option_bind] in H;
  repeat (case_if H; try discriminate H);
  try discriminate H;
  injection H as <-.


Lemma pick_send l c g t :
  pick (is_send c) (transitions l g) = Some t <->
  sends c g (t_next t) /\ t = (Send c, numConcurrent l, t_next t).
Proof.
  split.
  - destruct g as [[]?|[]?|[]?], c; cbn; repeat case_match; cbn; try discriminate;
      intros [= <-]; split; try constructor; done.
  - intros [H ->]. cbn in H. inversion H; subst; done.
Qed.

Lemma pick_recv l c g t :
  pick (is_recv c) (transitions l g) = Some t <->
  receives c g (t_next t) /\ t = (Recv c, numConcurrent l, t_next t).
Proof.
  split.
  - destruct g as [[]?|[]?|[]?], c; cbn; repeat case_match; cbn; try discriminate;
      intros [= <-]; split; try constructor; done.
  - intros [H ->]. cbn in H. inversion H; subst; done.
Qed.

Lemma pick_tick l g t :
  pick is_tick (transitions l g) = Some t <->
  g = GRefill R89 true /\ t = (Tick, numConcurrent l, GRefill R90 true).
Proof.
  split.
  - destruct g as [[]?|[]?|[]?]; cbn; repeat case_match; cbn; try discriminate;
      intros [= <-]; done.
  - intros [-> ->]. done.
Qed.

Lemma step_Sync c i j s s' :
  step (Sync c i j) s = Some s' <->
  panicked s = false /\ i <> j /\
  exists gi gi' gj gj',
    pool s !! i = Some gi /\ pool s !! j = Some gj /\
    sends c gi gi' /\ receives c gj gj' /\
    s' = set_pool s (<[j := gj']> (<[i := gi']> (pool s))).
Proof.
  unfold step. split.
  - destruct (panicked s); [done|]. case_decide; [done|].
    destruct (pool s !! i) as [gi|]; [|done].
    destruct (pool s !! j) as [gj|]; [|done]. cbn.
    destruct (pick (is_send c) _) as [ti|] eqn:Hs; [|done].
    destruct (pick (is_recv c) _) as [tj|] eqn:Hr; [|done]. cbn.
    intros [= <-]. apply pick_send in Hs. apply pick_recv in Hr.
    destruct Hs as [Hs _], Hr as [Hr _].
    split_and!; [done..|]. by exists gi, (t_next ti), gj, (t_next tj).
  - intros (-> & Hij & gi & gi' & gj & gj' & -> & -> & Hs & Hr & ->).
    case_decide; [done|]. cbn.
    assert (pick (is_send c) (transitions (lim s) gi)
            = Some (Send c, numConcurrent (lim s), gi')) as ->
      by by apply pick_send.
    assert (pick (is_recv c) (transitions (lim s) gj)
            = Some (Recv c, numConcurrent (lim s), gj')) as ->
      by by apply pick_recv.
    done.
Qed.

Lemma step_TickOf i s s' :
  step (TickOf i) s = Some s' <->
  panicked s = false /\ pool s !! i = Some (GRefill R89 true) /\
  s' = set_pool s (<[i := GRefill R90 true]> (pool s)).
Proof.
  unfold step. split.
  - destruct (panicked s); [done|].
    destruct (pool s !! i) as [g|]; [|done]. cbn.
    destruct (pick is_tick _) as [t|] eqn:Ht; [|done]. cbn.
    apply pick_tick in Ht as [-> ->]. by intros [= <-].
  - intros (-> & -> & ->). done.
Qed.

Lemma step_Cancel i e s s' :
  step (Cancel i e) s = Some s' <->
  panicked s = false /\ exists pc, pool s !! i = Some (GLimit pc None) /\
  s' = set_pool s (<[i := GLimit pc (Some e)]> (pool s)).
Proof.
  unfold step. split.
  - destruct (panicked s); [done|].
    destruct (pool s !! i) as [[pc [?|]| |]|]; try done.
    intros [= <-]. eauto.
  - intros (-> & pc & -> & ->). done.
Qed.

Lemma step_Call ctx s s' :
  step (Call ctx) s = Some s' <->
  panicked s = false /\ s' = set_pool s (pool s ++ [GLimit L33 ctx]).
Proof.
  unfold step. destruct (panicked s); split;
    [done | by intros [? _] | by intros [= <-] | by intros [_ ->]].
Qed.

Ltac sync_inv H :=
  let Hl := fresh "Hlive" in
  let Hij := fresh "Hij" in
  let Hi := fresh "Hi" in
  let Hj := fresh "Hj" in
  let Hj' := fresh "Hj'" in
  let Hs := fresh "Hs" in
  let Hr := fresh "Hr" in
  let gi := fresh "gi" in
  let gi' := fresh "gi'" in
  let gj := fresh "gj" in
  let gj' := fresh "gj'" in
  apply step_Sync in H;
  destruct H as (Hl & Hij & gi & gi' & gj & gj' & Hi & Hj & Hs & Hr & ->);
  pose proof Hj as Hj';
  rewrite <- (list_lookup_insert_ne (pool _) _ _ gi' Hij) in Hj';
  inversion Hs; subst; inversion Hr; subst.

Ltac step_inv H :=
  match type of H with
  | step ?a _ = Some _ =>
      destruct a;
      [ apply step_Call in H; destruct H as [? ->]
      | apply step_Cancel in H; destruct H as (? & ? & ? & ->)
      | apply step_TickOf in H; destruct H as (? & ? & ->)
      | run_inv H
      | sync_inv H ]
  end.

Lemma step_length a s s' : step a s = Some s' -> (length (pool s) <= length (pool s'))%nat.
Proof.
  intros H. step_inv H.
  all: cbn [pool set_pool]; rewrite ?length_app, ?length_insert; simpl; lia.
Qed.

Lemma step_params a s s' :
  step a s = Some s' ->
  maxTokens (lim s') = maxTokens (lim s) /\
  refillDuration (lim s') = refillDuration (lim s).
Proof. intros H. step_inv H; done. Qed.

(** ** The participant count *)

Lemma running_range g : 0 <= running g <= 1.
Proof. destruct g as [[]?|[]?|[]?]; simpl; lia. Qed.
Lemma starting_range g : 0 <= starting g <= 1.
Proof. destruct g as [[]?|[]?|[]?]; simpl; lia. Qed.
Lemma waiting_range g : 0 <= waiting g <= 1.
Proof. destruct g as [[]?|[]?|[]?]; simpl; lia. Qed.
Lemma holds_range g : 0 <= holds g <= 1.
Proof. destruct g as [[]?|[]?|[]?]; simpl; lia. Qed.
Lemma saw_zero_holds g : 0 <= saw_zero g <= holds g.
Proof. destruct g as [[]?|[]?|[]?]; simpl; lia. Qed.
Lemma saw_nonzero_holds g : 0 <= saw_nonzero g <= holds g.
Proof. destruct g as [[]?|[]?|[]?]; simpl; lia. Qed.
Lemma saw_one_holds g : 0 <= saw_one g <= holds g.
Proof. destruct g as [[]?|[]?|[]?]; simpl; lia. Qed.

Lemma total_others_le f h gs i g :
  (forall g, 0 <= f g <= h g) -> gs !! i = Some g ->
  0 <= total f gs - f g <= total h gs - h g.
Proof.
  intros Hf. revert i. induction gs as [|x gs IH]; intros [|i]; simpl; try done.
  - intros [= ->]. pose proof (total_le f h gs (fun g => proj2 (Hf g))).
    pose proof (total_nonneg f gs (fun g => proj1 (Hf g))). lia.
  - intros H. specialize (IH _ H). specialize (Hf x). lia.
Qed.

(** Facts about the sums of [s], and about the share of the goroutine
    that moves, for [lia]. *)
Lemma running_nonneg g : 0 <= running g.
Proof. apply running_range. Qed.
Lemma starting_nonneg g : 0 <= starting g.
Proof. apply starting_range. Qed.
Lemma waiting_nonneg g : 0 <= waiting g.
Proof. apply waiting_range. Qed.
Lemma holds_nonneg g : 0 <= holds g.
Proof. apply holds_range. Qed.

Ltac pool_facts s :=
  pose proof (total_bound running (pool s) 1 running_range);
  pose proof (total_bound starting (pool s) 1 starting_range);
  pose proof (total_bound waiting (pool s) 1 waiting_range);
  pose proof (total_bound holds (pool s) 1 holds_range);
  repeat match goal with
  | Hi : pool s !! ?i = Some ?g |- _ =>
      lazymatch goal with
      | _ : 0 <= total running (pool s) - running g |- _ => fail
      | _ => idtac
      end;
      pose proof (total_others running (pool s) i g running_nonneg Hi);
      pose proof (total_others starting (pool s) i g starting_nonneg Hi);
      pose proof (total_others waiting (pool s) i g waiting_nonneg Hi);
      pose proof (total_others holds (pool s) i g holds_nonneg Hi);
      pose proof (total_others_le saw_zero holds (pool s) i g saw_zero_holds Hi);
      pose proof (total_others_le saw_nonzero holds (pool s) i g saw_nonzero_holds Hi);
      pose proof (total_others_le saw_one holds (pool s) i g saw_one_holds Hi)
  end.

Ltac totals :=
  cbn [pool lim set_pool set_count set_mutex numConcurrent mutex] in *;
  rewrite ?total_app;
  repeat (erewrite total_insert by eassumption);
  cbn [total foldr running starting waiting holds saw_zero saw_nonzero saw_one] in *.

Lemma count_inv_step a s s' :
  step a s = Some s' -> small s' -> count_inv s -> count_inv s'.
Proof.
  intros H Hsmall [I1 I2 I3 I4 I5 I6 I7]. unfold small, GoInt.int_max in Hsmall.
  step_inv H; pool_facts s.
  all: cbn [pool lim set_pool set_count set_mutex numConcurrent mutex length] in *.
  all: rewrite ?length_app, ?length_insert in Hsmall; cbn [length] in Hsmall.
  all: cbn [running starting waiting holds saw_zero saw_nonzero saw_one] in *.
  all: try (rewrite add_id by (unfold GoInt.is_int, GoInt.int_min, GoInt.int_max; lia)).
  all: try (rewrite sub_id by (unfold GoInt.is_int, GoInt.int_min, GoInt.int_max; lia)).
  all: split; totals.
  all: try match goal with E : mutex _ = _ |- _ => rewrite E in * end.
  all: destruct (mutex (lim s)); lia.
Qed.

Lemma count_inv_init l :
  numConcurrent l = 0 -> mutex l = false -> count_inv (init l).
Proof. intros Hn Hm. split; cbn; rewrite ?Hn, ?Hm; lia. Qed.

Lemma small_step a s s' : step a s = Some s' -> small s' -> small s.
Proof. unfold small. intros H%step_length. lia. Qed.

Lemma count_inv_run l tr s :
  numConcurrent l = 0 -> mutex l = false ->
  run tr (init l) = Some s -> small s -> count_inv s.
Proof.
  intros Hn Hm. revert s. induction tr as [|a tr IH] using rev_ind; intros s.
  - intros [= <-] _. by apply count_inv_init.
  - rewrite run_snoc. intros (s1 & H1 & H2) Hs.
    eapply count_inv_step; eauto using small_step.
Qed.

Lemma count_inv_reachable maxT d l tr s :
  NewReservoirLimiter maxT d = Returns l ->
  run tr (init l) = Some s -> small s -> count_inv s.
Proof.
  intros [= <-]. by apply count_inv_run.
Qed.

Lemma starting_le_holds gs : total starting gs <= total holds gs.
Proof. apply total_le. intros [[]?|[]?|[]?]; simpl; lia. Qed.

Lemma holder_has_mutex s i g :
  count_inv s -> pool s !! i = Some g -> holds g = 1 -> mutex (lim s) = true.
Proof.
  intros [_ I2 _ _ _ _ _] Hi Hg.
  pose proof (total_others holds (pool s) i g holds_nonneg Hi).
  destruct (mutex (lim s)); [done | lia].
Qed.

Lemma count_written_under_mutex a s s' :
  count_inv s -> small s' -> step a s = Some s' ->
  numConcurrent (lim s') = numConcurrent (lim s)
  \/ (mutex (lim s) = true /\
      exists i, a = Run i /\ count_write s i (numConcurrent (lim s'))).
Proof.
  intros Hinv Hsmall H. pose proof Hinv as [I1 I2 I3 I4 I5 I6 I7].
  unfold small, GoInt.int_max in Hsmall.
  step_inv H; try (by left).
  all: right; (split; [by eapply holder_has_mutex|]).
  all: exists i; (split; [done|]).
  all: pool_facts s.
  all: cbn [pool lim set_pool set_count set_mutex numConcurrent mutex length] in *.
  all: rewrite ?length_app, ?length_insert in Hsmall; cbn [length] in Hsmall.
  all: cbn [running starting waiting holds saw_zero saw_nonzero saw_one] in *.
  all: try (rewrite add_id by (unfold GoInt.is_int, GoInt.int_min, GoInt.int_max; lia)).
  all: try (rewrite sub_id by (unfold GoInt.is_int, GoInt.int_min, GoInt.int_max; lia)).
  - eapply write_L35; [done|]. apply I5. lia.
  - by eapply write_L38.
  - by eapply write_L44.
  - by eapply write_L49.
  - eapply write_M67; [done|]. apply I7. lia.
Qed.

(** C2.  In every state reached from a freshly constructed limiter (with
    few enough goroutines for the count not to overflow), the participant
    count is the number of running Managers, plus the Managers being
    started, plus the calls of Limit between their increment and their
    decrement; at most one Manager is running or being started; and the
    count is positive exactly when there is one.  Whenever the mutex is
    free no Manager is being started, so a Manager is running if and only
    if the count is positive.  A Manager counts as running until it has
    written 0 to the count at line 67; after that it only unlocks and
    returns, without touching the count.  And a step changes the count
    only with the mutex held and only in these ways: a call of Limit that
    has read 0 writes 2 (and starts the Manager next), or increments the
    count, or decrements it before it returns; the Manager that has read 1
    writes 0 (and returns next). *)
Theorem manager_running_iff_participants maxT d l tr s :
  NewReservoirLimiter maxT d = Returns l ->
  run tr (init l) = Some s ->
  small s ->
  numConcurrent (lim s)
  = total running (pool s) + total starting (pool s) + total waiting (pool s)
  /\ total running (pool s) + total starting (pool s) <= 1
  /\ (0 < numConcurrent (lim s) <->
      total running (pool s) + total starting (pool s) = 1)
  /\ (mutex (lim s) = false ->
      total starting (pool s) = 0 /\
      (0 < numConcurrent (lim s) <-> total running (pool s) = 1))
  /\ (forall i pc tc t,
        pool s !! i = Some (GManage pc tc) ->
        running (GManage pc tc) = 0 ->
        t ∈ transitions (lim s) (GManage pc tc) ->
        (t_label t = Unlock \/ t_label t = Tau) /\
        t_count t = numConcurrent (lim s) /\
        running (t_next t) = 0)
  /\ (forall a s',
        step a s = Some s' -> small s' ->
        numConcurrent (lim s') = numConcurrent (lim s)
        \/ (mutex (lim s) = true /\
            exists i, a = Run i /\ count_write s i (numConcurrent (lim s')))).
Proof.
  intros Hnew Hrun Hsmall.
  pose proof (count_inv_reachable _ _ _ _ _ Hnew Hrun Hsmall) as Hinv.
  destruct Hinv as [I1 I2 I3 I4 I5 I6 I7].
  pose proof (total_nonneg running (pool s) running_nonneg).
  pose proof (total_nonneg starting (pool s) starting_nonneg).
  pose proof (total_nonneg waiting (pool s) waiting_nonneg).
  pose proof (starting_le_holds (pool s)).
  split_and!; try lia.
  - intros Hm. rewrite Hm in I2. lia.
  - intros i pc tc t _ Hr Ht.
    destruct pc; try discriminate Hr; cbn in Ht.
    all: repeat (apply elem_of_cons in Ht as [->|Ht]); try by apply elem_of_nil in Ht.
    all: cbn; auto.
  - intros a s' Hstep Hs'. by apply count_written_under_mutex.
Qed.

Lemma manager_running_iff_participants_witness :
  let s := {| lim := mkLimiter 1 50 2 false;
              pool := [GLimit (Lret None) None; GManage M61 0;
                       GRefill R88 false; GLimit L41 None];
              panicked := false |} in
  numConcurrent (lim s)
  = total running (pool s) + total starting (pool s) + total waiting (pool s)
  /\ total running (pool s) + total starting (pool s) <= 1
  /\ (0 < numConcurrent (lim s) <->
      total running (pool s) + total starting (pool s) = 1)
  /\ (mutex (lim s) = false ->
      total starting (pool s) = 0 /\
      (0 < numConcurrent (lim s) <-> total running (pool s) = 1))
  /\ (forall i pc tc t,
        pool s !! i = Some (GManage pc tc) ->
        running (GManage pc tc) = 0 ->
        t ∈ transitions (lim s) (GManage pc tc) ->
        (t_label t = Unlock \/ t_label t = Tau) /\
        t_count t = numConcurrent (lim s) /\
        running (t_next t) = 0)
  /\ (forall a s',
        step a s = Some s' -> small s' ->
        numConcurrent (lim s') = numConcurrent (lim s)
        \/ (mutex (lim s) = true /\
            exists i, a = Run i /\ count_write s i (numConcurrent (lim s')))).
Proof.
  apply (manager_running_iff_participants 1 50 (mkLimiter 1 50 0 false)
           [Call None; Run 0; Run 0; Run 0; Run 0; Run 0;
            Run 1; Run 1; Run 1; Run 1; Run 1;
            Sync ch_out 1 0; Run 1; Run 1; Run 1;
            Run 0; Run 0; Run 0; Run 0;
            Call None; Run 3; Run 3; Run 3; Run 3]).
  - reflexivity.
  - vm_compute. reflexivity.
  - unfold small. vm_compute. discriminate.
Defined.

(** ** The level of the reservoir *)

Ltac forall_pool :=
  repeat first
    [ apply Forall_app_2
    | apply Forall_insert
    | apply Forall_cons_2
    | apply Forall_nil_2
    | assumption ].

Ltac from_pool HF :=
  repeat match goal with
  | Hi : pool _ !! _ = Some _ |- _ =>
      let Hg := fresh "Hg" in
      pose proof (Forall_lookup_1 _ _ _ _ HF Hi) as Hg;
      cbn in Hg; revert Hi
  end; intros.

Ltac int_arith :=
  unfold GoInt.is_int, GoInt.int_min, GoInt.int_max in *; lia.

Lemma level_ok_step a s s' :
  1 <= maxTokens (lim s) <= GoInt.int_max ->
  step a s = Some s' ->
  Forall (level_ok (maxTokens (lim s))) (pool s) ->
  Forall (level_ok (maxTokens (lim s'))) (pool s').
Proof.
  intros Hmax H HF. step_inv H.
  all: cbn [pool lim set_pool set_count set_mutex maxTokens] in *.
  all: from_pool HF; forall_pool; cbn; try done.
  all: try (rewrite add_id by int_arith); try (rewrite sub_id by int_arith).
  all: try lia.
  all: destruct x; cbn in *; done.
Qed.

Lemma run_params tr s s' :
  run tr s = Some s' ->
  maxTokens (lim s') = maxTokens (lim s) /\
  refillDuration (lim s') = refillDuration (lim s).
Proof.
  revert s'. induction tr as [|a tr IH] using rev_ind; intros s'.
  - by intros [= <-].
  - rewrite run_snoc. intros (s1 & H1 & H2).
    destruct (IH _ H1) as [<- <-]. by apply step_params in H2.
Qed.

Lemma level_ok_run l tr s :
  1 <= maxTokens l <= GoInt.int_max ->
  run tr (init l) = Some s ->
  Forall (level_ok (maxTokens l)) (pool s).
Proof.
  intros Hmax. revert s. induction tr as [|a tr IH] using rev_ind; intros s.
  - intros [= <-]. constructor.
  - rewrite run_snoc. intros (s1 & H1 & H2).
    destruct (run_params _ _ _ H1) as [E1 _]. cbn in E1.
    destruct (step_params _ _ _ H2) as [E2 _].
    assert (1 <= maxTokens (lim s1) <= GoInt.int_max) as Hmax1 by (by rewrite E1).
    rewrite <- E1, <- E2. apply (level_ok_step _ _ _ Hmax1 H2).
    rewrite E1. by apply IH.
Qed.

Lemma level_ok_range maxT pc tc :
  1 <= maxT -> pc <> M57 -> level_ok maxT (GManage pc tc) -> 0 <= tc <= maxT.
Proof. destruct pc; cbn; intros; try done; lia. Qed.

(** C3.  For a limiter constructed with a capacity of at least 1 (and a Go
    int), in every reachable state: a Manager that executes line 57 gets
    the level maxTokens; the level of every Manager past line 57 is between
    0 and maxTokens, whatever step was taken last; and a Manager that
    accepts a refill on the request channel has a level below maxTokens. *)
Theorem level_within_capacity maxT d l tr s :
  1 <= maxT <= GoInt.int_max ->
  NewReservoirLimiter maxT d = Returns l ->
  run tr (init l) = Some s ->
  (forall i tc s',
     pool s !! i = Some (GManage M57 tc) ->
     step (Run i) s = Some s' ->
     pool s' !! i = Some (GManage M59 maxT))
  /\ (forall i pc tc,
        pool s !! i = Some (GManage pc tc) -> pc <> M57 ->
        0 <= tc <= maxT)
  /\ (forall r m s',
        step (Sync ch_in r m) s = Some s' ->
        exists pc tc,
          pool s !! m = Some (GManage pc tc) /\ 0 <= tc < maxT /\
          exists pc', pool s' !! m = Some (GManage pc' tc)).
Proof.
  intros Hmax [= <-] Hrun.
  pose proof (level_ok_run (mkLimiter maxT d 0 false) _ _ Hmax Hrun) as HF.
  cbn in HF.
  destruct (run_params _ _ _ Hrun) as [Emax _]. cbn in Emax.
  split_and!.
  - intros i tc s' Hi H. run_inv H; try congruence.
    cbn. rewrite list_lookup_insert_eq by (by eapply lookup_lt_Some).
    congruence.
  - intros i pc tc Hi Hpc.
    eapply level_ok_range; [lia | done |].
    apply (Forall_lookup_1 _ _ _ _ HF Hi).
  - intros r m s' H. sync_inv H; from_pool HF.
    + exists M61, tc. split_and!; [done | lia | lia |].
      exists M62. cbn. apply list_lookup_insert_eq.
      rewrite length_insert. by eapply lookup_lt_Some.
    + exists M76, tc. split_and!; [done | lia | lia |].
      exists M78. cbn. apply list_lookup_insert_eq.
      rewrite length_insert. by eapply lookup_lt_Some.
Qed.

Lemma level_within_capacity_witness :
  let s := {| lim := mkLimiter 1 50 2 false;
              pool := [GLimit (Lret None) None; GManage M61 0;
                       GRefill R90 true; GLimit L41 None];
              panicked := false |} in
  (forall i tc s',
     pool s !! i = Some (GManage M57 tc) ->
     step (Run i) s = Some s' ->
     pool s' !! i = Some (GManage M59 1))
  /\ (forall i pc tc,
        pool s !! i = Some (GManage pc tc) -> pc <> M57 ->
        0 <= tc <= 1)
  /\ (forall r m s',
        step (Sync ch_in r m) s = Some s' ->
        exists pc tc,
          pool s !! m = Some (GManage pc tc) /\ 0 <= tc < 1 /\
          exists pc', pool s' !! m = Some (GManage pc' tc)).
Proof.
  apply (level_within_capacity 1 50 (mkLimiter 1 50 0 false)
           [Call None; Run 0; Run 0; Run 0; Run 0; Run 0;
            Run 1; Run 1; Run 1; Run 1; Run 1;
            Sync ch_out 1 0; Run 1; Run 1; Run 1;
            Run 0; Run 0; Run 0; Run 0;
            Call None; Run 3; Run 3; Run 3; Run 3;
            Run 2; TickOf 2]).
  - unfold GoInt.int_max. lia.
  - reflexivity.
  - vm_compute. reflexivity.
Defined.

(** ** A reservoir of capacity 0 *)

Lemma starved_step a s s' :
  maxTokens (lim s) = 0 ->
  step a s = Some s' ->
  Forall starved (pool s) -> Forall starved (pool s').
Proof.
  intros Hmax H HF. step_inv H.
  all: cbn [pool lim set_pool set_count set_mutex maxTokens] in *.
  all: from_pool HF; forall_pool; cbn; try done.
  all: try (destruct x; cbn in *; intuition congruence).
  all: intuition (subst; auto; congruence).
Qed.

Lemma starved_run l tr s :
  maxTokens l = 0 ->
  run tr (init l) = Some s ->
  Forall starved (pool s).
Proof.
  intros Hmax. revert s. induction tr as [|a tr IH] using rev_ind; intros s.
  - intros [= <-]. constructor.
  - rewrite run_snoc. intros (s1 & H1 & H2).
    destruct (run_params _ _ _ H1) as [E1 _]. cbn in E1.
    eapply starved_step; [|done|by apply IH]. congruence.
Qed.

(** C9.  For a limiter constructed with maxTokens = 0, in every reachable
    state: every Manager has level 0 and is at line 57, 59 or 61, and from
    the switch at line 59 it goes to the receive of line 61 (the case 0
    comes first); no Refill Scheduler exists; no token can be handed out;
    a call of Limit whose context has not fired is at or before its
    select; and a call that has returned returned the error of its
    context. *)
Theorem zero_capacity_never_admits d l tr s :
  NewReservoirLimiter 0 d = Returns l ->
  run tr (init l) = Some s ->
  (forall i pc tc,
     pool s !! i = Some (GManage pc tc) ->
     tc = 0 /\ (pc = M57 \/ pc = M59 \/ pc = M61))
  /\ (forall i tc s',
        pool s !! i = Some (GManage M59 tc) ->
        step (Run i) s = Some s' ->
        pool s' !! i = Some (GManage M61 0))
  /\ (forall i pc tk, pool s !! i <> Some (GRefill pc tk))
  /\ (forall m j, step (Sync ch_out m j) s = None)
  /\ (forall i pc,
        pool s !! i = Some (GLimit pc None) ->
        pc = L33 \/ pc = L34 \/ pc = L35 \/ pc = L36 \/ pc = L38 \/
        pc = L40 \/ pc = L41)
  /\ (forall i r ctx,
        pool s !! i = Some (GLimit (Lret r) ctx) ->
        exists e, r = Some e /\ ctx = Some e).
Proof.
  intros [= <-] Hrun.
  pose proof (starved_run (mkLimiter 0 d 0 false) _ _ eq_refl Hrun) as HF.
  destruct (run_params _ _ _ Hrun) as [Emax _]. cbn in Emax.
  split_and!.
  - intros i pc tc Hi. apply (Forall_lookup_1 _ _ _ _ HF Hi).
  - intros i tc s' Hi H. from_pool HF. destruct Hg as [-> _].
    run_inv H; try congruence.
    cbn. rewrite list_lookup_insert_eq by (by eapply lookup_lt_Some).
    congruence.
  - intros i pc tk Hi. apply (Forall_lookup_1 _ _ _ _ HF Hi).
  - intros m j. destruct (step (Sync ch_out m j) s) as [s'|] eqn:H; [|done].
    sync_inv H; from_pool HF; intuition congruence.
  - intros i pc Hi. from_pool HF. destruct pc; cbn in Hg; intuition congruence.
  - intros i r ctx Hi. from_pool HF. destruct Hg as [Hr <-].
    destruct r as [e|]; [eauto | done].
Qed.

Lemma zero_capacity_never_admits_witness :
  let s := {| lim := mkLimiter 0 50 1 false;
              pool := [GLimit (Lret (Some Canceled)) (Some Canceled);
                       GManage M61 0];
              panicked := false |} in
  (forall i pc tc,
     pool s !! i = Some (GManage pc tc) ->
     tc = 0 /\ (pc = M57 \/ pc = M59 \/ pc = M61))
  /\ (forall i tc s',
        pool s !! i = Some (GManage M59 tc) ->
        step (Run i) s = Some s' ->
        pool s' !! i = Some (GManage M61 0))
  /\ (forall i pc tk, pool s !! i <> Some (GRefill pc tk))
  /\ (forall m j, step (Sync ch_out m j) s = None)
  /\ (forall i pc,
        pool s !! i = Some (GLimit pc None) ->
        pc = L33 \/ pc = L34 \/ pc = L35 \/ pc = L36 \/ pc = L38 \/
        pc = L40 \/ pc = L41)
  /\ (forall i r ctx,
        pool s !! i = Some (GLimit (Lret r) ctx) ->
        exists e, r = Some e /\ ctx = Some e).
Proof.
  apply (zero_capacity_never_admits 50 (mkLimiter 0 50 0 false)
           [Call None; Run 0; Run 0; Run 0; Run 0; Run 0;
            Run 1; Run 1; Cancel 0 Canceled;
            Run 0; Run 0; Run 0; Run 0; Run 0]).
  - reflexivity.
  - vm_compute. reflexivity.
Defined.

(** ** The result of Limit *)

Lemma tokens_received_snoc tr a i :
  tokens_received (tr ++ [a]) i
  = (tokens_received tr i + if delivered_to i a then 1 else 0)%nat.
Proof.
  unfold tokens_received. rewrite List.filter_app, length_app. cbn.
  by destruct (delivered_to i a).
Qed.

(** The entries of a pool after an update, traced back to the pool
    before it. *)
Ltac lookup_cases Hj :=
  repeat first
    [ apply lookup_snoc_Some in Hj; destruct Hj as [[? Hj]|[-> Hj]]
    | apply list_lookup_insert_Some in Hj;
      destruct Hj as [(<- & Hj & ?)|[? Hj]] ];
  try discriminate Hj.

Lemma calls_ok_step tr a s s' :
  calls_ok tr s -> step a s = Some s' -> calls_ok (tr ++ [a]) s'.
Proof.
  intros [HP HN] H.
  step_inv H; (split; [intros q pc' ctx' Hq | intros q Hlen]).
  all: rewrite tokens_received_snoc; cbn [delivered_to].
  all: cbn [pool set_pool] in *.
  all: try (rewrite ?length_app, ?length_insert in Hlen; cbn [length] in Hlen).
  all: try (rewrite Nat.add_0_r; apply HN; lia).
  all: try (apply lookup_lt_Some in Hj; destruct (Nat.eqb_spec j q); [lia|];
            rewrite Nat.add_0_r; apply HN; lia).
  all: lookup_cases Hq.
  all: try (rewrite Nat.add_0_r; by apply HP).
  all: try (injection Hq as <- <-).
  all: try (rewrite HN by lia; done).
  all: try (rewrite Nat.add_0_r; specialize (HP _ _ _ Hi); cbn in *; tauto).
  - specialize (HP _ _ _ H0). rewrite Nat.add_0_r.
    destruct x as [| | | | | | | | | | | | | | |[?|]]; cbn in *;
      intuition congruence.
  - rewrite Nat.add_0_r. specialize (HP _ _ _ Hi). cbn in *. done.
  - rewrite Nat.add_0_r. specialize (HP _ _ _ Hi). cbn in *.
    destruct HP as [? ?]. destruct ctx; [done | congruence].
  - specialize (HP _ _ _ Hj). cbn in *. by rewrite HP, Nat.eqb_refl.
  - destruct (Nat.eqb_spec j q) as [->|?]; [congruence|].
    rewrite Nat.add_0_r. by apply HP.
  - specialize (HP _ _ _ Hj). cbn in *. by rewrite HP, Nat.eqb_refl.
  - destruct (Nat.eqb_spec j q) as [->|?]; [congruence|].
    rewrite Nat.add_0_r. by apply HP.
Qed.

Lemma calls_ok_run l tr s : run tr (init l) = Some s -> calls_ok tr s.
Proof.
  revert s. induction tr as [|a tr IH] using rev_ind; intros s.
  - intros [= <-]. split; [intros i pc ctx Hi; done | done].
  - rewrite run_snoc. intros (s1 & H1 & H2). eauto using calls_ok_step.
Qed.

(** A call whose context has fired before it starts, and a Manager that
    reaches its send before the call reaches its select: both cases of the
    select are ready, the select takes the token, and Limit returns nil. *)
Lemma Limit_admitted_after_cancellation :
  ~ outcome_by_order (init (mkLimiter 1 50 0 false)).
Proof.
  intros H.
  apply (H ([Call (Some Canceled)]
            ++ [Run 0; Run 0; Run 0; Run 0; Run 0;
                Run 1; Run 1; Run 1; Run 1; Run 1;
                Sync ch_out 1 0; Run 0; Run 0; Run 0; Run 0])
           {| lim := mkLimiter 1 50 1 false;
              pool := [GLimit (Lret None) (Some Canceled); GManage M73 1];
              panicked := false |}
           0%nat None (Some Canceled)).
  - vm_compute. reflexivity.
  - reflexivity.
  - eexists _, _, _, L33, Canceled. split_and!; reflexivity.
  - reflexivity.
Qed.

(** C4, amended.  In every state reached from a freshly constructed
    limiter, a call of Limit that has returned has returned either nil, and
    then exactly one token was handed to it on the dispense channel, or the
    error of its own context, and then that context has fired and no token
    was handed to it; there is no other result.  More generally a call is
    on the path to [return nil] exactly when it has received a token, and
    on the path to [return ctx.Err()] only when its context has fired and
    it has received none.  Which of the two cases the select takes when
    both are ready is not decided by the order of the two events. *)
Theorem Limit_returns_nil_or_ctx_err maxT d l tr s i pc ctx :
  NewReservoirLimiter maxT d = Returns l ->
  run tr (init l) = Some s ->
  pool s !! i = Some (GLimit pc ctx) ->
  (forall r, pc = Lret r ->
     (r = None /\ tokens_received tr i = 1%nat) \/
     (exists e, r = Some e /\ ctx = Some e /\ tokens_received tr i = 0%nat))
  /\ (tokens_received tr i = 1%nat <->
      pc = L43 \/ pc = L44 \/ pc = L45 \/ pc = L46 \/ pc = Lret None)
  /\ (pc = L48 \/ pc = L49 \/ pc = L50 \/ pc = L51 ->
      ctx <> None /\ tokens_received tr i = 0%nat)
  /\ (tokens_received tr i <= 1)%nat.
Proof.
  intros [= <-] Hrun Hi.
  destruct (calls_ok_run _ _ _ Hrun) as [HP _]. specialize (HP _ _ _ Hi).
  split_and!.
  - intros r ->. destruct r as [e|]; cbn in HP; [right | left; done].
    exists e. tauto.
  - destruct pc as [| | | | | | | | | | | | | | |[?|]]; cbn in HP;
      intuition (try congruence; try lia).
  - destruct pc; cbn in HP; intuition (try congruence; try lia).
  - destruct pc as [| | | | | | | | | | | | | | |[?|]]; cbn in HP; lia.
Qed.

Lemma Limit_returns_nil_or_ctx_err_witness :
  let tr := [Call None; Run 0; Run 0; Run 0; Run 0; Run 0;
             Run 1; Run 1; Run 1; Run 1; Run 1;
             Sync ch_out 1 0; Run 1; Run 1; Run 1;
             Run 0; Run 0; Run 0; Run 0;
             Call None; Run 3; Run 3; Run 3; Run 3;
             Cancel 3 DeadlineExceeded;
             Run 3; Run 3; Run 3; Run 3; Run 3] in
  let pc := Lret (Some DeadlineExceeded) in
  let ctx := Some DeadlineExceeded in
  (forall r, pc = Lret r ->
     (r = None /\ tokens_received tr 3 = 1%nat) \/
     (exists e, r = Some e /\ ctx = Some e /\ tokens_received tr 3 = 0%nat))
  /\ (tokens_received tr 3 = 1%nat <->
      pc = L43 \/ pc = L44 \/ pc = L45 \/ pc = L46 \/ pc = Lret None)
  /\ (pc = L48 \/ pc = L49 \/ pc = L50 \/ pc = L51 ->
      ctx <> None /\ tokens_received tr 3 = 0%nat)
  /\ (tokens_received tr 3 <= 1)%nat.
Proof.
  apply (Limit_returns_nil_or_ctx_err 1 50 (mkLimiter 1 50 0 false) _
           {| lim := mkLimiter 1 50 1 false;
              pool := [GLimit (Lret None) None; GManage M61 0;
                       GRefill R88 false;
                       GLimit (Lret (Some DeadlineExceeded)) (Some DeadlineExceeded)];
              panicked := false |}).
  - reflexivity.
  - vm_compute. reflexivity.
  - reflexivity.
Defined.

(** ** The constructor and its arguments *)

Lemma NewReservoirLimiter_accepts_nonpositive : ~ rejects_nonpositive 0 (-1).
Proof. unfold rejects_nonpositive. intros H. discriminate H. lia. Qed.

(** C8, amended.  The constructor validates nothing: for all arguments,
    positive or not, it returns a handle with that capacity and refill
    period, a participant count of 0 and an unlocked mutex; and Limit can
    be called on the handle: the first call registers itself, starts a
    Manager and reaches its select. *)
Theorem NewReservoirLimiter_returns_handle maxT d :
  exists l,
    NewReservoirLimiter maxT d = Returns l
    /\ maxTokens l = maxT
    /\ refillDuration l = d
    /\ numConcurrent l = 0
    /\ mutex l = false
    /\ forall ctx,
         run [Call ctx; Run 0; Run 0; Run 0; Run 0; Run 0] (init l)
         = Some {| lim := mkLimiter maxT d 2 false;
                   pool := [GLimit L41 ctx; GManage M57 0];
                   panicked := false |}.
Proof.
  eexists. split; [reflexivity|]. split_and!; try reflexivity.
Qed.

(** ** One iteration of the Manager loop *)

Lemma manager_paths_S fuel maxT n pc tc :
  manager_paths (S fuel) maxT n pc tc
  = flat_map
      (fun t : transition =>
         match t_next t with
         | GManage M59 tc' => [(visible (t_label t), t_count t, Continue tc')]
         | GManage Mret _ => [(visible (t_label t), t_count t, Terminate)]
         | GManage pc' tc' =>
             map (after (t_label t)) (manager_paths fuel maxT (t_count t) pc' tc')
         | _ => []
         end)
      (manageTokens maxT n pc tc).
Proof. reflexivity. Qed.

(** C1.  One iteration of the Manager loop, composed from the transitions
    of [manageTokens] between two evaluations of the switch, is the
    iteration of the three-state machine: at level 0 a receive on the
    request channel and an increment, with no send; at level maxTokens a
    critical section that reads the count and, if it is 1, writes 0 and
    returns, and otherwise is followed by a send on the dispense channel, a
    decrement and the start of a Refill Scheduler; at any other level
    either a receive on the request channel and an increment or a send on
    the dispense channel and a decrement.  The level is any int whose
    increment and decrement do not overflow. *)
Theorem manager_iteration_is_spec maxT n level :
  GoInt.is_int (level - 1) -> GoInt.is_int (level + 1) ->
  manager_iteration maxT n level = spec_manager maxT n level.
Proof.
  intros Hdec Hinc. unfold manager_iteration, spec_manager.
  destruct (level =? 0) eqn:E0;
    [|destruct (level =? maxT) eqn:Em; [destruct (n =? 1) eqn:En|]].
  all: repeat (rewrite manager_paths_S; cbn [manageTokens];
               rewrite ?E0, ?Em, ?En;
               cbn [flat_map map app t_next t_label t_count fst snd
                    visible after]).
  all: rewrite ?add_id, ?sub_id by assumption.
  all: reflexivity.
Qed.

Lemma manager_iteration_is_spec_witness :
  manager_iteration 3 2 3 = spec_manager 3 2 3.
Proof.
  apply (manager_iteration_is_spec 3 2 3).
  - unfold GoInt.is_int, GoInt.int_min, GoInt.int_max. lia.
  - unfold GoInt.is_int, GoInt.int_min, GoInt.int_max. lia.
Defined.

(** ** Executing a schedule by hand *)

Lemma step_Run_eq i s g t :
  panicked s = false ->
  pool s !! i = Some g ->
  pick internal (transitions (lim s) g) = Some t ->
  step (Run i) s = exec i g t s.
Proof. intros Hl Hi Ht. unfold step. rewrite Hl, Hi. cbn. by rewrite Ht. Qed.


Lemma lookup_insert_same (gs : list goroutine) i g g' :
  gs !! i = Some g -> <[i := g']> gs !! i = Some g'.
Proof. intros H. apply list_lookup_insert_eq. by eapply lookup_lt_Some. Qed.

Lemma lookup_insert_snoc_same (gs : list goroutine) i g g' h :
  gs !! i = Some g -> (<[i := g']> gs ++ [h]) !! i = Some g'.
Proof. intros H. apply lookup_app_l_Some. by eapply lookup_insert_same. Qed.

Lemma insert_insert_snoc (gs : list goroutine) i g g' g'' h :
  gs !! i = Some g ->
  <[i := g'']> (<[i := g']> gs ++ [h]) = <[i := g'']> gs ++ [h].
Proof.
  intros H. rewrite insert_app_l.
  - by rewrite list_insert_insert_eq.
  - rewrite length_insert. by eapply lookup_lt_Some.
Qed.

Ltac solve_lookup :=
  cbn [pool set_pool];
  first
    [ eassumption
    | eapply lookup_insert_same; eassumption
    | eapply lookup_insert_snoc_same; eassumption ].

(** [run_step]: execute the next [Run i] of the schedule in the goal. *)
Ltac run_step :=
  cbn [run];
  erewrite step_Run_eq; [ | try done; reflexivity | solve_lookup | cbn; reflexivity ];
  cbn [exec t_label t_next t_count fst snd mbind option_bind
       lim pool panicked set_pool set_count set_mutex mutex numConcurrent];
  rewrite ?list_insert_insert_eq;
  try (erewrite insert_insert_snoc by eassumption).

(** Who is ready to receive on a channel. *)
Lemma offers_recv l c g :
  offers l (is_recv c) g = true <-> exists g', receives c g g'.
Proof.
  unfold offers. split.
  - destruct (pick _ _) as [t|] eqn:Ht; [|done].
    intros _. apply pick_recv in Ht. destruct Ht as [Ht _]. eauto.
  - intros [g' Hr].
    assert (pick (is_recv c) (transitions l g) = Some (Recv c, numConcurrent l, g')) as ->
      by by apply pick_recv.
    done.
Qed.

Lemma can_proceed_R90 l gs tk :
  can_proceed l gs (GRefill R90 tk) = true <->
  exists m g g', gs !! m = Some g /\ receives ch_in g g'.
Proof.
  unfold can_proceed. cbn. rewrite !orb_false_r. rewrite existsb_exists. split.
  - intros (g & Hin & Ho). apply offers_recv in Ho as [g' Hr].
    apply list_elem_of_In, list_elem_of_lookup in Hin as [m Hm]. eauto.
  - intros (m & g & g' & Hm & Hr). exists g. split.
    + apply list_elem_of_In, list_elem_of_lookup. eauto.
    + apply offers_recv. eauto.
Qed.

(** ** The Refill Scheduler *)




(** ** Cancellation *)

(** C6.  In a state reached from a freshly constructed limiter, take a
    call of Limit whose next statement belongs to the cancelled outcome:
    the case [<-ctx.Done()] of the select or one of lines 48 to 51.  Its
    context has fired and it has received no token.  Executing the
    statement does not panic and changes the program point of that call
    and nothing else in the pool: Managers, with their levels, Refill
    Schedulers and the other calls stay as they are.  The count changes
    only at line 49, by the decrement.  Every rendezvous that was possible
    between other goroutines is still possible and no new one becomes
    possible, so a token offered on the dispense channel stays on offer
    for the next receiver; and the cancelled call itself can no longer
    take one. *)
Theorem cancelled_Limit_frame maxT d l tr s s' i pc ctx :
  NewReservoirLimiter maxT d = Returns l ->
  run tr (init l) = Some s ->
  small s ->
  pool s !! i = Some (GLimit pc ctx) ->
  pc = L41 \/ pc = L48 \/ pc = L49 \/ pc = L50 \/ pc = L51 ->
  step (Run i) s = Some s' ->
  panicked s' = false
  /\ ctx <> None
  /\ tokens_received (tr ++ [Run i]) i = 0%nat
  /\ (exists pc',
        pool s' = <[i := GLimit pc' ctx]> (pool s) /\
        (pc' = L48 \/ pc' = L49 \/ pc' = L50 \/ pc' = L51 \/ pc' = Lret ctx))
  /\ maxTokens (lim s') = maxTokens (lim s)
  /\ refillDuration (lim s') = refillDuration (lim s)
  /\ numConcurrent (lim s')
     = match pc with
       | L49 => GoInt.sub (numConcurrent (lim s)) 1
       | _ => numConcurrent (lim s)
       end
  /\ (forall c m j, j <> i ->
        is_Some (step (Sync c m j) s) <-> is_Some (step (Sync c m j) s'))
  /\ (forall c m, step (Sync c m i) s' = None).
Proof.
  intros Hnew Hrun Hsmall Hi Hpc H.
  pose proof (count_inv_reachable _ _ _ _ _ Hnew Hrun Hsmall) as Hinv.
  destruct (calls_ok_run _ _ _ Hrun) as [HP _]. specialize (HP _ _ _ Hi).
  assert (ctx <> None /\ tokens_received tr i = 0%nat /\
          exists pc',
            s' = {| lim := match pc with
                           | L48 => set_mutex (lim s) true
                           | L49 => set_count (lim s) (GoInt.sub (numConcurrent (lim s)) 1)
                           | L50 => set_mutex (lim s) false
                           | L51 => set_count (lim s) (numConcurrent (lim s))
                           | _ => lim s
                           end;
                    pool := <[i := GLimit pc' ctx]> (pool s);
                    panicked := false |} /\
            (pc' = L48 \/ pc' = L49 \/ pc' = L50 \/ pc' = L51 \/ pc' = Lret ctx))
    as (Hctx & Htok & pc' & -> & Hpc').
  { pose proof H as H'. run_inv H'; try discriminate Hi; injection Hi as <- <-.
    all: try (exfalso; intuition congruence).
    all: try (rewrite (holder_has_mutex _ _ _ Hinv Hi0) in Emu; [congruence|done]).
    all: cbn in HP; (split_and!; [intuition congruence | tauto |]).
    all: eexists; split; [reflexivity|tauto]. }
  split_and!; try done.
  - rewrite tokens_received_snoc. cbn. lia.
  - eauto.
  - by destruct pc.
  - by destruct pc.
  - by destruct pc.
  - intros c m j Hj. unfold is_Some. split; intros [s1 H1].
    + apply step_Sync in H1.
      destruct H1 as (Hl & Hmj & gi & gi' & gj & gj' & Hm & Hj' & Hs & Hr & _).
      eexists. apply step_Sync. cbn. split_and!; [done..|].
      exists gi, gi', gj, gj'. split_and!; try done.
      * destruct (decide (m = i)) as [->|?].
        -- rewrite Hi in Hm. injection Hm as <-. inversion Hs.
        -- by rewrite list_lookup_insert_ne.
      * by rewrite list_lookup_insert_ne.
    + apply step_Sync in H1. cbn in H1.
      destruct H1 as (Hl & Hmj & gi & gi' & gj & gj' & Hm & Hj' & Hs & Hr & _).
      eexists. apply step_Sync. split_and!; [by eapply step_live|done|].
      exists gi, gi', gj, gj'.
      rewrite list_lookup_insert_ne in Hj' by done. split_and!; try done.
      destruct (decide (m = i)) as [->|?].
      * rewrite (lookup_insert_same _ _ _ _ Hi) in Hm. injection Hm as <-.
        inversion Hs.
      * by rewrite list_lookup_insert_ne in Hm.
  - intros c m. destruct (step (Sync c m i) _) as [s1|] eqn:H1; [|done].
    apply step_Sync in H1. cbn in H1.
    destruct H1 as (Hl & Hmj & gi & gi' & gj & gj' & Hm & Hj' & Hs & Hr & _).
    rewrite (lookup_insert_same _ _ _ _ Hi) in Hj'. injection Hj' as <-.
    inversion Hr; subst. intuition congruence.
Qed.

Lemma cancelled_Limit_frame_witness :
  let tr := [Call None; Run 0; Run 0; Run 0; Run 0; Run 0;
             Run 1; Run 1; Run 1; Run 1; Run 1;
             Sync ch_out 1 0; Run 1; Run 1; Run 1;
             Run 0; Run 0; Run 0; Run 0;
             Call None; Run 3; Run 3; Run 3; Run 3;
             Cancel 3 Canceled; Run 3; Run 3] in
  let s := {| lim := mkLimiter 1 50 2 true;
              pool := [GLimit (Lret None) None; GManage M61 0;
                       GRefill R88 false; GLimit L49 (Some Canceled)];
              panicked := false |} in
  let s' := {| lim := mkLimiter 1 50 1 true;
               pool := [GLimit (Lret None) None; GManage M61 0;
                        GRefill R88 false; GLimit L50 (Some Canceled)];
               panicked := false |} in
  panicked s' = false
  /\ Some Canceled <> None
  /\ tokens_received (tr ++ [Run 3]) 3 = 0%nat
  /\ (exists pc',
        pool s' = <[3%nat := GLimit pc' (Some Canceled)]> (pool s) /\
        (pc' = L48 \/ pc' = L49 \/ pc' = L50 \/ pc' = L51 \/
         pc' = Lret (Some Canceled)))
  /\ maxTokens (lim s') = maxTokens (lim s)
  /\ refillDuration (lim s') = refillDuration (lim s)
  /\ numConcurrent (lim s') = GoInt.sub (numConcurrent (lim s)) 1
  /\ (forall c m j, j <> 3%nat ->
        is_Some (step (Sync c m j) s) <-> is_Some (step (Sync c m j) s'))
  /\ (forall c m, step (Sync c m 3) s' = None).
Proof.
  apply (cancelled_Limit_frame 1 50 (mkLimiter 1 50 0 false)
           [Call None; Run 0; Run 0; Run 0; Run 0; Run 0;
            Run 1; Run 1; Run 1; Run 1; Run 1;
            Sync ch_out 1 0; Run 1; Run 1; Run 1;
            Run 0; Run 0; Run 0; Run 0;
            Call None; Run 3; Run 3; Run 3; Run 3;
            Cancel 3 Canceled; Run 3; Run 3]
           {| lim := mkLimiter 1 50 2 true;
              pool := [GLimit (Lret None) None; GManage M61 0;
                       GRefill R88 false; GLimit L49 (Some Canceled)];
              panicked := false |}
           {| lim := mkLimiter 1 50 1 true;
              pool := [GLimit (Lret None) None; GManage M61 0;
                       GRefill R88 false; GLimit L50 (Some Canceled)];
              panicked := false |}
           3%nat L49 (Some Canceled)).
  - reflexivity.
  - vm_compute. reflexivity.
  - unfold small. vm_compute. discriminate.
  - reflexivity.
  - tauto.
  - vm_compute. reflexivity.
Defined.

(** ** A call whose context has fired before it starts *)

(** C10.  Take a call of Limit at its first line whose context has already
    fired with error [e], in a state where the mutex is free.  Lines 33 to
    40 do the same as for a live context.  Run alone, the call locks,
    then, if the count was 0, writes 2, starts a Manager and unlocks, and
    otherwise increments the count and unlocks; only then, at the select,
    does it take the case of the fired context; it locks again,
    decrements the count, unlocks and returns [e].  It leaves the count as
    it found it, plus the unit of the Manager it has started.  The exit is
    the same in any state and for either result: from the select a call
    with a fired context decrements the count once and returns the error,
    and a call that has taken a token decrements the count once and
    returns nil; and with a fired context and a Manager waiting to send,
    both cases of the select can be taken. *)
Theorem Limit_cancelled_at_entry s i e :
  panicked s = false ->
  mutex (lim s) = false ->
  GoInt.is_int (numConcurrent (lim s)) ->
  pool s !! i = Some (GLimit L33 (Some e)) ->
  (forall n pc,
     pc = L33 \/ pc = L34 \/ pc = L35 \/ pc = L36 \/ pc = L38 \/ pc = L40 ->
     effects (Limit n pc (Some e)) = effects (Limit n pc None))
  /\ (numConcurrent (lim s) = 0 ->
      run (replicate 5 (Run i)) s
      = Some {| lim := set_count (lim s) 2;
                pool := <[i := GLimit L41 (Some e)]> (pool s) ++ [GManage M57 0];
                panicked := false |}
      /\ run (replicate 10 (Run i)) s
         = Some {| lim := set_count (lim s) 1;
                   pool := <[i := GLimit (Lret (Some e)) (Some e)]> (pool s)
                           ++ [GManage M57 0];
                   panicked := false |})
  /\ (numConcurrent (lim s) <> 0 ->
      run (replicate 4 (Run i)) s
      = Some {| lim := set_count (lim s) (GoInt.add (numConcurrent (lim s)) 1);
                pool := <[i := GLimit L41 (Some e)]> (pool s);
                panicked := false |}
      /\ run (replicate 9 (Run i)) s
         = Some {| lim := lim s;
                   pool := <[i := GLimit (Lret (Some e)) (Some e)]> (pool s);
                   panicked := false |})
  /\ (forall s2,
        panicked s2 = false -> mutex (lim s2) = false ->
        GoInt.is_int (numConcurrent (lim s2) - 1) ->
        pool s2 !! i = Some (GLimit L41 (Some e)) ->
        run (replicate 5 (Run i)) s2
        = Some {| lim := set_count (lim s2) (numConcurrent (lim s2) - 1);
                  pool := <[i := GLimit (Lret (Some e)) (Some e)]> (pool s2);
                  panicked := false |})
  /\ (forall s2 ctx,
        panicked s2 = false -> mutex (lim s2) = false ->
        GoInt.is_int (numConcurrent (lim s2) - 1) ->
        pool s2 !! i = Some (GLimit L43 ctx) ->
        run (replicate 4 (Run i)) s2
        = Some {| lim := set_count (lim s2) (numConcurrent (lim s2) - 1);
                  pool := <[i := GLimit (Lret None) ctx]> (pool s2);
                  panicked := false |})
  /\ (forall s2 m tc,
        panicked s2 = false -> m <> i ->
        pool s2 !! i = Some (GLimit L41 (Some e)) ->
        pool s2 !! m = Some (GManage M72 tc) ->
        is_Some (step (Run i) s2) /\ is_Some (step (Sync ch_out m i) s2)).
Proof.
  destruct s as [[mt rd n mu] gs pk]. cbn. intros -> -> Hn Hi.
  split_and!.
  4: { intros [[mt2 rd2 n2 mu2] gs2 pk2]. cbn. intros -> -> Hn2 Hi2.
       cbn [replicate]. do 5 run_step. by rewrite sub_id. }
  4: { intros [[mt2 rd2 n2 mu2] gs2 pk2] ctx. cbn. intros -> -> Hn2 Hi2.
       cbn [replicate]. do 4 run_step. by rewrite sub_id. }
  4: { intros s2 m tc Hl2 Hm Hi2 Hm2. split.
       - erewrite step_Run_eq; [|done|exact Hi2|reflexivity]. by eexists.
       - eexists. apply step_Sync. split_and!; [done..|].
         exists (GManage M72 tc), (GManage M73 tc),
           (GLimit L41 (Some e)), (GLimit L43 (Some e)).
         split_and!; try done; constructor. }
  - intros k pc Hpc. destruct pc; try reflexivity; try (exfalso; intuition congruence).
    cbn. by destruct (k =? 0).
  - intros ->. split.
    + cbn [replicate]. do 5 run_step. reflexivity.
    + cbn [replicate]. do 10 run_step. reflexivity.
  - intros Hnz. apply Z.eqb_neq in Hnz. split.
    + cbn [replicate]. run_step.
      cbn [run]. erewrite step_Run_eq;
        [|reflexivity|solve_lookup|cbn; rewrite Hnz; reflexivity].
      cbn [exec t_label t_next t_count fst snd mbind option_bind
           lim pool panicked set_pool set_count set_mutex mutex numConcurrent].
      rewrite ?list_insert_insert_eq. do 2 run_step. reflexivity.
    + cbn [replicate]. run_step.
      cbn [run]. erewrite step_Run_eq;
        [|reflexivity|solve_lookup|cbn; rewrite Hnz; reflexivity].
      cbn [exec t_label t_next t_count fst snd mbind option_bind
           lim pool panicked set_pool set_count set_mutex mutex numConcurrent].
      rewrite ?list_insert_insert_eq. do 7 run_step.
      by rewrite sub_add_cancel.
Qed.

Lemma Limit_cancelled_at_entry_witness :
  let s := {| lim := mkLimiter 1 50 1 false;
              pool := [GLimit (Lret None) None; GManage M61 0;
                       GRefill R88 false; GLimit L33 (Some Canceled)];
              panicked := false |} in
  (forall n pc,
     pc = L33 \/ pc = L34 \/ pc = L35 \/ pc = L36 \/ pc = L38 \/ pc = L40 ->
     effects (Limit n pc (Some Canceled)) = effects (Limit n pc None))
  /\ (numConcurrent (lim s) = 0 ->
      run (replicate 5 (Run 3)) s
      = Some {| lim := set_count (lim s) 2;
                pool := <[3%nat := GLimit L41 (Some Canceled)]> (pool s)
                        ++ [GManage M57 0];
                panicked := false |}
      /\ run (replicate 10 (Run 3)) s
         = Some {| lim := set_count (lim s) 1;
                   pool := <[3%nat := GLimit (Lret (Some Canceled)) (Some Canceled)]>
                             (pool s)
                           ++ [GManage M57 0];
                   panicked := false |})
  /\ (numConcurrent (lim s) <> 0 ->
      run (replicate 4 (Run 3)) s
      = Some {| lim := set_count (lim s) (GoInt.add (numConcurrent (lim s)) 1);
                pool := <[3%nat := GLimit L41 (Some Canceled)]> (pool s);
                panicked := false |}
      /\ run (replicate 9 (Run 3)) s
         = Some {| lim := lim s;
                   pool := <[3%nat := GLimit (Lret (Some Canceled)) (Some Canceled)]>
                             (pool s);
                   panicked := false |})
  /\ (forall s2,
        panicked s2 = false -> mutex (lim s2) = false ->
        GoInt.is_int (numConcurrent (lim s2) - 1) ->
        pool s2 !! 3%nat = Some (GLimit L41 (Some Canceled)) ->
        run (replicate 5 (Run 3)) s2
        = Some {| lim := set_count (lim s2) (numConcurrent (lim s2) - 1);
                  pool := <[3%nat := GLimit (Lret (Some Canceled)) (Some Canceled)]>
                            (pool s2);
                  panicked := false |})
  /\ (forall s2 ctx,
        panicked s2 = false -> mutex (lim s2) = false ->
        GoInt.is_int (numConcurrent (lim s2) - 1) ->
        pool s2 !! 3%nat = Some (GLimit L43 ctx) ->
        run (replicate 4 (Run 3)) s2
        = Some {| lim := set_count (lim s2) (numConcurrent (lim s2) - 1);
                  pool := <[3%nat := GLimit (Lret None) ctx]> (pool s2);
                  panicked := false |})
  /\ (forall s2 m tc,
        panicked s2 = false -> m <> 3%nat ->
        pool s2 !! 3%nat = Some (GLimit L41 (Some Canceled)) ->
        pool s2 !! m = Some (GManage M72 tc) ->
        is_Some (step (Run 3) s2) /\ is_Some (step (Sync ch_out m 3) s2)).
Proof.
  apply (Limit_cancelled_at_entry
           {| lim := mkLimiter 1 50 1 false;
              pool := [GLimit (Lret None) None; GManage M61 0;
                       GRefill R88 false; GLimit L33 (Some Canceled)];
              panicked := false |} 3%nat Canceled).
  - reflexivity.
  - reflexivity.
  - unfold GoInt.is_int, GoInt.int_min, GoInt.int_max. cbn. lia.
  - reflexivity.
Defined.

(** ** Tokens handed out and tokens missing from the reservoir *)

Lemma total_le_Forall (P : goroutine -> Prop) f h gs :
  Forall P gs -> (forall g, P g -> f g <= h g) -> total f gs <= total h gs.
Proof.
  intros HF Hfh. induction HF as [|g gs Hg _ IH]; simpl; [lia|].
  specialize (Hfh g Hg). lia.
Qed.

Lemma total_scale c f gs : total (fun g => c * f g) gs = c * total f gs.
Proof. induction gs as [|g gs IH]; simpl; lia. Qed.

Lemma dispensed_le_running maxT g :
  1 <= maxT -> level_ok maxT g -> dispensed maxT g <= maxT * running g.
Proof.
  intros Hmax. destruct g as [pc ctx|pc tc|pc tk]; cbn; [lia| |lia].
  destruct pc; cbn; lia.
Qed.

Lemma admitted_nonneg g : 0 <= admitted g.
Proof. destruct g as [[| | | | | | | | | | | | | | |[?|]]?|[]?|[]?]; simpl; lia. Qed.

Ltac conserve :=
  cbn [pool lim set_pool set_count set_mutex numConcurrent mutex maxTokens] in *;
  rewrite ?total_app;
  repeat (erewrite total_insert by eassumption);
  cbn [total foldr admitted dispensed] in *.

Lemma conserved_step a s s' :
  no_tick a = true ->
  1 <= maxTokens (lim s) <= GoInt.int_max ->
  Forall (level_ok (maxTokens (lim s))) (pool s) ->
  step a s = Some s' ->
  conserved s -> conserved s'.
Proof.
  intros Hq Hmax HL H [HT HU]. step_inv H; try discriminate Hq.
  all: split; [|cbn [pool set_pool]; from_pool HU; forall_pool; cbn; try done].
  all: try (from_pool HU; cbn in *; tauto).
  all: try (destruct x; done).
  all: from_pool HL; from_pool HU.
  all: try (rewrite add_id by int_arith); try (rewrite sub_id by int_arith).
  all: conserve; try lia.
  all: try (destruct x as [| | | | | | | | | | | | | | |[?|]]; cbn; lia).
  all: try (destruct ctx; [lia | done]).
Qed.

Lemma conserved_run l tr s :
  forallb no_tick tr = true ->
  1 <= maxTokens l <= GoInt.int_max ->
  run tr (init l) = Some s ->
  conserved s.
Proof.
  intros Hq Hmax. revert s Hq.
  induction tr as [|a tr IH] using rev_ind; intros s Hq.
  - intros [= <-]. split; [done | constructor].
  - rewrite run_snoc. intros (s1 & H1 & H2).
    rewrite forallb_app in Hq. apply andb_prop in Hq as [Hq Ha].
    cbn in Ha. rewrite andb_true_r in Ha.
    destruct (run_params _ _ _ H1) as [E1 _]. cbn in E1.
    eapply conserved_step; [done | by rewrite E1 | | done | by apply IH].
    rewrite E1. by eapply level_ok_run.
Qed.

Lemma admitted_le_capacity l tr s :
  numConcurrent l = 0 -> mutex l = false ->
  1 <= maxTokens l <= GoInt.int_max ->
  forallb no_tick tr = true ->
  run tr (init l) = Some s ->
  small s ->
  total admitted (pool s) <= maxTokens l.
Proof.
  intros Hn Hm Hmax Hq Hrun Hsmall.
  destruct (conserved_run _ _ _ Hq Hmax Hrun) as [HT _].
  destruct (count_inv_run _ _ _ Hn Hm Hrun Hsmall) as [_ _ I3 _ _ _ _].
  destruct (run_params _ _ _ Hrun) as [E1 _]. cbn in E1. rewrite E1 in HT.
  pose proof (level_ok_run _ _ _ Hmax Hrun) as HL.
  pose proof (total_le_Forall _ (dispensed (maxTokens l))
                (fun g => maxTokens l * running g) _ HL
                (fun g => dispensed_le_running (maxTokens l) g (proj1 Hmax))) as Hle.
  rewrite total_scale in Hle.
  pose proof (total_nonneg running (pool s) running_nonneg).
  pose proof (total_nonneg starting (pool s) starting_nonneg).
  nia.
Qed.

Lemma dispense_admits c m j s s' :
  step (Sync c m j) s = Some s' ->
  c = ch_out ->
  total admitted (pool s') = total admitted (pool s) + 1
  /\ length (pool s') = length (pool s).
Proof.
  intros H ->. sync_inv H.
  all: cbn [pool set_pool]; rewrite !length_insert; split; [|done].
  all: repeat (erewrite total_insert by eassumption); cbn; lia.
Qed.

(** After [c] tokens have gone out without a tick in between, no token
    can be handed out. *)
Lemma exhausted_blocks l tr s m j :
  numConcurrent l = 0 -> mutex l = false ->
  1 <= maxTokens l <= GoInt.int_max ->
  forallb no_tick tr = true ->
  run tr (init l) = Some s ->
  small s ->
  total admitted (pool s) = maxTokens l ->
  step (Sync ch_out m j) s = None.
Proof.
  intros Hn Hm Hmax Hq Hrun Hsmall Hfull.
  destruct (step (Sync ch_out m j) s) as [s'|] eqn:H; [|done]. exfalso.
  destruct (dispense_admits _ _ _ _ _ H eq_refl) as [Hadm Hlen].
  assert (run (tr ++ [Sync ch_out m j]) (init l) = Some s') as Hrun'
    by (apply run_snoc; eauto).
  assert (forallb no_tick (tr ++ [Sync ch_out m j]) = true) as Hq'
    by (rewrite forallb_app, Hq; done).
  assert (small s') as Hsmall' by (unfold small in *; by rewrite Hlen).
  pose proof (admitted_le_capacity _ _ _ Hn Hm Hmax Hq' Hrun' Hsmall'). lia.
Qed.

Lemma quiet_no_tick tr : forallb quiet tr = true -> forallb no_tick tr = true.
Proof.
  induction tr as [|a tr IH]; cbn; [done|].
  intros [Ha Htr]%andb_prop. rewrite IH by done.
  by destruct a as [[?|]| | | |].
Qed.

(** ** Coming to rest *)

Lemma live_ctx_step a s s' :
  quiet a = true -> step a s = Some s' ->
  Forall live_ctx (pool s) -> Forall live_ctx (pool s').
Proof.
  intros Hq H HF. step_inv H; try discriminate Hq.
  all: cbn [pool set_pool]; from_pool HF; forall_pool; cbn; try done.
  all: try (destruct ctx; done).
Qed.

Lemma live_ctx_run l tr s :
  forallb quiet tr = true -> run tr (init l) = Some s -> Forall live_ctx (pool s).
Proof.
  revert s. induction tr as [|a tr IH] using rev_ind; intros s Hq.
  - intros [= <-]. constructor.
  - rewrite run_snoc. intros (s1 & H1 & H2).
    rewrite forallb_app in Hq. apply andb_prop in Hq as [Hq Ha].
    cbn in Ha. rewrite andb_true_r in Ha.
    eapply live_ctx_step; eauto.
Qed.

Lemma no_panic_step a s s' :
  count_inv s -> 0 < refillDuration (lim s) ->
  step a s = Some s' -> panicked s' = false.
Proof.
  intros Hinv Hd H. step_inv H; try done.
  all: try (rewrite (holder_has_mutex _ _ _ Hinv Hi) in Emu; [congruence|done]).
  all: lia.
Qed.

Lemma no_panic_run l tr s :
  numConcurrent l = 0 -> mutex l = false -> 0 < refillDuration l ->
  run tr (init l) = Some s -> small s -> panicked s = false.
Proof.
  intros Hn Hm Hd. revert s. induction tr as [|a tr IH] using rev_ind; intros s.
  - by intros [= <-].
  - rewrite run_snoc. intros (s1 & H1 & H2) Hs.
    pose proof (small_step _ _ _ H2 Hs) as Hs1.
    destruct (run_params _ _ _ H1) as [_ E]. cbn in E.
    eapply no_panic_step; [by eapply count_inv_run|by rewrite E|done].
Qed.

Lemma total_pos_lookup f gs :
  (forall g, 0 <= f g) -> 0 < total f gs ->
  exists i g, gs !! i = Some g /\ 0 < f g.
Proof.
  intros Hf. induction gs as [|x gs IH]; [cbn; lia|]. intros Hpos.
  change (0 < f x + total f gs) in Hpos.
  destruct (Z.lt_ge_cases 0 (f x)) as [Hx|Hx].
  - by exists 0%nat, x.
  - destruct IH as (i & g & Hi & Hg); [lia|]. by exists (S i), g.
Qed.

Lemma total_ext_lookup f h gs :
  (forall i g, gs !! i = Some g -> f g = h g) -> total f gs = total h gs.
Proof.
  induction gs as [|x gs IH]; intros Hfh; [done|].
  change (f x + total f gs = h x + total h gs).
  rewrite (Hfh 0%nat x eq_refl), IH; [done|].
  intros i g Hi. by apply (Hfh (S i)).
Qed.

Lemma holder_can_run s i g :
  panicked s = false -> mutex (lim s) = true ->
  pool s !! i = Some g -> 0 < holds g ->
  is_Some (step (Run i) s).
Proof.
  intros Hl Hm Hi Hg.
  destruct g as [[]?|[]?|[]?]; cbn in Hg; try lia.
  all: unfold step; rewrite Hl, Hi; cbn.
  all: repeat case_match; cbn; rewrite ?Hm; by eexists.
Qed.

Lemma blocked_shape s i g :
  panicked s = false -> mutex (lim s) = false -> 0 < refillDuration (lim s) ->
  pool s !! i = Some g -> live_ctx g -> unticked g ->
  step (Run i) s = None ->
  blocked g.
Proof.
  intros Hl Hm Hd Hi Hlive Hun H. apply Z.ltb_lt in Hd.
  destruct g as [[]?|[]?|[]?]; cbn in Hlive, Hun |- *; try done.
  all: exfalso; unfold step in H; rewrite Hl, Hi in H; cbn in H.
  all: rewrite ?Hd in H; cbn in H.
  all: repeat case_match; cbn in H; rewrite ?Hm in H; try discriminate H; done.
Qed.

(** Whenever the system has come to rest under a quiet schedule with a
    call still waiting at its select, the reservoir is empty: exactly
    maxTokens tokens have been handed out. *)
Lemma rest_with_waiter_is_empty l tr s j :
  numConcurrent l = 0 -> mutex l = false ->
  1 <= maxTokens l <= GoInt.int_max ->
  0 < refillDuration l ->
  forallb quiet tr = true ->
  run tr (init l) = Some s ->
  small s ->
  at_rest s ->
  pool s !! j = Some (GLimit L41 None) ->
  total admitted (pool s) = maxTokens l.
Proof.
  intros Hn Hm Hmax Hd Hq Hrun Hsmall [Hrest Hsync] Hj.
  pose proof (count_inv_run _ _ _ Hn Hm Hrun Hsmall) as Hinv.
  pose proof (no_panic_run _ _ _ Hn Hm Hd Hrun Hsmall) as Hlive.
  pose proof (level_ok_run _ _ _ Hmax Hrun) as HL.
  pose proof (live_ctx_run _ _ _ Hq Hrun) as HC.
  destruct (conserved_run _ _ _ (quiet_no_tick _ Hq) Hmax Hrun) as [HT HU].
  destruct (run_params _ _ _ Hrun) as [Emax Ed]. cbn in Emax, Ed.
  rewrite Emax in HT.
  assert (mutex (lim s) = false) as Hfree.
  { destruct (mutex (lim s)) eqn:Hmu; [exfalso|done].
    destruct Hinv as [_ I2 _ _ _ _ _]. rewrite Hmu in I2.
    destruct (total_pos_lookup holds (pool s) holds_nonneg) as (i & g & Hi & Hg);
      [lia|].
    destruct (holder_can_run _ _ _ Hlive Hmu Hi Hg) as [s' Hs'].
    by rewrite Hrest in Hs'. }
  assert (forall i g, pool s !! i = Some g ->
            dispensed (maxTokens l) g = maxTokens l * running g) as Hshape.
  { intros i g Hi.
    pose proof (Forall_lookup_1 _ _ _ _ HL Hi) as Hlev.
    assert (blocked g) as Hb.
    { eapply blocked_shape; try done.
      - by rewrite Ed.
      - apply (Forall_lookup_1 _ _ _ _ HC Hi).
      - apply (Forall_lookup_1 _ _ _ _ HU Hi). }
    destruct g as [pc ctx|pc tc|pc tk]; cbn; [lia| |lia].
    destruct pc; cbn in Hb, Hlev |- *; try done; try lia.
    - exfalso. assert (i <> j) as Hij by (intros ->; congruence).
      assert (is_Some (step (Sync ch_out i j) s)) as [s' Hs'].
      { eexists. apply step_Sync. split_and!; [done..|].
        exists (GManage M72 tc), (GManage M73 tc),
          (GLimit L41 None), (GLimit L43 None).
        split_and!; try done; constructor. }
      by rewrite Hsync in Hs'.
    - exfalso. assert (i <> j) as Hij by (intros ->; congruence).
      assert (is_Some (step (Sync ch_out i j) s)) as [s' Hs'].
      { eexists. apply step_Sync. split_and!; [done..|].
        exists (GManage M76 tc), (GManage M80 tc),
          (GLimit L41 None), (GLimit L43 None).
        split_and!; try done; constructor. }
      by rewrite Hsync in Hs'. }
  rewrite HT, (total_ext_lookup _ _ _ Hshape), total_scale.
  destruct Hinv as [_ I2 I3 I4 _ _ _]. rewrite Hfree in I2.
  pose proof (starting_le_holds (pool s)).
  pose proof (total_nonneg starting (pool s) starting_nonneg).
  pose proof (total_nonneg running (pool s) running_nonneg).
  pose proof (total_others waiting (pool s) j _ waiting_nonneg Hj) as Hw.
  cbn in Hw. nia.
Qed.

(** ** Termination without ticks *)

Lemma potential_nonneg maxT g :
  0 <= maxT -> level_ok maxT g -> 0 <= potential maxT g.
Proof.
  intros Hmax. destruct g as [[]?|[]?|[]?]; cbn; intros; try lia.
  repeat case_match; lia.
Qed.

Lemma energy_nonneg s :
  0 <= maxTokens (lim s) -> Forall (level_ok (maxTokens (lim s))) (pool s) ->
  0 <= energy s.
Proof.
  intros Hmax HL. unfold energy.
  assert (0 <= total (potential (maxTokens (lim s))) (pool s)).
  { induction HL as [|g gs Hg _ IH]; [cbn; lia|].
    change (0 <= potential (maxTokens (lim s)) g
                 + total (potential (maxTokens (lim s))) gs).
    pose proof (potential_nonneg _ _ Hmax Hg). lia. }
  destruct (panicked s); lia.
Qed.

Ltac spend :=
  cbn [pool lim set_pool set_count set_mutex numConcurrent mutex maxTokens
       panicked] in *;
  rewrite ?total_app;
  repeat (erewrite total_insert by eassumption);
  cbn [total foldr potential] in *.

Lemma energy_step a s s' :
  inner a = true ->
  1 <= maxTokens (lim s) <= GoInt.int_max ->
  Forall (level_ok (maxTokens (lim s))) (pool s) ->
  Forall unticked (pool s) ->
  step a s = Some s' ->
  energy s' < energy s.
Proof.
  intros Hin Hmax HL HU H. pose proof (step_live _ _ _ H) as Hlive0.
  unfold energy. rewrite Hlive0.
  step_inv H; try discriminate Hin.
  all: from_pool HL; from_pool HU; try done.
  all: spend; rewrite ?Hlive0.
  all: try (rewrite add_id by int_arith); try (rewrite sub_id by int_arith).
  all: repeat match goal with
              | |- context [if ?x =? ?y then _ else _] =>
                  destruct (Z.eqb_spec x y)
              end.
  all: try lia.
Qed.

Lemma inner_no_tick a : inner a = true -> no_tick a = true.
Proof. by destruct a. Qed.

(** Without a tick the goroutines come to rest: a schedule of their own
    steps is no longer than the energy of the state it starts in. *)
Lemma inner_schedule_bounded tr : forall s s',
  1 <= maxTokens (lim s) <= GoInt.int_max ->
  Forall (level_ok (maxTokens (lim s))) (pool s) ->
  conserved s ->
  forallb inner tr = true ->
  run tr s = Some s' ->
  Z.of_nat (length tr) <= energy s.
Proof.
  induction tr as [|a tr IH]; intros s s' Hmax HL HC Hin Hrun.
  - cbn. apply energy_nonneg; [lia|done].
  - cbn in Hin. apply andb_prop in Hin as [Ha Htr].
    cbn in Hrun. destruct (step a s) as [s1|] eqn:H1; [|done]. cbn in Hrun.
    destruct (step_params _ _ _ H1) as [E _].
    pose proof (energy_step _ _ _ Ha Hmax HL (cv_unticked _ HC) H1) as Hlt.
    assert (Z.of_nat (length tr) <= energy s1) as Hle.
    { apply (IH s1 s'); try done.
      - by rewrite E.
      - apply (level_ok_step _ _ _ Hmax H1 HL).
      - by apply (conserved_step a s s1 (inner_no_tick _ Ha) Hmax HL H1). }
    cbn [length]. lia.
Qed.

(** ** Running the capacity schedule *)

Lemma lookup_mid (pre : list goroutine) g post i :
  i = length pre -> (pre ++ g :: post) !! i = Some g.
Proof. intros ->. by apply list_lookup_middle. Qed.

Lemma insert_mid (pre : list goroutine) g g' post i :
  i = length pre -> <[i := g']> (pre ++ g :: post) = pre ++ g' :: post.
Proof.
  intros ->. rewrite insert_app_r_alt by lia. by rewrite Nat.sub_diag.
Qed.

Section Steps.
Variables (C d : Z).

Lemma run_mid_tau n mu pre g post i n' g' :
  i = length pre ->
  pick internal (transitions (mkLimiter C d n mu) g) = Some (Tau, n', g') ->
  step (Run i) (st C d n mu (pre ++ g :: post))
  = Some (st C d n' mu (pre ++ g' :: post)).
Proof.
  intros Hi Ht. erewrite step_Run_eq; [|done|by apply lookup_mid|exact Ht].
  cbn. by rewrite insert_mid.
Qed.

Lemma run_mid_lock n pre g post i n' g' :
  i = length pre ->
  pick internal (transitions (mkLimiter C d n false) g) = Some (Lock, n', g') ->
  step (Run i) (st C d n false (pre ++ g :: post))
  = Some (st C d n true (pre ++ g' :: post)).
Proof.
  intros Hi Ht. erewrite step_Run_eq; [|done|by apply lookup_mid|exact Ht].
  cbn. by rewrite insert_mid.
Qed.

Lemma run_mid_unlock n pre g post i n' g' :
  i = length pre ->
  pick internal (transitions (mkLimiter C d n true) g) = Some (Unlock, n', g') ->
  step (Run i) (st C d n true (pre ++ g :: post))
  = Some (st C d n false (pre ++ g' :: post)).
Proof.
  intros Hi Ht. erewrite step_Run_eq; [|done|by apply lookup_mid|exact Ht].
  cbn. by rewrite insert_mid.
Qed.

Lemma run_mid_go n mu pre g post i n' g' h :
  i = length pre ->
  pick internal (transitions (mkLimiter C d n mu) g) = Some (Go h, n', g') ->
  step (Run i) (st C d n mu (pre ++ g :: post))
  = Some (st C d n mu (pre ++ g' :: (post ++ [h]))).
Proof.
  intros Hi Ht. erewrite step_Run_eq; [|done|by apply lookup_mid|exact Ht].
  cbn. rewrite insert_mid by done. by rewrite <- app_assoc.
Qed.

(** A rendezvous between a receiver inside the first part of the pool
    and a sender right after it. *)
Lemma sync_mid c n mu pre gk gk' post gm gm' tl k m :
  k = length pre ->
  m = length (pre ++ gk :: post) ->
  sends c gm gm' -> receives c gk gk' ->
  step (Sync c m k) (st C d n mu ((pre ++ gk :: post) ++ gm :: tl))
  = Some (st C d n mu ((pre ++ gk' :: post) ++ gm' :: tl)).
Proof.
  intros Hk Hm Hs Hr. apply step_Sync. split_and!; [done| |].
  - subst. rewrite length_app. cbn. lia.
  - exists gm, gm', gk, gk'. cbn [pool st]. split_and!; try done.
    + by apply lookup_mid.
    + rewrite <- app_assoc. by apply lookup_mid.
    + unfold set_pool, st. cbn. f_equal.
      rewrite (insert_mid _ gm gm') by done.
      rewrite <- !app_assoc. cbn. by rewrite (insert_mid pre gk gk').
Qed.

End Steps.

Ltac pick_side :=
  cbn [transitions Limit manageTokens refillTokens
       maxTokens numConcurrent refillDuration mutex];
  rewrite ?Z.eqb_refl;
  repeat match goal with
         | E : (_ =? _) = _ |- _ => rewrite E
         | E : (_ <? _) = _ |- _ => rewrite E
         end;
  reflexivity.

(** [mid_step C d pre]: execute the next [Run] of the schedule in the
    goal, for the goroutine that follows [pre] in the pool. *)
Ltac mid_step C d pre :=
  cbn [run replicate];
  first
    [ erewrite (run_mid_tau C d _ _ pre) by (first [assumption | pick_side])
    | erewrite (run_mid_lock C d _ pre) by (first [assumption | pick_side])
    | erewrite (run_mid_unlock C d _ pre) by (first [assumption | pick_side])
    | erewrite (run_mid_go C d _ _ pre) by (first [assumption | pick_side]) ];
  cbn [mbind option_bind].

Section Phases.
Variables (C d : Z).

Local Abbreviation N := (GLimit L33 None).
Local Abbreviation W := (GLimit L41 None).
Local Abbreviation T := (GLimit L43 None).
Local Abbreviation D := (GLimit (Lret None) None).

Lemma calls_arrive n mu j gs :
  run (replicate j (Call None)) (st C d n mu gs)
  = Some (st C d n mu (gs ++ replicate j N)).
Proof.
  revert gs. induction j as [|j IH]; intros gs; cbn [replicate run].
  - by rewrite app_nil_r.
  - change (step (Call None) (st C d n mu gs))
      with (Some (st C d n mu (gs ++ [N]))).
    cbn [mbind option_bind]. rewrite IH. by rewrite <- app_assoc.
Qed.

Lemma first_enters pre post k :
  k = length pre ->
  run (replicate 5 (Run k)) (st C d 0 false (pre ++ N :: post))
  = Some (st C d 2 false (pre ++ W :: (post ++ [GManage M57 0]))).
Proof.
  intros Hk. do 5 mid_step C d pre. reflexivity.
Qed.

Lemma enter_one n pre post k :
  k = length pre -> n <> 0 -> GoInt.is_int (n + 1) ->
  run (replicate 4 (Run k)) (st C d n false (pre ++ N :: post))
  = Some (st C d (n + 1) false (pre ++ W :: post)).
Proof.
  intros Hk Hn Hint. apply Z.eqb_neq in Hn.
  do 4 mid_step C d pre. by rewrite add_id.
Qed.

Lemma leave_one n pre post k :
  k = length pre -> GoInt.is_int (n - 1) ->
  run (replicate 4 (Run k)) (st C d n false (pre ++ T :: post))
  = Some (st C d (n - 1) false (pre ++ D :: post)).
Proof.
  intros Hk Hint. do 4 mid_step C d pre. by rewrite sub_id.
Qed.

Lemma run_flat_map_S (f : nat -> list action) a j s :
  run (flat_map f (seq a (S j))) s = run (f a) s ≫= run (flat_map f (seq (S a) j)).
Proof. cbn [seq flat_map]. apply run_app. Qed.

Lemma regroup_cons (pre : list goroutine) g rest :
  pre ++ g :: rest = (pre ++ [g]) ++ rest.
Proof. by rewrite <- app_assoc. Qed.

Lemma enter_all j : forall n pre post,
  0 < n -> n + Z.of_nat j <= GoInt.int_max ->
  run (flat_map (fun k => replicate 4 (Run k)) (seq (length pre) j))
      (st C d n false (pre ++ replicate j N ++ post))
  = Some (st C d (n + Z.of_nat j) false (pre ++ replicate j W ++ post)).
Proof.
  induction j as [|j IH]; intros n pre post Hn Hmax.
  - cbn. by rewrite Z.add_0_r.
  - rewrite run_flat_map_S. cbn [replicate app].
    rewrite (enter_one n pre _ (length pre)) by (try done; int_arith).
    cbn [mbind option_bind].
    rewrite (regroup_cons pre W).
    replace (S (length pre)) with (length (pre ++ [W]))
      by (rewrite length_app; cbn; lia).
    rewrite IH by lia.
    rewrite <- app_assoc. cbn [app]. do 2 f_equal. lia.
Qed.

Lemma leave_all j : forall n pre post,
  Z.of_nat j <= n <= GoInt.int_max ->
  run (flat_map (fun k => replicate 4 (Run k)) (seq (length pre) j))
      (st C d n false (pre ++ replicate j T ++ post))
  = Some (st C d (n - Z.of_nat j) false (pre ++ replicate j D ++ post)).
Proof.
  induction j as [|j IH]; intros n pre post Hn.
  - cbn. by rewrite Z.sub_0_r.
  - rewrite run_flat_map_S. cbn [replicate app].
    rewrite (leave_one n pre _ (length pre)) by (try done; int_arith).
    cbn [mbind option_bind].
    rewrite (regroup_cons pre D).
    replace (S (length pre)) with (length (pre ++ [D]))
      by (rewrite length_app; cbn; lia).
    rewrite IH by lia.
    rewrite <- app_assoc. cbn [app]. do 2 f_equal. lia.
Qed.

Lemma first_dispense n pre rest tl k m :
  k = length pre -> m = length (pre ++ W :: rest) ->
  n <> 1 -> C <> 0 -> GoInt.is_int (C - 1) ->
  run (replicate 5 (Run m) ++ [Sync ch_out m k; Run m; Run m])
      (st C d n false ((pre ++ W :: rest) ++ GManage M57 0 :: tl))
  = Some (st C d n false
            ((pre ++ T :: rest)
             ++ GManage M59 (C - 1) :: (tl ++ [GRefill R88 false]))).
Proof.
  intros Hk Hm Hn HC Hint. apply Z.eqb_neq in Hn, HC.
  assert (m = length (pre ++ T :: rest)) as Hm'
    by (rewrite Hm, !length_app; done).
  rewrite run_app. do 5 mid_step C d (pre ++ W :: rest).
  cbn [run].
  rewrite (sync_mid C d ch_out n false pre W T rest (GManage M72 C)
             (GManage M73 C) tl k m Hk Hm (sends_M72 C) (receives_L41 None)).
  cbn [mbind option_bind].
  do 2 mid_step C d (pre ++ T :: rest). by rewrite sub_id.
Qed.

Lemma dispense_loop j : forall pre tc n tl m,
  m = length (pre ++ replicate j W ++ [W]) ->
  Z.of_nat j <= tc -> tc < C -> C <= GoInt.int_max ->
  run (flat_map (fun k => [Run m; Sync ch_out m k; Run m]) (seq (length pre) j))
      (st C d n false ((pre ++ replicate j W ++ [W]) ++ GManage M59 tc :: tl))
  = Some (st C d n false
            ((pre ++ replicate j T ++ [W])
             ++ GManage M59 (tc - Z.of_nat j) :: tl)).
Proof.
  induction j as [|j IH]; intros pre tc n tl m Hm Hj Htc HC.
  - cbn. by rewrite Z.sub_0_r.
  - rewrite run_flat_map_S. cbn [replicate app] in *.
    assert ((tc =? 0) = false) as E0 by (apply Z.eqb_neq; lia).
    assert ((tc =? C) = false) as EC by (apply Z.eqb_neq; lia).
    assert (m = length (pre ++ T :: replicate j W ++ [W])) as Hm'.
    { rewrite Hm, !length_app. cbn. by rewrite !length_app. }
    mid_step C d (pre ++ W :: replicate j W ++ [W]).
    rewrite (sync_mid C d ch_out n false pre W T (replicate j W ++ [W])
               (GManage M76 tc) (GManage M80 tc) tl (length pre) m eq_refl Hm
               (sends_M76 tc) (receives_L41 None)).
    cbn [mbind option_bind].
    mid_step C d (pre ++ T :: replicate j W ++ [W]).
    rewrite sub_id by int_arith.
    rewrite (regroup_cons pre T) in *.
    replace (S (length pre)) with (length (pre ++ [T]))
      by (rewrite length_app; cbn; lia).
    rewrite (IH (pre ++ [T]) (tc - 1) n tl m); [|try done; try lia..].
    rewrite <- (app_assoc pre [T]). cbn [app]. do 5 f_equal. lia.
Qed.

Lemma settle n cs tc tl m :
  m = length cs -> tc = 0 ->
  run [Run m] (st C d n false (cs ++ GManage M59 tc :: tl))
  = Some (st C d n false (cs ++ GManage M61 0 :: tl)).
Proof. intros Hm ->. mid_step C d cs. reflexivity. Qed.

End Phases.

Lemma run_app_Some tr1 tr2 s s1 s2 :
  run tr1 s = Some s1 -> run tr2 s1 = Some s2 -> run (tr1 ++ tr2) s = Some s2.
Proof. intros H1 H2. rewrite run_app, H1. exact H2. Qed.

Lemma capacity_schedule_runs c d :
  (1 <= c)%nat -> Z.of_nat c + 2 <= GoInt.int_max -> 0 < d ->
  run (capacity_schedule c) (init (mkLimiter (Z.of_nat c) d 0 false))
  = Some (st (Z.of_nat c) d 2 false
            (replicate c (GLimit (Lret None) None)
             ++ [GLimit L41 None; GManage M61 0; GRefill R89 true])).
Proof.
  intros Hc Hmax Hd. apply Z.ltb_lt in Hd. destruct c as [|c]; [lia|].
  set (C := Z.of_nat (S c)) in *. unfold capacity_schedule.
  eapply run_app_Some; [apply (calls_arrive C d 0 false (S (S c)) [])|].
  eapply run_app_Some;
    [apply (first_enters C d [] (replicate (S c) (GLimit L33 None)) 0 eq_refl)|].
  eapply run_app_Some.
  { apply (enter_all C d (S c) 2 [GLimit L41 None] [GManage M57 0]);
      unfold C; lia. }
  replace ([GLimit L41 None] ++ replicate (S c) (GLimit L41 None)
           ++ [GManage M57 0])
    with (([] ++ GLimit L41 None :: (replicate c (GLimit L41 None)
                                     ++ [GLimit L41 None]))
          ++ GManage M57 0 :: [])
    by (cbn [app]; rewrite <- replicate_S_end; done).
  assert (S (S c) = length ([] ++ GLimit L41 None
                            :: (replicate c (GLimit L41 None) ++ [GLimit L41 None])))
    as Hm by (cbn; rewrite length_app, length_replicate; cbn; lia).
  eapply run_app_Some.
  { apply (first_dispense C d (2 + Z.of_nat (S c)) [] _ [] 0 (S (S c)) eq_refl Hm);
      unfold C; try lia. int_arith. }
  eapply run_app_Some.
  { apply (dispense_loop C d c [GLimit L43 None] (C - 1) _ [GRefill R88 false]
             (S (S c))); unfold C; try lia.
    cbn. rewrite length_app, length_replicate. cbn. lia. }
  eapply run_app_Some.
  { apply (settle C d _ _ _ _ (S (S c))); [|unfold C; lia].
    cbn. rewrite length_app, length_replicate. cbn. lia. }
  replace (([GLimit L43 None] ++ replicate c (GLimit L43 None) ++ [GLimit L41 None])
           ++ GManage M61 0 :: [GRefill R88 false])
    with ([] ++ replicate (S c) (GLimit L43 None)
          ++ [GLimit L41 None; GManage M61 0; GRefill R88 false])
    by (cbn [app replicate]; rewrite <- app_assoc; done).
  eapply run_app_Some.
  { apply (leave_all C d (S c) (2 + Z.of_nat (S c)) []); unfold C; lia. }
  replace (2 + Z.of_nat (S c) - Z.of_nat (S c)) with 2 by lia.
  replace ([] ++ replicate (S c) (GLimit (Lret None) None)
           ++ [GLimit L41 None; GManage M61 0; GRefill R88 false])
    with ((replicate (S c) (GLimit (Lret None) None)
           ++ [GLimit L41 None; GManage M61 0])
          ++ GRefill R88 false :: [])
    by (by rewrite <- app_assoc).
  assert (S (S (S c)) = length (replicate (S c) (GLimit (Lret None) None)
                                ++ [GLimit L41 None; GManage M61 0])) as Hr
    by (rewrite length_app, length_replicate; cbn; lia).
  mid_step C d (replicate (S c) (GLimit (Lret None) None)
                ++ [GLimit L41 None; GManage M61 0]).
  cbn [run]. by rewrite <- app_assoc.
Qed.

Section Continuations.
Variables (C d : Z).

Local Abbreviation W := (GLimit L41 None).
Local Abbreviation D := (GLimit (Lret None) None).

Lemma run_mid_done n mu pre g post i n' g' :
  i = length pre ->
  pick internal (transitions (mkLimiter C d n mu) g) = Some (CtxDone, n', g') ->
  step (Run i) (st C d n mu (pre ++ g :: post))
  = Some (st C d n mu (pre ++ g' :: post)).
Proof.
  intros Hi Ht. erewrite step_Run_eq; [|done|by apply lookup_mid|exact Ht].
  cbn. by rewrite insert_mid.
Qed.

Lemma tick_mid n mu pre post i :
  i = length pre ->
  step (TickOf i) (st C d n mu (pre ++ GRefill R89 true :: post))
  = Some (st C d n mu (pre ++ GRefill R90 true :: post)).
Proof.
  intros Hi. apply step_TickOf. split_and!; [done|by apply lookup_mid|].
  unfold set_pool, st. cbn. by rewrite insert_mid.
Qed.

Lemma cancel_mid n mu pre pc post i e :
  i = length pre ->
  step (Cancel i e) (st C d n mu (pre ++ GLimit pc None :: post))
  = Some (st C d n mu (pre ++ GLimit pc (Some e) :: post)).
Proof.
  intros Hi. apply step_Cancel. split; [done|]. exists pc.
  split; [by apply lookup_mid|].
  unfold set_pool, st. cbn. by rewrite insert_mid.
Qed.

Lemma cancel_unblocks n pre post k e :
  k = length pre -> GoInt.is_int (n - 1) ->
  run (cancel_schedule k e) (st C d n false (pre ++ W :: post))
  = Some (st C d (n - 1) false
            (pre ++ GLimit (Lret (Some e)) (Some e) :: post)).
Proof.
  intros Hk Hint. unfold cancel_schedule. cbn [run].
  rewrite (cancel_mid n false pre L41 post k e Hk). cbn [mbind option_bind].
  cbn [run replicate].
  rewrite (run_mid_done n false pre (GLimit L41 (Some e)) post k n
             (GLimit L48 (Some e)) Hk eq_refl).
  cbn [mbind option_bind].
  do 4 mid_step C d pre. by rewrite sub_id.
Qed.

Lemma refill_unblocks n c tl :
  C = Z.of_nat c -> (1 <= c)%nat -> n <> 1 ->
  run (refill_schedule c)
      (st C d n false
          (((replicate c D ++ [W]) ++ [GManage M61 0]) ++ GRefill R89 true :: tl))
  = Some (st C d n false
            ((replicate c D ++ [GLimit L43 None])
             ++ GManage (if Nat.eqb c 1 then M73 else M80) 1
             :: GRefill R89 true :: tl)).
Proof.
  intros HC Hc Hn. apply Z.eqb_neq in Hn.
  assert (GoInt.is_int (0 + 1)) as H1 by int_arith.
  assert (c = length (replicate c D)) as Hk by (by rewrite length_replicate).
  assert (S c = length (replicate c D ++ [W])) as Hm
    by (rewrite length_app, length_replicate; cbn; lia).
  assert (S (S c) = length ((replicate c D ++ [W]) ++ [GManage M61 0])) as Hr
    by (rewrite !length_app, length_replicate; cbn; lia).
  unfold refill_schedule. eapply run_app_Some.
  { cbn [run].
    rewrite (tick_mid n false _ tl (S (S c)) Hr). cbn [mbind option_bind].
    rewrite (sync_mid C d ch_in n false (replicate c D ++ [W]) (GManage M61 0)
               (GManage M62 0) [] (GRefill R90 true) (GRefill R89 true) tl
               (S c) (S (S c)) Hm Hr (sends_R90 true) (receives_M61 0)).
    cbn [mbind option_bind]. rewrite <- (app_assoc (replicate c D ++ [W])).
    cbn [app]. mid_step C d (replicate c D ++ [W]).
    rewrite add_id by done. cbn [Z.add].
    cbn [run].
    erewrite (run_mid_tau C d n false (replicate c D ++ [W]) (GManage M59 1) _
                (S c) n (GManage (if Nat.eqb c 1 then M64 else M76) 1) Hm).
    - cbn [mbind option_bind]. reflexivity.
    - cbn [transitions manageTokens maxTokens numConcurrent].
      change (1 =? 0) with false. cbv iota.
      destruct (Nat.eqb_spec c 1) as [->|Hne].
      + subst C. reflexivity.
      + assert ((1 =? C) = false) as -> by (apply Z.eqb_neq; lia). reflexivity. }
  destruct (Nat.eqb_spec c 1) as [->|Hne].
  - eapply run_app_Some.
    { do 3 mid_step C d (replicate 1 D ++ [W]). reflexivity. }
    cbn [run].
    rewrite (sync_mid C d ch_out n false (replicate 1 D) W (GLimit L43 None) []
               (GManage M72 1) (GManage M73 1) _ 1 2 Hk Hm
               (sends_M72 1) (receives_L41 None)).
    reflexivity.
  - cbn [app run].
    rewrite (sync_mid C d ch_out n false (replicate c D) W (GLimit L43 None) []
               (GManage M76 1) (GManage M80 1) _ c (S c) Hk Hm
               (sends_M76 1) (receives_L41 None)).
    reflexivity.
Qed.

End Continuations.

Lemma forallb_replicate {A} (p : A -> bool) n a :
  p a = true -> forallb p (replicate n a) = true.
Proof. intros Ha. induction n as [|n IH]; cbn; [done|]. by rewrite Ha, IH. Qed.

Lemma forallb_flat_map {A B} (p : B -> bool) (f : A -> list B) l :
  (forall a, forallb p (f a) = true) -> forallb p (flat_map f l) = true.
Proof.
  intros Hf. induction l as [|a l IH]; cbn; [done|].
  by rewrite forallb_app, Hf, IH.
Qed.

Lemma capacity_schedule_quiet c : forallb quiet (capacity_schedule c) = true.
Proof.
  unfold capacity_schedule.
  rewrite !forallb_app, !forallb_replicate by done.
  rewrite !forallb_flat_map; [done|intros k..].
  - by apply forallb_replicate.
  - done.
  - by apply forallb_replicate.
Qed.

Lemma total_replicate f n g : total f (replicate n g) = Z.of_nat n * f g.
Proof.
  induction n as [|n IH]; cbn [replicate total foldr]; [lia|].
  fold (total f (replicate n g)). lia.
Qed.

Lemma capacity_rest_pool c (s : state) i g :
  pool s = replicate c (GLimit (Lret None) None)
           ++ [GLimit L41 None; GManage M61 0; GRefill R89 true] ->
  pool s !! i = Some g ->
  g = GLimit (Lret None) None \/ g = GLimit L41 None \/
  g = GManage M61 0 \/ g = GRefill R89 true.
Proof.
  intros -> Hi. apply list_elem_of_lookup_2, elem_of_app in Hi as [Hi|Hi].
  - apply elem_of_replicate in Hi as [-> _]. tauto.
  - repeat (apply elem_of_cons in Hi as [->|Hi]; [tauto|]).
    by apply elem_of_nil in Hi.
Qed.

Lemma capacity_rest c (s : state) :
  pool s = replicate c (GLimit (Lret None) None)
           ++ [GLimit L41 None; GManage M61 0; GRefill R89 true] ->
  at_rest s.
Proof.
  intros Hpool. split.
  - intros i. destruct (step (Run i) s) as [s'|] eqn:H; [exfalso|done].
    run_inv H.
    all: destruct (capacity_rest_pool _ _ _ _ Hpool Hi) as [?|[?|[?|?]]];
      discriminate.
  - intros ch i j. destruct (step (Sync ch i j) s) as [s'|] eqn:H; [exfalso|done].
    sync_inv H.
    all: destruct (capacity_rest_pool _ _ _ _ Hpool Hi) as [?|[?|[?|?]]];
      discriminate.
Qed.

(** C7.  For every capacity [c >= 1] (small enough for the count of
    [c + 1] calls and a Manager to fit an int) and every positive refill
    period: when [c + 1] calls arrive at a freshly constructed limiter and
    no tick and no cancellation happens, the schedule
    [capacity_schedule c] hands a token to each of the first [c] calls,
    which return nil, and brings the system to rest with the Manager in
    the empty state at the receive of line 61, the Refill Scheduler waiting
    for its ticker and the last call blocked at its select.  From there
    the call returns the error of its context once the context fires, and
    gets a token once a tick has let the Refill Scheduler return one.
    Whatever the schedule, as long as no ticker ticks, at most [c] calls
    have received a token, and once [c] have, no rendezvous on the
    dispense channel is possible.  Whatever the schedule without ticks
    and cancellations, the system comes to rest with a call still waiting
    only when [c] calls have received a token: it never stops short of
    them.  And it does come to rest: while no ticker ticks and nothing
    arrives from outside, the goroutines execute no more steps than the
    energy of the state they are in. *)
Theorem capacity_admits_exactly c d l :
  (1 <= c)%nat ->
  Z.of_nat c + 5 <= GoInt.int_max ->
  0 < d ->
  NewReservoirLimiter (Z.of_nat c) d = Returns l ->
  (exists s,
     forallb quiet (capacity_schedule c) = true
     /\ run (capacity_schedule c) (init l) = Some s
     /\ (forall i, (i < c)%nat -> pool s !! i = Some (GLimit (Lret None) None))
     /\ pool s !! c = Some (GLimit L41 None)
     /\ pool s !! S c = Some (GManage M61 0)
     /\ pool s !! S (S c) = Some (GRefill R89 true)
     /\ total admitted (pool s) = Z.of_nat c
     /\ at_rest s
     /\ (forall e, exists s1,
           run (cancel_schedule c e) s = Some s1 /\
           pool s1 !! c = Some (GLimit (Lret (Some e)) (Some e)))
     /\ (exists s1,
           run (refill_schedule c) s = Some s1 /\
           pool s1 !! c = Some (GLimit L43 None)))
  /\ (forall tr s,
        forallb no_tick tr = true ->
        run tr (init l) = Some s ->
        small s ->
        total admitted (pool s) <= Z.of_nat c
        /\ (total admitted (pool s) = Z.of_nat c ->
            forall m j, step (Sync ch_out m j) s = None))
  /\ (forall tr s j,
        forallb quiet tr = true ->
        run tr (init l) = Some s ->
        small s ->
        at_rest s ->
        pool s !! j = Some (GLimit L41 None) ->
        total admitted (pool s) = Z.of_nat c)
  /\ (forall tr0 s tr s',
        forallb no_tick tr0 = true ->
        run tr0 (init l) = Some s ->
        forallb inner tr = true ->
        run tr s = Some s' ->
        Z.of_nat (length tr) <= energy s).
Proof.
  intros Hc Hmax Hd [= <-].
  assert (1 <= Z.of_nat c <= GoInt.int_max) as HC by int_arith.
  split_and!.
  - pose proof (capacity_schedule_runs c d Hc ltac:(int_arith) Hd) as Hrun.
    set (D := GLimit (Lret None) None) in *.
    set (s := st (Z.of_nat c) d 2 false
                (replicate c D ++ [GLimit L41 None; GManage M61 0; GRefill R89 true]))
      in *.
    assert (c = length (replicate c D)) as Hk by (by rewrite length_replicate).
    exists s. split_and!; try done.
    + apply capacity_schedule_quiet.
    + intros i Hi. cbn. rewrite lookup_app_l by (by rewrite length_replicate).
      by apply lookup_replicate_2.
    + by apply list_lookup_middle.
    + cbn. rewrite lookup_app_r by (rewrite length_replicate; lia).
      rewrite length_replicate. by replace (S c - c)%nat with 1%nat by lia.
    + cbn. rewrite lookup_app_r by (rewrite length_replicate; lia).
      rewrite length_replicate. by replace (S (S c) - c)%nat with 2%nat by lia.
    + cbn [pool s st]. rewrite total_app, total_replicate. cbn. lia.
    + by apply (capacity_rest c).
    + intros e. eexists. split.
      * apply (cancel_unblocks (Z.of_nat c) d 2 (replicate c D) _ c e Hk).
        int_arith.
      * cbn. by apply list_lookup_middle.
    + eexists. split.
      * unfold s.
        replace (replicate c D ++ [GLimit L41 None; GManage M61 0; GRefill R89 true])
          with (((replicate c D ++ [GLimit L41 None]) ++ [GManage M61 0])
                ++ GRefill R89 true :: [])
          by (by rewrite <- !app_assoc).
        by apply (refill_unblocks (Z.of_nat c) d 2 c []).
      * cbn. rewrite <- app_assoc. by apply list_lookup_middle.
  - intros tr s Hq Hrun Hsmall. split.
    + by apply (admitted_le_capacity (mkLimiter (Z.of_nat c) d 0 false) tr).
    + intros Hfull m j.
      by apply (exhausted_blocks (mkLimiter (Z.of_nat c) d 0 false) tr).
  - intros tr s j Hq Hrun Hsmall Hrest Hj.
    by apply (rest_with_waiter_is_empty (mkLimiter (Z.of_nat c) d 0 false) tr s j).
  - intros tr0 s tr s' Hq0 Hrun0 Hin Hrun.
    destruct (run_params _ _ _ Hrun0) as [E _]. cbn in E.
    apply (inner_schedule_bounded tr s s'); try done.
    + by rewrite E.
    + rewrite E.
      by apply (level_ok_run (mkLimiter (Z.of_nat c) d 0 false) tr0).
    + by apply (conserved_run (mkLimiter (Z.of_nat c) d 0 false) tr0).
Qed.

Lemma capacity_admits_exactly_witness :
  let l := mkLimiter 3 50 0 false in
  (exists s,
     forallb quiet (capacity_schedule 3) = true
     /\ run (capacity_schedule 3) (init l) = Some s
     /\ (forall i, (i < 3)%nat -> pool s !! i = Some (GLimit (Lret None) None))
     /\ pool s !! 3%nat = Some (GLimit L41 None)
     /\ pool s !! 4%nat = Some (GManage M61 0)
     /\ pool s !! 5%nat = Some (GRefill R89 true)
     /\ total admitted (pool s) = 3
     /\ at_rest s
     /\ (forall e, exists s1,
           run (cancel_schedule 3 e) s = Some s1 /\
           pool s1 !! 3%nat = Some (GLimit (Lret (Some e)) (Some e)))
     /\ (exists s1,
           run (refill_schedule 3) s = Some s1 /\
           pool s1 !! 3%nat = Some (GLimit L43 None)))
  /\ (forall tr s,
        forallb no_tick tr = true ->
        run tr (init l) = Some s ->
        small s ->
        total admitted (pool s) <= 3
        /\ (total admitted (pool s) = 3 ->
            forall m j, step (Sync ch_out m j) s = None))
  /\ (forall tr s j,
        forallb quiet tr = true ->
        run tr (init l) = Some s ->
        small s ->
        at_rest s ->
        pool s !! j = Some (GLimit L41 None) ->
        total admitted (pool s) = 3)
  /\ (forall tr0 s tr s',
        forallb no_tick tr0 = true ->
        run tr0 (init l) = Some s ->
        forallb inner tr = true ->
        run tr s = Some s' ->
        Z.of_nat (length tr) <= energy s).
Proof.
  apply (capacity_admits_exactly 3 50 (mkLimiter 3 50 0 false)).
  - lia.
  - unfold GoInt.int_max. cbn. lia.
  - lia.
  - reflexivity.
Defined.

(** * Further properties *)

(** ** The critical sections *)

Lemma total_two f (gs : list goroutine) i j g h :
  (forall g, 0 <= f g) -> i <> j ->
  gs !! i = Some g -> gs !! j = Some h ->
  f g + f h <= total f gs.
Proof.
  intros Hf. revert i j. induction gs as [|x gs IH]; intros [|i] [|j] Hij Hi Hj;
    try done; cbn in Hi, Hj; change (total f (x :: gs)) with (f x + total f gs).
  - injection Hi as ->. pose proof (total_others f gs j h Hf Hj). lia.
  - injection Hj as ->. pose proof (total_others f gs i g Hf Hi). lia.
  - assert (i <> j) as Hij' by congruence.
    specialize (IH i j Hij' Hi Hj). specialize (Hf x). lia.
Qed.

(** X1.  Mutual exclusion.  In every state reached from a freshly
    constructed limiter (with a pool small enough for the count not to
    overflow), the mutex is locked exactly when one goroutine is between a
    [Lock] and the [Unlock] that follows it, and two goroutines are never
    there together: the reads and writes of numConcurrent at lines 34 to
    38, 44, 49 and 65 to 67 never interleave. *)
Theorem critical_sections_exclude maxT d l tr s :
  NewReservoirLimiter maxT d = Returns l ->
  run tr (init l) = Some s ->
  small s ->
  (mutex (lim s) = true <-> total holds (pool s) = 1)
  /\ (mutex (lim s) = false <-> total holds (pool s) = 0)
  /\ (forall i j g h,
        i <> j ->
        pool s !! i = Some g -> pool s !! j = Some h ->
        holds g = 1 -> holds h = 1 -> False).
Proof.
  intros Hnew Hrun Hsmall.
  destruct (count_inv_reachable _ _ _ _ _ Hnew Hrun Hsmall) as [_ I2 _ _ _ _ _].
  split_and!.
  - destruct (mutex (lim s)); split; (done || lia).
  - destruct (mutex (lim s)); split; (done || lia).
  - intros i j g h Hij Hi Hj Hg Hh.
    pose proof (total_two holds (pool s) i j g h holds_nonneg Hij Hi Hj).
    destruct (mutex (lim s)); lia.
Qed.

Lemma critical_sections_exclude_witness :
  let s := {| lim := mkLimiter 1 50 2 true;
              pool := [GLimit L41 None; GManage M65 1];
              panicked := false |} in
  (mutex (lim s) = true <-> total holds (pool s) = 1)
  /\ (mutex (lim s) = false <-> total holds (pool s) = 0)
  /\ (forall i j g h,
        i <> j ->
        pool s !! i = Some g -> pool s !! j = Some h ->
        holds g = 1 -> holds h = 1 -> False).
Proof.
  apply (critical_sections_exclude 1 50 (mkLimiter 1 50 0 false)
           [Call None; Run 0; Run 0; Run 0; Run 0; Run 0;
            Run 1; Run 1; Run 1]).
  - reflexivity.
  - vm_compute. reflexivity.
  - unfold small. vm_compute. discriminate.
Defined.

(** ** Panics *)

(** X2.  A limiter constructed with a positive refill period never
    panics: in no state reached from it (with a pool small enough for the
    count not to overflow) has an [Unlock] found the mutex unlocked or has
    [time.NewTicker] been given a period that is not positive. *)
Theorem positive_period_never_panics maxT d l tr s :
  0 < d ->
  NewReservoirLimiter maxT d = Returns l ->
  run tr (init l) = Some s ->
  small s ->
  panicked s = false.
Proof.
  intros Hd [= <-] Hrun Hsmall.
  by apply (no_panic_run (mkLimiter maxT d 0 false) tr).
Qed.

Lemma positive_period_never_panics_witness :
  panicked {| lim := mkLimiter 1 50 2 false;
              pool := [GLimit L43 None; GManage M59 0; GRefill R89 true];
              panicked := false |} = false.
Proof.
  apply (positive_period_never_panics 1 50 (mkLimiter 1 50 0 false)
           [Call None; Run 0; Run 0; Run 0; Run 0; Run 0;
            Run 1; Run 1; Run 1; Run 1; Run 1;
            Sync ch_out 1 0; Run 1; Run 1; Run 2]).
  - lia.
  - reflexivity.
  - vm_compute. reflexivity.
  - unfold small. vm_compute. discriminate.
Defined.
(** ** The length of the critical sections *)

(** [hold_step]: execute the next [Run i] of the schedule in the goal,
    for a goroutine whose tests are decided by the hypotheses. *)
Ltac hold_step :=
  cbn [run replicate];
  erewrite step_Run_eq;
    [ | try done; reflexivity | solve_lookup
      | cbn [transitions Limit manageTokens lim numConcurrent maxTokens
             set_count set_mutex];
        repeat match goal with
               | E : (_ =? _) = _ |- _ => rewrite E
               end;
        reflexivity ];
  cbn [exec t_label t_next t_count fst snd mbind option_bind
       lim pool panicked set_pool set_count set_mutex mutex numConcurrent];
  rewrite ?list_insert_insert_eq;
  try (erewrite insert_insert_snoc by eassumption);
  repeat match goal with
         | E : mutex _ = _ |- _ => rewrite E
         end.

Lemma release_from s i g :
  panicked s = false -> mutex (lim s) = true ->
  pool s !! i = Some g -> 0 < holds g ->
  exists k s',
    (1 <= k <= 4)%nat
    /\ run (replicate k (Run i)) s = Some s'
    /\ mutex (lim s') = false /\ panicked s' = false.
Proof.
  intros Hl Hm Hi Hg.
  destruct g as [pc ctx|pc tc|pc tk]; cbn in Hg; [| |lia].
  - destruct pc; try lia.
    + destruct (numConcurrent (lim s) =? 0) eqn:E.
      * exists 4%nat. eexists. split; [lia|]. split; [by do 4 hold_step|done].
      * exists 3%nat. eexists. split; [lia|]. split; [by do 3 hold_step|done].
    + exists 3%nat. eexists. split; [lia|]. split; [by do 3 hold_step|done].
    + exists 2%nat. eexists. split; [lia|]. split; [by do 2 hold_step|done].
    + exists 2%nat. eexists. split; [lia|]. split; [by do 2 hold_step|done].
    + exists 1%nat. eexists. split; [lia|]. split; [by do 1 hold_step|done].
    + exists 2%nat. eexists. split; [lia|]. split; [by do 2 hold_step|done].
    + exists 1%nat. eexists. split; [lia|]. split; [by do 1 hold_step|done].
    + exists 2%nat. eexists. split; [lia|]. split; [by do 2 hold_step|done].
    + exists 1%nat. eexists. split; [lia|]. split; [by do 1 hold_step|done].
  - destruct pc; try lia.
    + destruct (numConcurrent (lim s) =? 1) eqn:E.
      * exists 3%nat. eexists. split; [lia|]. split; [by do 3 hold_step|done].
      * exists 2%nat. eexists. split; [lia|]. split; [by do 2 hold_step|done].
    + exists 2%nat. eexists. split; [lia|]. split; [by do 2 hold_step|done].
    + exists 1%nat. eexists. split; [lia|]. split; [by do 1 hold_step|done].
    + exists 1%nat. eexists. split; [lia|]. split; [by do 1 hold_step|done].
Qed.

(** X5.  No goroutine blocks while it holds the mutex.  For a limiter
    constructed with a positive refill period: in every reachable state in
    which the mutex is locked, the goroutine that holds it can execute its
    next statements by itself, and at most four of them release the mutex.
    The critical sections of lines 33 to 40, 43 to 45, 48 to 50 and 64 to
    71 contain no channel operation. *)
Theorem mutex_released_by_holder maxT d l tr s :
  0 < d ->
  NewReservoirLimiter maxT d = Returns l ->
  run tr (init l) = Some s ->
  small s ->
  mutex (lim s) = true ->
  exists i g k s',
    pool s !! i = Some g /\ holds g = 1
    /\ (1 <= k <= 4)%nat
    /\ run (replicate k (Run i)) s = Some s'
    /\ mutex (lim s') = false.
Proof.
  intros Hd [= <-] Hrun Hsmall Hm.
  pose proof (no_panic_run (mkLimiter maxT d 0 false) _ _ eq_refl eq_refl
                Hd Hrun Hsmall) as Hl.
  destruct (count_inv_run (mkLimiter maxT d 0 false) _ _ eq_refl eq_refl
              Hrun Hsmall) as [_ I2 _ _ _ _ _].
  rewrite Hm in I2.
  destruct (total_pos_lookup holds (pool s) holds_nonneg) as (i & g & Hi & Hg);
    [lia|].
  destruct (release_from s i g Hl Hm Hi Hg) as (k & s' & Hk & Hs' & Hfree & _).
  pose proof (total_others holds (pool s) i g holds_nonneg Hi).
  exists i, g, k, s'. split_and!; try done; lia.
Qed.

Lemma mutex_released_by_holder_witness :
  let s := {| lim := mkLimiter 1 50 0 true;
              pool := [GLimit L34 None];
              panicked := false |} in
  exists i g k s',
    pool s !! i = Some g /\ holds g = 1
    /\ (1 <= k <= 4)%nat
    /\ run (replicate k (Run i)) s = Some s'
    /\ mutex (lim s') = false.
Proof.
  apply (mutex_released_by_holder 1 50 (mkLimiter 1 50 0 false)
           [Call None; Run 0]).
  - lia.
  - reflexivity.
  - vm_compute. reflexivity.
  - unfold small. vm_compute. discriminate.
  - reflexivity.
Defined.
(** ** Refills and ticks *)

Lemma refills_snoc tr a :
  Z.of_nat (refills (tr ++ [a]))
  = Z.of_nat (refills tr) + (if refilled a then 1 else 0).
Proof.
  unfold refills. rewrite List.filter_app, length_app. cbn.
  destruct (refilled a); cbn; lia.
Qed.

Lemma ticks_snoc tr a :
  Z.of_nat (ticks (tr ++ [a]))
  = Z.of_nat (ticks tr) + (if ticked a then 1 else 0).
Proof.
  unfold ticks. rewrite List.filter_app, length_app. cbn.
  destruct (ticked a); cbn; lia.
Qed.

Lemma at_select_nonneg g : 0 <= at_select g.
Proof. destruct g as [?|?|[]?]; simpl; lia. Qed.

Ltac meter :=
  cbn [pool lim set_pool set_count set_mutex numConcurrent mutex maxTokens
       refilled ticked] in *;
  rewrite ?total_app;
  repeat (erewrite total_insert by eassumption);
  cbn [total foldr admitted dispensed at_select] in *.

Lemma metered_step tr a s s' :
  1 <= maxTokens (lim s) <= GoInt.int_max ->
  Forall (level_ok (maxTokens (lim s))) (pool s) ->
  step a s = Some s' ->
  metered tr s -> metered (tr ++ [a]) s'.
Proof.
  intros Hmax HL H [HT HK HU].
  step_inv H.
  all: split; rewrite ?refills_snoc, ?ticks_snoc;
    [| |cbn [pool set_pool]; from_pool HU; forall_pool; cbn; try done].
  all: try (from_pool HU; cbn in *; tauto).
  all: try (destruct x; done).
  all: from_pool HL; from_pool HU.
  all: try (rewrite add_id by int_arith); try (rewrite sub_id by int_arith).
  all: meter; try lia.
  all: try (destruct x as [| | | | | | | | | | | | | | |[?|]]; cbn; lia).
  all: try (destruct ctx; [lia | done]).
Qed.

Lemma metered_run l tr s :
  1 <= maxTokens l <= GoInt.int_max ->
  run tr (init l) = Some s ->
  metered tr s.
Proof.
  intros Hmax. revert s. induction tr as [|a tr IH] using rev_ind; intros s.
  - intros [= <-]. split; cbn; [lia | lia | constructor].
  - rewrite run_snoc. intros (s1 & H1 & H2).
    destruct (run_params _ _ _ H1) as [E1 _]. cbn in E1.
    eapply metered_step; [by rewrite E1 | | done | by apply IH].
    rewrite E1. by eapply level_ok_run.
Qed.

Lemma dispensed_nonneg maxT g :
  1 <= maxT -> level_ok maxT g -> 0 <= dispensed maxT g.
Proof.
  intros Hmax. destruct g as [pc ctx|pc tc|pc tk]; cbn; [lia| |lia].
  destruct pc; cbn; lia.
Qed.

(** The tokens missing from the reservoirs: none is missing from a
    Manager that has retired, and at most one Manager has not. *)
Lemma missing_le_capacity l tr s :
  numConcurrent l = 0 -> mutex l = false ->
  1 <= maxTokens l <= GoInt.int_max ->
  run tr (init l) = Some s ->
  small s ->
  0 <= total (dispensed (maxTokens l)) (pool s)
       <= maxTokens l * total running (pool s)
  /\ total running (pool s) <= 1.
Proof.
  intros Hn Hm Hmax Hrun Hsmall.
  destruct (count_inv_run _ _ _ Hn Hm Hrun Hsmall) as [_ _ I3 _ _ _ _].
  pose proof (level_ok_run _ _ _ Hmax Hrun) as HL.
  pose proof (total_le_Forall _ (dispensed (maxTokens l))
                (fun g => maxTokens l * running g) _ HL
                (fun g => dispensed_le_running (maxTokens l) g (proj1 Hmax))) as Hle.
  rewrite total_scale in Hle.
  pose proof (total_le_Forall _ (fun _ => 0) (dispensed (maxTokens l)) _ HL
                (fun g => dispensed_nonneg (maxTokens l) g (proj1 Hmax))) as Hge.
  assert (total (fun _ : goroutine => 0) (pool s) = 0) as E0.
  { generalize (pool s). intros gs. induction gs as [|x gs IH]; [done|].
    change (0 + total (fun _ : goroutine => 0) gs = 0). lia. }
  pose proof (total_nonneg starting (pool s) starting_nonneg).
  lia.
Qed.

(** X3.  The limiter limits.  For a limiter constructed with a capacity of
    at least 1, whatever the schedule: the calls that have received a token
    are at most maxTokens plus the tokens that Refill Schedulers have
    returned on the request channel, and a Refill Scheduler returns at
    most one token for each tick of its ticker. *)
Theorem admissions_bounded_by_ticks maxT d l tr s :
  1 <= maxT <= GoInt.int_max ->
  NewReservoirLimiter maxT d = Returns l ->
  run tr (init l) = Some s ->
  small s ->
  total admitted (pool s) <= maxT + Z.of_nat (refills tr)
  /\ (refills tr <= ticks tr)%nat.
Proof.
  intros Hmax [= <-] Hrun Hsmall.
  destruct (metered_run (mkLimiter maxT d 0 false) _ _ Hmax Hrun) as [HT HK _].
  destruct (run_params _ _ _ Hrun) as [E _]. cbn in E. rewrite E in HT.
  destruct (missing_le_capacity (mkLimiter maxT d 0 false) _ _ eq_refl eq_refl
              Hmax Hrun Hsmall)
    as [Hd Hr]. cbn in Hd.
  pose proof (total_nonneg at_select (pool s) at_select_nonneg).
  split; [nia | lia].
Qed.

Lemma admissions_bounded_by_ticks_witness :
  let tr := [Call None; Run 0; Run 0; Run 0; Run 0; Run 0;
             Run 1; Run 1; Run 1; Run 1; Run 1;
             Sync ch_out 1 0; Run 1; Run 1; Run 1; Run 2;
             TickOf 2; Sync ch_in 2 1] in
  let s := {| lim := mkLimiter 1 50 2 false;
              pool := [GLimit L43 None; GManage M62 0; GRefill R89 true];
              panicked := false |} in
  total admitted (pool s) <= 1 + Z.of_nat (refills tr)
  /\ (refills tr <= ticks tr)%nat.
Proof.
  apply (admissions_bounded_by_ticks 1 50 (mkLimiter 1 50 0 false)).
  - vm_compute. split; discriminate.
  - reflexivity.
  - vm_compute. reflexivity.
  - unfold small. vm_compute. discriminate.
Defined.

(** X4.  The limiter goes idle only with its books balanced.  For a
    limiter constructed with a capacity of at least 1: in every reachable
    state in which the participant count is 0, every Manager has retired
    with a full reservoir, and the calls that have received a token since
    construction are exactly as many as the tokens that Refill Schedulers
    have returned.  A new Manager, which starts full, therefore never
    gives away a token that is still missing. *)
Theorem idle_limiter_is_full maxT d l tr s :
  1 <= maxT <= GoInt.int_max ->
  NewReservoirLimiter maxT d = Returns l ->
  run tr (init l) = Some s ->
  small s ->
  numConcurrent (lim s) = 0 ->
  total admitted (pool s) = Z.of_nat (refills tr)
  /\ (forall i pc tc,
        pool s !! i = Some (GManage pc tc) ->
        tc = maxT /\ (pc = M68 \/ pc = M69 \/ pc = Mret)).
Proof.
  intros Hmax [= <-] Hrun Hsmall Hidle.
  destruct (metered_run (mkLimiter maxT d 0 false) _ _ Hmax Hrun) as [HT _ _].
  destruct (run_params _ _ _ Hrun) as [E _]. cbn in E. rewrite E in HT.
  destruct (missing_le_capacity (mkLimiter maxT d 0 false) _ _ eq_refl eq_refl
              Hmax Hrun Hsmall)
    as [Hd Hr]. cbn in Hd.
  destruct (count_inv_run (mkLimiter maxT d 0 false) _ _ eq_refl eq_refl
              Hrun Hsmall) as [I1 _ _ _ _ _ _].
  pose proof (total_nonneg running (pool s) running_nonneg).
  pose proof (total_nonneg starting (pool s) starting_nonneg).
  pose proof (total_nonneg waiting (pool s) waiting_nonneg).
  assert (total running (pool s) = 0) as Hrun0 by lia.
  split; [nia|].
  intros i pc tc Hi.
  pose proof (total_others running (pool s) i _ running_nonneg Hi) as Hi'.
  pose proof (level_ok_run (mkLimiter maxT d 0 false) _ _ Hmax Hrun) as HL.
  pose proof (Forall_lookup_1 _ _ _ _ HL Hi) as Hlev. cbn in Hlev.
  destruct pc; cbn in Hi', Hlev; try lia; tauto.
Qed.

Lemma idle_limiter_is_full_witness :
  let tr := [Call None; Run 0; Run 0; Run 0; Run 0; Run 0;
             Run 1; Run 1; Run 1; Run 1; Run 1;
             Sync ch_out 1 0; Run 1; Run 1; Run 1; Run 2;
             Run 0; Run 0; Run 0; Run 0;
             TickOf 2; Sync ch_in 2 1;
             Run 1; Run 1; Run 1; Run 1; Run 1] in
  let s := {| lim := mkLimiter 1 50 0 true;
              pool := [GLimit (Lret None) None; GManage M68 1; GRefill R89 true];
              panicked := false |} in
  total admitted (pool s) = Z.of_nat (refills tr)
  /\ (forall i pc tc,
        pool s !! i = Some (GManage pc tc) ->
        tc = 1 /\ (pc = M68 \/ pc = M69 \/ pc = Mret)).
Proof.
  apply (idle_limiter_is_full 1 50 (mkLimiter 1 50 0 false)).
  - vm_compute. split; discriminate.
  - reflexivity.
  - vm_compute. reflexivity.
  - unfold small. vm_compute. discriminate.
  - reflexivity.
Defined.

(** ** A refill period that is not positive *)

Lemma no_ticker_step a s s' :
  refillDuration (lim s) <= 0 ->
  step a s = Some s' ->
  Forall no_ticker (pool s) -> Forall no_ticker (pool s').
Proof.
  intros Hd H HF.
  assert ((0 <? refillDuration (lim s)) = false) as E by (apply Z.ltb_ge; lia).
  step_inv H.
  all: cbn [pool set_pool]; from_pool HF; forall_pool; cbn in *; try done.
  all: try (intuition congruence).
  all: lia.
Qed.

Lemma no_ticker_run l tr s :
  refillDuration l <= 0 ->
  run tr (init l) = Some s ->
  Forall no_ticker (pool s).
Proof.
  intros Hd. revert s. induction tr as [|a tr IH] using rev_ind; intros s.
  - intros [= <-]. constructor.
  - rewrite run_snoc. intros (s1 & H1 & H2).
    destruct (run_params _ _ _ H1) as [_ E]. cbn in E.
    eapply no_ticker_step; [by rewrite E|done|by apply IH].
Qed.

Lemma first_token_runs C d :
  C <> 0 -> GoInt.is_int (C - 1) -> d <= 0 ->
  run first_token_schedule (init (mkLimiter C d 0 false))
  = Some {| lim := mkLimiter C d 2 false;
            pool := [GLimit L43 None; GManage M59 (C - 1); GRefill R88 false];
            panicked := true |}.
Proof.
  intros HC Hint Hd. unfold first_token_schedule.
  eapply run_app_Some; [apply (calls_arrive C d 0 false 1 [])|].
  eapply run_app_Some; [apply (first_enters C d [] [] 0 eq_refl)|].
  eapply run_app_Some.
  { apply (first_dispense C d 2 [] [] [] 0 1 eq_refl eq_refl); done. }
  cbn [run app].
  assert ((0 <? d) = false) as E by (apply Z.ltb_ge; lia).
  erewrite step_Run_eq; cycle 1; [done|reflexivity| |].
  - cbn [transitions refillTokens lim st refillDuration]. rewrite E. reflexivity.
  - reflexivity.
Qed.

(** X6.  A limiter constructed with a refill period that is not positive
    cannot refill, and its first dispense brings the program down.  In
    every reachable state no ticker exists: each Refill Scheduler is still
    at line 88, and when it executes that line it panics, after which
    nothing runs any more.  And for a capacity other than 0 the first call
    gets there: it receives its token, the Manager starts a Refill
    Scheduler, and the Refill Scheduler panics in [time.NewTicker]. *)
Theorem nonpositive_period_panics maxT d l :
  maxT <> 0 -> GoInt.is_int (maxT - 1) ->
  d <= 0 ->
  NewReservoirLimiter maxT d = Returns l ->
  (forall tr s i pc tk,
     run tr (init l) = Some s ->
     pool s !! i = Some (GRefill pc tk) ->
     pc = R88
     /\ (forall s', step (Run i) s = Some s' ->
                    panicked s' = true /\ forall a, step a s' = None))
  /\ run first_token_schedule (init l)
     = Some {| lim := mkLimiter maxT d 2 false;
               pool := [GLimit L43 None; GManage M59 (maxT - 1);
                        GRefill R88 false];
               panicked := true |}.
Proof.
  intros HC Hint Hd [= <-]. split; [|by apply first_token_runs].
  intros tr s i pc tk Hrun Hi.
  pose proof (no_ticker_run (mkLimiter maxT d 0 false) _ _ Hd Hrun) as HF.
  pose proof (Forall_lookup_1 _ _ _ _ HF Hi) as [-> ->].
  split; [done|]. intros s' H.
  destruct (run_params _ _ _ Hrun) as [_ E]. cbn in E.
  assert ((0 <? refillDuration (lim s)) = false) as E0
    by (apply Z.ltb_ge; lia).
  run_inv H; try lia.
  all: try (split; [done|]; intros a; unfold step; done).
Qed.

Lemma nonpositive_period_panics_witness :
  (forall tr s i pc tk,
     run tr (init (mkLimiter 3 0 0 false)) = Some s ->
     pool s !! i = Some (GRefill pc tk) ->
     pc = R88
     /\ (forall s', step (Run i) s = Some s' ->
                    panicked s' = true /\ forall a, step a s' = None))
  /\ run first_token_schedule (init (mkLimiter 3 0 0 false))
     = Some {| lim := mkLimiter 3 0 2 false;
               pool := [GLimit L43 None; GManage M59 (3 - 1);
                        GRefill R88 false];
               panicked := true |}.
Proof.
  apply (nonpositive_period_panics 3 0 (mkLimiter 3 0 0 false)).
  - lia.
  - vm_compute. split; discriminate.
  - lia.
  - reflexivity.
Defined.

(** ** A tick that finds the Manager between two statements *)

Lemma stranded_step a s s' :
  1 <= maxTokens (lim s) <= GoInt.int_max ->
  numConcurrent (lim s) <> 0 ->
  Forall (stranded (maxTokens (lim s))) (pool s) ->
  step a s = Some s' ->
  Forall (stranded (maxTokens (lim s))) (pool s')
  /\ total running (pool s') = total running (pool s)
  /\ refilled a = false /\ ticked a = false.
Proof.
  intros Hmax Hn HF H. apply Z.eqb_neq in Hn.
  step_inv H.
  all: from_pool HF; try done; try congruence.
  all: split; [|split; [totals; lia|done]].
  all: cbn [pool set_pool]; forall_pool; cbn in *; try done.
  all: try (rewrite sub_id by int_arith).
  all: try lia.
Qed.

Lemma default_when_no_receiver C d n mu gs i tk :
  gs !! i = Some (GRefill R90 tk) ->
  (forall m g g', gs !! m = Some g -> ~ receives ch_in g g') ->
  step (Run i) (st C d n mu gs)
  = Some (st C d n mu (<[i := GRefill R95 tk]> gs)).
Proof.
  intros Hi Hno.
  erewrite step_Run_eq; cycle 1; [done|exact Hi|reflexivity|].
  cbn [exec t_label t_next t_count fst snd lim st pool].
  destruct (can_proceed _ _ _) eqn:E; [exfalso|done].
  apply can_proceed_R90 in E. destruct E as (m & g & g' & Hm & Hr).
  by apply (Hno m g g').
Qed.

Lemma lost_refill_runs C d :
  1 <= C -> GoInt.is_int (C - 1) -> 0 < d ->
  run lost_refill_schedule (init (mkLimiter C d 0 false))
  = Some (st C d 1 false
            [GLimit (Lret None) None; GManage M59 (C - 1); GRefill Rret false]).
Proof.
  intros HC Hint Hd. apply Z.ltb_lt in Hd. unfold lost_refill_schedule.
  eapply run_app_Some; [apply (calls_arrive C d 0 false 1 [])|].
  eapply run_app_Some; [apply (first_enters C d [] [] 0 eq_refl)|].
  eapply run_app_Some.
  { apply (first_dispense C d 2 [] [] [] 0 1 eq_refl eq_refl); (done || lia). }
  eapply run_app_Some.
  { change (([] ++ [GLimit L43 None])
            ++ GManage M59 (C - 1) :: [] ++ [GRefill R88 false])
      with ([GLimit L43 None; GManage M59 (C - 1)] ++ GRefill R88 false :: []).
    mid_step C d [GLimit L43 None; GManage M59 (C - 1)].
    cbn [run].
    rewrite (tick_mid C d 2 false [GLimit L43 None; GManage M59 (C - 1)] [] 2
               eq_refl).
    reflexivity. }
  eapply run_app_Some.
  { cbn [replicate run].
    rewrite (default_when_no_receiver C d 2 false
               ([GLimit L43 None; GManage M59 (C - 1)] ++ [GRefill R90 true])
               2 true eq_refl).
    - cbn [mbind option_bind].
      change (<[2%nat:=GRefill R95 true]>
                ([GLimit L43 None; GManage M59 (C - 1)] ++ [GRefill R90 true]))
        with ([GLimit L43 None; GManage M59 (C - 1)] ++ GRefill R95 true :: []).
      do 2 mid_step C d [GLimit L43 None; GManage M59 (C - 1)].
      reflexivity.
    - intros [|[|[|m]]] g g' Hm Hr; cbn in Hm; try done.
      all: injection Hm as <-; inversion Hr. }
  change ([GLimit L43 None; GManage M59 (C - 1)] ++ [GRefill Rret false])
    with ([] ++ GLimit L43 None :: [GManage M59 (C - 1); GRefill Rret false]).
  rewrite (leave_one C d 2 [] _ 0 eq_refl) by int_arith.
  reflexivity.
Qed.

Lemma stranded_run C d tr : forall s,
  1 <= C <= GoInt.int_max -> 0 < d ->
  run (lost_refill_schedule ++ tr) (init (mkLimiter C d 0 false)) = Some s ->
  small s ->
  Forall (stranded C) (pool s)
  /\ total running (pool s) = 1
  /\ refills tr = 0%nat /\ ticks tr = 0%nat.
Proof.
  intros s Hmax Hd. revert s.
  induction tr as [|a tr IH] using rev_ind; intros s.
  - rewrite app_nil_r, lost_refill_runs by (try done; try lia; int_arith).
    intros [= <-] _. split_and!; try done.
    repeat constructor; cbn; lia.
  - rewrite app_assoc, run_snoc. intros (s1 & H1 & H2) Hsmall.
    pose proof (small_step _ _ _ H2 Hsmall) as Hsmall1.
    destruct (IH s1 H1 Hsmall1) as (HF & HR & Hre & Hti).
    destruct (run_params _ _ _ H1) as [E _]. cbn in E.
    destruct (count_inv_run (mkLimiter C d 0 false) _ _ eq_refl eq_refl
                H1 Hsmall1) as [I1 _ _ _ _ _ _].
    pose proof (total_nonneg starting (pool s1) starting_nonneg).
    pose proof (total_nonneg waiting (pool s1) waiting_nonneg).
    destruct (stranded_step a s1 s) as (HF' & HR' & Ha & Hb);
      [by rewrite E|lia|by rewrite E|done|].
    rewrite E in HF'. split_and!; [done|lia| |].
    + apply Nat2Z.inj. rewrite refills_snoc, Hre, Ha. done.
    + apply Nat2Z.inj. rewrite ticks_snoc, Hti, Hb. done.
Qed.

(** X7.  A tick that finds the Manager between two statements is lost for
    good.  For every capacity [c >= 1] and every positive refill period
    there is a schedule, [lost_refill_schedule], in which the first call is
    admitted and returns, and the only Refill Scheduler, ticking while the
    Manager is on its way back to the switch, takes the default case of
    its select and returns.  From the state reached, whatever happens
    next: no ticker exists, so no tick and no refill ever happens; the
    calls admitted since construction never exceed [c]; the Manager stays
    below capacity, so it neither starts a Refill Scheduler nor retires;
    and the participant count stays positive, so no call starts a new
    Manager. *)
Theorem lost_refill_starves c d l :
  1 <= c -> c + 2 <= GoInt.int_max -> 0 < d ->
  NewReservoirLimiter c d = Returns l ->
  exists s0,
    run lost_refill_schedule (init l) = Some s0
    /\ pool s0 = [GLimit (Lret None) None; GManage M59 (c - 1);
                  GRefill Rret false]
    /\ forall tr s,
         run tr s0 = Some s -> small s ->
         ticks tr = 0%nat /\ refills tr = 0%nat
         /\ total admitted (pool s) <= c
         /\ 1 <= numConcurrent (lim s)
         /\ (forall i pc tk, pool s !! i = Some (GRefill pc tk) -> pc = Rret)
         /\ (forall i pc tc,
               pool s !! i = Some (GManage pc tc) ->
               0 <= tc < c
               /\ (pc = M59 \/ pc = M61 \/ pc = M76 \/ pc = M80)).
Proof.
  intros Hc Hmax Hd [= <-].
  assert (1 <= c <= GoInt.int_max) as Hrange by lia.
  eexists. split; [apply lost_refill_runs; try done; int_arith|].
  split; [done|]. intros tr s Hrun Hsmall.
  assert (run (lost_refill_schedule ++ tr) (init (mkLimiter c d 0 false))
          = Some s) as Hall.
  { eapply run_app_Some; [apply lost_refill_runs; try done; int_arith|done]. }
  destruct (stranded_run c d tr s Hrange Hd Hall Hsmall) as (HF & HR & Hre & Hti).
  destruct (metered_run (mkLimiter c d 0 false) _ _ Hrange Hall) as [HT _ _].
  destruct (run_params _ _ _ Hall) as [E _]. cbn in E. rewrite E in HT.
  destruct (missing_le_capacity (mkLimiter c d 0 false) _ _ eq_refl eq_refl
              Hrange Hall Hsmall) as [Hdisp _]. cbn in Hdisp.
  destruct (count_inv_run (mkLimiter c d 0 false) _ _ eq_refl eq_refl
              Hall Hsmall) as [I1 _ _ _ _ _ _].
  pose proof (total_nonneg starting (pool s) starting_nonneg).
  pose proof (total_nonneg waiting (pool s) waiting_nonneg).
  assert (Z.of_nat (refills (lost_refill_schedule ++ tr)) = 0) as Hall0.
  { unfold refills in *. rewrite List.filter_app, length_app, Hre. done. }
  split_and!; try done; try lia.
  - intros i pc tk Hi. apply (Forall_lookup_1 _ _ _ _ HF Hi).
  - intros i pc tc Hi. pose proof (Forall_lookup_1 _ _ _ _ HF Hi) as Hs.
    cbn in Hs. destruct pc; try done; split; try lia; tauto.
Qed.

Lemma lost_refill_starves_witness :
  exists s0,
    run lost_refill_schedule (init (mkLimiter 2 50 0 false)) = Some s0
    /\ pool s0 = [GLimit (Lret None) None; GManage M59 (2 - 1);
                  GRefill Rret false]
    /\ forall tr s,
         run tr s0 = Some s -> small s ->
         ticks tr = 0%nat /\ refills tr = 0%nat
         /\ total admitted (pool s) <= 2
         /\ 1 <= numConcurrent (lim s)
         /\ (forall i pc tk, pool s !! i = Some (GRefill pc tk) -> pc = Rret)
         /\ (forall i pc tc,
               pool s !! i = Some (GManage pc tc) ->
               0 <= tc < 2
               /\ (pc = M59 \/ pc = M61 \/ pc = M76 \/ pc = M80)).
Proof.
  apply (lost_refill_starves 2 50 (mkLimiter 2 50 0 false)).
  - lia.
  - vm_compute. discriminate.
  - lia.
  - reflexivity.
Defined.

(** ** A negative capacity *)

Section Flood.
Variables (C d : Z).

Local Abbreviation W := (GLimit L41 None).
Local Abbreviation T := (GLimit L43 None).

(** Below 0 the level matches neither case of the switch, and the
    select of line 76 sends as often as a call is waiting. *)
Lemma drain_loop j : forall pre tc n tl m,
  m = length (pre ++ replicate j W) ->
  tc < C -> tc < 0 -> GoInt.int_min <= tc - Z.of_nat j ->
  run (flat_map (fun k => [Run m; Sync ch_out m k; Run m]) (seq (length pre) j))
      (st C d n false ((pre ++ replicate j W) ++ GManage M59 tc :: tl))
  = Some (st C d n false
            ((pre ++ replicate j T) ++ GManage M59 (tc - Z.of_nat j) :: tl)).
Proof.
  induction j as [|j IH]; intros pre tc n tl m Hm Hlt Hneg Hmin.
  - cbn. by rewrite Z.sub_0_r.
  - rewrite run_flat_map_S. cbn [replicate app] in *.
    assert ((tc =? 0) = false) as E0 by (apply Z.eqb_neq; lia).
    assert ((tc =? C) = false) as EC by (apply Z.eqb_neq; lia).
    assert (m = length (pre ++ T :: replicate j W)) as Hm'.
    { rewrite Hm, !length_app. done. }
    mid_step C d (pre ++ W :: replicate j W).
    rewrite (sync_mid C d ch_out n false pre W T (replicate j W)
               (GManage M76 tc) (GManage M80 tc) tl (length pre) m eq_refl Hm
               (sends_M76 tc) (receives_L41 None)).
    cbn [mbind option_bind].
    mid_step C d (pre ++ T :: replicate j W).
    rewrite sub_id by int_arith.
    rewrite (regroup_cons pre T) in *.
    replace (S (length pre)) with (length (pre ++ [T]))
      by (rewrite length_app; cbn; lia).
    rewrite (IH (pre ++ [T]) (tc - 1) n tl m); [|try done; try lia..].
    rewrite <- (app_assoc pre [T]). cbn [app]. do 5 f_equal. lia.
Qed.

End Flood.

Lemma flood_schedule_runs C d j :
  C < 0 -> GoInt.int_min <= C - Z.of_nat (S j) ->
  Z.of_nat (S j) + 2 <= GoInt.int_max ->
  run (flood_schedule (S j)) (init (mkLimiter C d 0 false))
  = Some (st C d 1 false
            (replicate (S j) (GLimit (Lret None) None)
             ++ [GManage M59 (C - Z.of_nat (S j)); GRefill R88 false])).
Proof.
  intros HC Hmin Hmax. unfold flood_schedule. cbn [pred].
  eapply run_app_Some; [apply (calls_arrive C d 0 false (S j) [])|].
  eapply run_app_Some;
    [apply (first_enters C d [] (replicate j (GLimit L33 None)) 0 eq_refl)|].
  eapply run_app_Some.
  { apply (enter_all C d j 2 [GLimit L41 None] [GManage M57 0]); lia. }
  assert (S j = length ([] ++ GLimit L41 None :: replicate j (GLimit L41 None)))
    as Hm by (cbn; rewrite length_replicate; lia).
  replace ([GLimit L41 None] ++ replicate j (GLimit L41 None) ++ [GManage M57 0])
    with (([] ++ GLimit L41 None :: replicate j (GLimit L41 None))
          ++ GManage M57 0 :: [])
    by (cbn [app]; done).
  eapply run_app_Some.
  { apply (first_dispense C d (2 + Z.of_nat j) [] _ [] 0 (S j) eq_refl Hm);
      try lia. int_arith. }
  eapply run_app_Some.
  { apply (drain_loop C d j [GLimit L43 None] (C - 1) _ [GRefill R88 false] (S j));
      try lia.
    cbn. rewrite length_replicate. lia. }
  replace (([GLimit L43 None] ++ replicate j (GLimit L43 None))
           ++ GManage M59 (C - 1 - Z.of_nat j) :: [GRefill R88 false])
    with ([] ++ replicate (S j) (GLimit L43 None)
          ++ [GManage M59 (C - 1 - Z.of_nat j); GRefill R88 false])
    by (cbn [app replicate]; done).
  rewrite (leave_all C d (S j) (2 + Z.of_nat j) []); [|lia].
  cbn [app]. replace (2 + Z.of_nat j - Z.of_nat (S j)) with 1 by lia.
  replace (C - 1 - Z.of_nat j) with (C - Z.of_nat (S j)) by lia. done.
Qed.

Lemma flood_schedule_quiet n : forallb quiet (flood_schedule n) = true.
Proof.
  unfold flood_schedule.
  rewrite !forallb_app, !forallb_replicate by done.
  rewrite !forallb_flat_map; [done|intros k..].
  - by apply forallb_replicate.
  - done.
  - by apply forallb_replicate.
Qed.

(** X8.  A negative capacity does not limit.  The level of a Manager that
    starts at a negative maxTokens only moves away from 0, so the Manager
    never reaches the empty state: however many calls [n >= 1] arrive at a
    freshly constructed limiter, [flood_schedule n] hands each of them a
    token without a single tick, and each returns nil (as long as
    [maxTokens - n] is still an int). *)
Theorem negative_capacity_admits_all maxT d l n :
  maxT < 0 -> (1 <= n)%nat ->
  GoInt.int_min <= maxT - Z.of_nat n ->
  Z.of_nat n + 2 <= GoInt.int_max ->
  NewReservoirLimiter maxT d = Returns l ->
  exists s,
    run (flood_schedule n) (init l) = Some s
    /\ forallb quiet (flood_schedule n) = true
    /\ panicked s = false
    /\ pool s = replicate n (GLimit (Lret None) None)
                ++ [GManage M59 (maxT - Z.of_nat n); GRefill R88 false]
    /\ total admitted (pool s) = Z.of_nat n.
Proof.
  intros HC Hn Hmin Hmax [= <-]. destruct n as [|j]; [lia|].
  eexists. split; [by apply flood_schedule_runs|].
  split; [apply flood_schedule_quiet|]. split; [done|]. split; [done|].
  cbn [pool st]. rewrite total_app, total_replicate. cbn. lia.
Qed.

Lemma negative_capacity_admits_all_witness :
  exists s,
    run (flood_schedule 5) (init (mkLimiter (-1) 50 0 false)) = Some s
    /\ forallb quiet (flood_schedule 5) = true
    /\ panicked s = false
    /\ pool s = replicate 5 (GLimit (Lret None) None)
                ++ [GManage M59 (-1 - Z.of_nat 5); GRefill R88 false]
    /\ total admitted (pool s) = Z.of_nat 5.
Proof.
  apply (negative_capacity_admits_all (-1) 50 (mkLimiter (-1) 50 0 false) 5).
  - lia.
  - lia.
  - vm_compute. discriminate.
  - vm_compute. discriminate.
  - reflexivity.
Defined.

(** ** The ticker of a Refill Scheduler *)

Lemma ticker_ok_step a s s' :
  step a s = Some s' ->
  Forall ticker_ok (pool s) -> Forall ticker_ok (pool s').
Proof.
  intros H HF. step_inv H.
  all: cbn [pool set_pool]; from_pool HF; forall_pool; cbn in *; try done.
Qed.

Lemma ticker_ok_run l tr s :
  run tr (init l) = Some s -> Forall ticker_ok (pool s).
Proof.
  revert s. induction tr as [|a tr IH] using rev_ind; intros s.
  - intros [= <-]. constructor.
  - rewrite run_snoc. intros (s1 & H1 & H2).
    eapply ticker_ok_step; [done|by apply IH].
Qed.

Lemma state_is_st s :
  panicked s = false ->
  s = st (maxTokens (lim s)) (refillDuration (lim s)) (numConcurrent (lim s))
         (mutex (lim s)) (pool s).
Proof. destruct s as [[] ? ?]. cbn. by intros ->. Qed.

(** X9.  No ticker is left running.  In every reachable state a Refill
    Scheduler that waits for a tick or is at its select has a running
    ticker, and one that has returned has stopped it: [ticker.Stop()] of
    line 95 is on the only path to the return of line 96. *)
Theorem ticker_stopped_before_return maxT d l tr s i pc tk :
  NewReservoirLimiter maxT d = Returns l ->
  run tr (init l) = Some s ->
  pool s !! i = Some (GRefill pc tk) ->
  (tk = true <-> pc = R89 \/ pc = R90 \/ pc = R95)
  /\ (pc = Rret -> tk = false).
Proof.
  intros [= <-] Hrun Hi.
  pose proof (ticker_ok_run _ _ _ Hrun) as HF.
  pose proof (Forall_lookup_1 _ _ _ _ HF Hi) as Hg. cbn in Hg.
  destruct pc; subst tk; split; try done; split; intuition discriminate.
Qed.

Lemma ticker_stopped_before_return_witness :
  (false = true <-> Rret = R89 \/ Rret = R90 \/ Rret = R95)
  /\ (Rret = Rret -> false = false).
Proof.
  apply (ticker_stopped_before_return 1 50 (mkLimiter 1 50 0 false)
           ([Call None] ++ replicate 5 (Run 0)
            ++ replicate 5 (Run 1) ++ [Sync ch_out 1 0; Run 1; Run 1]
            ++ [Run 2; TickOf 2] ++ replicate 3 (Run 2))
           {| lim := mkLimiter 1 50 2 false;
              pool := [GLimit L43 None; GManage M59 0; GRefill Rret false];
              panicked := false |}
           2%nat).
  - reflexivity.
  - vm_compute. reflexivity.
  - reflexivity.
Defined.

(** X10.  An idle limiter lets go of its goroutines.  For a limiter
    constructed with a capacity of at least 1 and a positive refill
    period: in every reachable state in which the participant count is 0,
    a Refill Scheduler that is still waiting for its ticker finds no
    receiver at its next tick, stops the ticker and returns, changing
    nothing else. *)
Theorem idle_limiter_winds_down maxT d l tr s i tk :
  1 <= maxT <= GoInt.int_max -> 0 < d ->
  NewReservoirLimiter maxT d = Returns l ->
  run tr (init l) = Some s ->
  small s ->
  numConcurrent (lim s) = 0 ->
  pool s !! i = Some (GRefill R89 tk) ->
  run [TickOf i; Run i; Run i; Run i] s
  = Some (set_pool s (<[i := GRefill Rret false]> (pool s))).
Proof.
  intros Hmax Hd [= <-] Hrun Hsmall Hidle Hi.
  pose proof (no_panic_run (mkLimiter maxT d 0 false) _ _ eq_refl eq_refl
                Hd Hrun Hsmall) as Hlive.
  pose proof (ticker_ok_run _ _ _ Hrun) as HF.
  pose proof (Forall_lookup_1 _ _ _ _ HF Hi) as Hg. cbn in Hg. subst tk.
  destruct (count_inv_run (mkLimiter maxT d 0 false) _ _ eq_refl eq_refl
              Hrun Hsmall) as [I1 _ _ _ _ _ _].
  pose proof (total_nonneg running (pool s) running_nonneg).
  pose proof (total_nonneg starting (pool s) starting_nonneg).
  pose proof (total_nonneg waiting (pool s) waiting_nonneg).
  assert (forall m g g', pool s !! m = Some g -> ~ receives ch_in g g') as Hno.
  { intros m g g' Hm Hr.
    pose proof (total_others running (pool s) m g running_nonneg Hm) as Hle.
    inversion Hr; subst; cbn in Hle; lia. }
  rewrite (state_is_st s Hlive) at 1. unfold set_pool. rewrite Hlive.
  set (C := maxTokens (lim s)). set (p := refillDuration (lim s)).
  set (n := numConcurrent (lim s)). set (mu := mutex (lim s)).
  assert (lim s = mkLimiter C p n mu) as -> by (by destruct (lim s)).
  cbn [run].
  assert (step (TickOf i) (st C p n mu (pool s))
          = Some (st C p n mu (<[i := GRefill R90 true]> (pool s)))) as ->.
  { apply step_TickOf. by split_and!. }
  cbn [mbind option_bind].
  rewrite (default_when_no_receiver C p n mu _ i true).
  - cbn [mbind option_bind]. rewrite list_insert_insert_eq.
    erewrite step_Run_eq; cycle 1;
      [done|cbn [pool st]; by eapply lookup_insert_same|reflexivity|].
    cbn [exec t_label t_next t_count fst snd mbind option_bind
         lim pool st set_count numConcurrent].
    rewrite list_insert_insert_eq.
    erewrite step_Run_eq; cycle 1;
      [done|cbn [pool st]; by eapply lookup_insert_same|reflexivity|].
    cbn [exec t_label t_next t_count fst snd mbind option_bind
         lim pool st set_count numConcurrent].
    rewrite list_insert_insert_eq. reflexivity.
  - by eapply lookup_insert_same.
  - intros m g g' Hm Hr. apply list_lookup_insert_Some in Hm.
    destruct Hm as [(_ & <- & _)|[_ Hm]]; [inversion Hr|by apply (Hno m g g')].
Qed.

Lemma idle_limiter_winds_down_witness :
  let s := {| lim := mkLimiter 1 50 0 false;
              pool := [GLimit (Lret None) None; GManage Mret 1;
                       GRefill R89 true];
              panicked := false |} in
  run [TickOf 2; Run 2; Run 2; Run 2] s
  = Some (set_pool s (<[2%nat := GRefill Rret false]> (pool s))).
Proof.
  apply (idle_limiter_winds_down 1 50 (mkLimiter 1 50 0 false)
           [Call None; Run 0; Run 0; Run 0; Run 0; Run 0;
            Run 1; Run 1; Run 1; Run 1; Run 1;
            Sync ch_out 1 0; Run 1; Run 1; Run 1; Run 2;
            Run 0; Run 0; Run 0; Run 0;
            TickOf 2; Sync ch_in 2 1;
            Run 1; Run 1; Run 1; Run 1; Run 1; Run 1; Run 1]
           _ 2%nat true).
  - vm_compute. split; discriminate.
  - lia.
  - reflexivity.
  - vm_compute. reflexivity.
  - unfold small. vm_compute. discriminate.
  - reflexivity.
  - reflexivity.
Defined.

(** ** A Manager that has passed its check *)

Lemma parked_schedule_runs C d e :
  C <> 0 ->
  run (parked_schedule e) (init (mkLimiter C d 0 false))
  = Some (st C d 1 false
            [GLimit (Lret (Some e)) (Some e); GManage M72 C]).
Proof.
  intros HC. apply Z.eqb_neq in HC. unfold parked_schedule.
  eapply run_app_Some; [apply (calls_arrive C d 0 false 1 [])|].
  eapply run_app_Some; [apply (first_enters C d [] [] 0 eq_refl)|].
  eapply run_app_Some.
  { change ([] ++ GLimit L41 None :: [] ++ [GManage M57 0])
      with ([GLimit L41 None] ++ GManage M57 0 :: []).
    do 5 mid_step C d [GLimit L41 None]. reflexivity. }
  change ([GLimit L41 None] ++ [GManage M72 C])
    with ([] ++ GLimit L41 None :: [GManage M72 C]).
  rewrite (cancel_unblocks C d 2 [] _ 0 e eq_refl) by int_arith.
  reflexivity.
Qed.

Lemma next_call_runs C d g :
  run next_call_schedule (st C d 1 false [g; GManage M72 C])
  = Some (st C d 2 false [g; GManage M73 C; GLimit L43 None]).
Proof.
  unfold next_call_schedule.
  eapply run_app_Some; [apply (calls_arrive C d 1 false 1)|].
  eapply run_app_Some.
  { change ([g; GManage M72 C] ++ replicate 1 (GLimit L33 None))
      with ([g; GManage M72 C] ++ GLimit L33 None :: []).
    apply (enter_one C d 1 [g; GManage M72 C] [] 2 eq_refl); [done|int_arith]. }
  cbn [run]. 
  assert (step (Sync ch_out 1 2)
            (st C d (1 + 1) false ([g; GManage M72 C] ++ [GLimit L41 None]))
          = Some (st C d 2 false [g; GManage M73 C; GLimit L43 None])) as ->.
  { apply step_Sync. split_and!; [done|done|].
    exists (GManage M72 C), (GManage M73 C), (GLimit L41 None), (GLimit L43 None).
    split_and!; try done; constructor. }
  reflexivity.
Qed.

Lemma parked_rest (s : state) g C :
  pool s = [GLimit (Lret (Some g)) (Some g); GManage M72 C] ->
  at_rest s
  /\ (forall i, step (TickOf i) s = None)
  /\ (forall i e, step (Cancel i e) s = None).
Proof.
  intros Hpool. split_and!.
  - split.
    + intros i. destruct (step (Run i) s) as [s'|] eqn:H; [exfalso|done].
      run_inv H.
      all: rewrite Hpool in Hi; destruct i as [|[|i]]; discriminate.
    + intros ch i j. destruct (step (Sync ch i j) s) as [s'|] eqn:H; [exfalso|done].
      sync_inv H.
      all: rewrite Hpool in Hj; destruct j as [|[|j]]; discriminate.
  - intros i. destruct (step (TickOf i) s) as [s'|] eqn:H; [exfalso|done].
    apply step_TickOf in H. destruct H as (_ & Hi & _).
    rewrite Hpool in Hi; destruct i as [|[|i]]; discriminate.
  - intros i e. destruct (step (Cancel i e) s) as [s'|] eqn:H; [exfalso|done].
    apply step_Cancel in H. destruct H as (_ & pc & Hi & _).
    rewrite Hpool in Hi; destruct i as [|[|i]]; discriminate.
Qed.

(** X11.  The Manager checks for retirement only before it offers a
    token.  For every capacity other than 0: when the only call is
    cancelled after the Manager has read the count at line 65, the call
    returns the error of its context and the Manager stays at the send of
    line 72 with a full reservoir and a count of 1.  The system is at rest
    there and neither a tick nor a cancellation can happen: the Manager
    does not retire.  The next call finds it and gets its token at
    once. *)
Theorem parked_manager_waits maxT d e l :
  maxT <> 0 ->
  NewReservoirLimiter maxT d = Returns l ->
  exists s s',
    run (parked_schedule e) (init l) = Some s
    /\ pool s = [GLimit (Lret (Some e)) (Some e); GManage M72 maxT]
    /\ numConcurrent (lim s) = 1 /\ mutex (lim s) = false
    /\ at_rest s
    /\ (forall i, step (TickOf i) s = None)
    /\ (forall i e', step (Cancel i e') s = None)
    /\ run next_call_schedule s = Some s'
    /\ pool s' !! 2%nat = Some (GLimit L43 None).
Proof.
  intros HC [= <-]. do 2 eexists.
  split; [by apply parked_schedule_runs|].
  split; [done|]. split; [done|]. split; [done|].
  destruct (parked_rest
              (st maxT d 1 false
                  [GLimit (Lret (Some e)) (Some e); GManage M72 maxT])
              e maxT eq_refl) as (Hrest & Htick & Hcancel).
  split; [done|]. split; [done|]. split; [done|].
  split; [apply next_call_runs|done].
Qed.

Lemma parked_manager_waits_witness :
  exists s s',
    run (parked_schedule Canceled) (init (mkLimiter 3 50 0 false)) = Some s
    /\ pool s = [GLimit (Lret (Some Canceled)) (Some Canceled); GManage M72 3]
    /\ numConcurrent (lim s) = 1 /\ mutex (lim s) = false
    /\ at_rest s
    /\ (forall i, step (TickOf i) s = None)
    /\ (forall i e', step (Cancel i e') s = None)
    /\ run next_call_schedule s = Some s'
    /\ pool s' !! 2%nat = Some (GLimit L43 None).
Proof.
  apply (parked_manager_waits 3 50 Canceled (mkLimiter 3 50 0 false)).
  - lia.
  - reflexivity.
Defined.

(** ** Refill Schedulers that pile up *)

Lemma regroup_mid (pre : list goroutine) g post tl :
  pre ++ g :: (post ++ tl) = (pre ++ g :: post) ++ tl.
Proof. by rewrite <- app_assoc. Qed.

Section Cycle.
Variables (C d : Z).
Hypothesis HC : 1 <= C <= GoInt.int_max.
Hypothesis Hd : 0 < d.

Local Abbreviation N := (GLimit L33 None).
Local Abbreviation W := (GLimit L41 None).
Local Abbreviation T := (GLimit L43 None).
Local Abbreviation D := (GLimit (Lret None) None).

(** A rendezvous between a sender inside the pool and a receiver further
    on. *)
Lemma sync_mid_out c n mu pre gm gm' post gk gk' tl m k :
  m = length pre ->
  k = length (pre ++ gm :: post) ->
  sends c gm gm' -> receives c gk gk' ->
  step (Sync c m k) (st C d n mu ((pre ++ gm :: post) ++ gk :: tl))
  = Some (st C d n mu ((pre ++ gm' :: post) ++ gk' :: tl)).
Proof.
  intros Hm Hk Hs Hr. apply step_Sync. split_and!; [done| |].
  - subst. rewrite length_app. cbn. lia.
  - exists gm, gm', gk, gk'. cbn [pool st]. split_and!; try done.
    + rewrite <- app_assoc. by apply lookup_mid.
    + by apply lookup_mid.
    + unfold set_pool, st. cbn. f_equal.
      rewrite <- !app_assoc. cbn [app].
      rewrite (insert_mid pre gm gm') by done.
      rewrite (regroup_mid pre gm'), (regroup_mid pre gm').
      rewrite (insert_mid _ gk gk'); [done|].
      subst. rewrite !length_app. done.
Qed.

Lemma refill_arrives pre tl1 tl2 m i :
  m = length pre -> i = length (pre ++ lean_manager C :: tl1) ->
  run [TickOf i; Sync ch_in i m]
      (st C d 1 false ((pre ++ lean_manager C :: tl1) ++ GRefill R89 true :: tl2))
  = Some (st C d 1 false
            ((pre ++ GManage (if C =? 1 then M62 else M78) (C - 1) :: tl1)
             ++ GRefill R89 true :: tl2)).
Proof.
  intros Hm Hi. cbn [run].
  rewrite (tick_mid C d 1 false _ tl2 i Hi). cbn [mbind option_bind].
  rewrite (sync_mid C d ch_in 1 false pre (lean_manager C)
             (GManage (if C =? 1 then M62 else M78) (C - 1)) tl1
             (GRefill R90 true) (GRefill R89 true) tl2 m i Hm Hi (sends_R90 true)).
  - reflexivity.
  - unfold lean_manager. destruct (C =? 1); constructor.
Qed.

Lemma serve_and_spawn pre post m p :
  m = length pre -> p = length (pre ++ lean_manager C :: post) ->
  run ([Run m; Call None]
       ++ replicate 4 (Run p)
       ++ replicate 4 (Run m) ++ [Sync ch_out m p] ++ replicate 3 (Run m)
       ++ replicate 4 (Run p)
       ++ [Run (S p)])
      (st C d 1 false
          (pre ++ GManage (if C =? 1 then M62 else M78) (C - 1) :: post))
  = Some (st C d 1 false
            (pre ++ lean_manager C :: (post ++ [D; GRefill R89 true]))).
Proof.
  intros Hm Hp.
  assert ((0 <? d) = true) as Ed by (by apply Z.ltb_lt).
  assert ((C =? 0) = false) as E0 by (apply Z.eqb_neq; lia).
  assert (GoInt.add (C - 1) 1 = C) as Eadd
    by (rewrite add_id by int_arith; lia).
  assert (forall g, p = length (pre ++ g :: post)) as Hp'
    by (intros g; rewrite Hp, !length_app; done).
  eapply run_app_Some.
  { cbn [run].
    erewrite (run_mid_tau C d 1 false pre _ post m 1 (GManage M59 C) Hm);
      [|destruct (C =? 1); cbn; by rewrite Eadd].
    cbn [mbind option_bind].
    change (step (Call None) (st C d 1 false (pre ++ GManage M59 C :: post)))
      with (Some (st C d 1 false ((pre ++ GManage M59 C :: post) ++ N :: []))).
    reflexivity. }
  eapply run_app_Some.
  { apply (enter_one C d 1 _ [] p (Hp' _)); [done|int_arith]. }
  replace (1 + 1) with 2 by done.
  rewrite <- (regroup_mid pre (GManage M59 C) post [W]).
  eapply run_app_Some.
  { do 4 mid_step C d pre. reflexivity. }
  eapply run_app_Some.
  { cbn [run]. rewrite (regroup_mid pre (GManage M72 C) post [W]).
    rewrite (sync_mid_out ch_out 2 false pre (GManage M72 C) (GManage M73 C) post
               W T [] m p Hm (Hp' _) (sends_M72 C) (receives_L41 None)).
    reflexivity. }
  rewrite <- (regroup_mid pre (GManage M73 C) post [T]).
  eapply run_app_Some.
  { do 2 mid_step C d pre. rewrite sub_id by int_arith.
    cbn [run].
    erewrite (run_mid_tau C d 2 false pre (GManage M59 (C - 1)) _ m 2
                (lean_manager C) Hm).
    - reflexivity.
    - unfold lean_manager.
      cbn [transitions manageTokens maxTokens numConcurrent].
      destruct (Z.eqb_spec C 1) as [->|Hne]; [reflexivity|].
      assert ((C - 1 =? 0) = false) as -> by (apply Z.eqb_neq; lia).
      assert ((C - 1 =? C) = false) as -> by (apply Z.eqb_neq; lia).
      reflexivity. }
  rewrite <- (app_assoc post [T]). cbn [app].
  rewrite (regroup_mid pre (lean_manager C) post).
  eapply run_app_Some.
  { apply (leave_one C d 2 _ _ p (Hp' _)). int_arith. }
  replace (2 - 1) with 1 by done.
  rewrite (regroup_cons _ D).
  assert (S p = length ((pre ++ lean_manager C :: post) ++ [D])) as HSp
    by (rewrite length_app, <- Hp; cbn; lia).
  mid_step C d ((pre ++ lean_manager C :: post) ++ [D]).
  cbn [run]. rewrite <- !app_assoc. reflexivity.
Qed.

Lemma refill_cycle_runs pre tl1 tl2 m i p :
  m = length pre -> i = length (pre ++ lean_manager C :: tl1) ->
  p = length ((pre ++ lean_manager C :: tl1) ++ GRefill R89 true :: tl2) ->
  run (refill_cycle m i p)
      (st C d 1 false ((pre ++ lean_manager C :: tl1) ++ GRefill R89 true :: tl2))
  = Some (st C d 1 false
            (((pre ++ lean_manager C :: tl1) ++ GRefill R89 true :: tl2)
             ++ [D; GRefill R89 true])).
Proof.
  intros Hm Hi Hp. unfold refill_cycle.
  eapply run_app_Some; [by apply refill_arrives|].
  rewrite <- !(regroup_mid pre).
  rewrite (serve_and_spawn pre _ m p Hm).
  - by rewrite <- app_assoc.
  - by rewrite Hp, <- (regroup_mid pre).
Qed.

End Cycle.

Lemma pile_split j k :
  GRefill R89 true :: pile (j + k) = pile_before j ++ GRefill R89 true :: pile k.
Proof.
  induction j as [|j IH]; [done|].
  cbn [Nat.add pile pile_before app]. by rewrite IH.
Qed.

Lemma pile_snoc k :
  pile k ++ [GLimit (Lret None) None; GRefill R89 true] = pile (S k).
Proof.
  induction k as [|k IH]; [done|].
  cbn [pile app]. by rewrite IH.
Qed.

Lemma length_pile k : length (pile k) = (2 * k)%nat.
Proof. induction k as [|k IH]; cbn [pile length]; lia. Qed.

Lemma length_pile_before j : length (pile_before j) = (2 * j)%nat.
Proof. induction j as [|j IH]; cbn [pile_before length]; lia. Qed.

Lemma piled_cycle C d j k :
  1 <= C <= GoInt.int_max -> 0 < d ->
  run (refill_cycle 1 (2 + 2 * j) (3 + 2 * (k + j)))
      (st C d 1 false (piled C (k + j)))
  = Some (st C d 1 false (piled C (S (k + j)))).
Proof.
  intros HC Hd. unfold piled.
  rewrite <- pile_snoc, (Nat.add_comm k j).
  change ([GLimit (Lret None) None; lean_manager C; GRefill R89 true]
          ++ pile (j + k))
    with ([GLimit (Lret None) None]
          ++ lean_manager C :: (GRefill R89 true :: pile (j + k))).
  rewrite pile_split.
  rewrite (regroup_mid [GLimit (Lret None) None] (lean_manager C)).
  rewrite (refill_cycle_runs C d HC Hd [GLimit (Lret None) None]
             (pile_before j) (pile k) 1 (2 + 2 * j) (3 + 2 * (j + k))).
  - f_equal. f_equal.
    rewrite <- (regroup_mid [GLimit (Lret None) None] (lean_manager C)).
    rewrite <- pile_split. reflexivity.
  - done.
  - rewrite length_app. cbn [length]. rewrite length_pile_before. lia.
  - rewrite !length_app. cbn [length].
    rewrite length_pile_before, length_pile. lia.
Qed.

Lemma seq_snoc a n : seq a (S n) = seq a n ++ [(a + n)%nat].
Proof. by rewrite seq_S. Qed.

Lemma round_prefix C d k j :
  1 <= C <= GoInt.int_max -> 0 < d ->
  run (flat_map (fun j => refill_cycle 1 (2 + 2 * j) (3 + 2 * (k + j))) (seq 0 j))
      (st C d 1 false (piled C k))
  = Some (st C d 1 false (piled C (k + j))).
Proof.
  intros HC Hd. induction j as [|j IH].
  - cbn. by rewrite Nat.add_0_r.
  - rewrite seq_snoc, flat_map_app. cbn [flat_map Nat.add].
    rewrite app_nil_r.
    eapply run_app_Some; [exact IH|].
    rewrite Nat.add_succ_r. exact (piled_cycle C d j k HC Hd).
Qed.

Lemma refill_round_runs C d k :
  1 <= C <= GoInt.int_max -> 0 < d ->
  run (refill_round k) (st C d 1 false (piled C k))
  = Some (st C d 1 false (piled C (2 * k + 1))).
Proof.
  intros HC Hd. unfold refill_round.
  rewrite (round_prefix C d k (S k) HC Hd). do 3 f_equal. lia.
Qed.

Lemma pow2_pos q : (1 <= 2 ^ q)%nat.
Proof. induction q as [|q IH]; cbn; lia. Qed.

Lemma rounds_run C d r :
  1 <= C <= GoInt.int_max -> 0 < d ->
  run (flat_map (fun q => refill_round (2 ^ q - 1)) (seq 0 r))
      (st C d 1 false (piled C 0))
  = Some (st C d 1 false (piled C (2 ^ r - 1))).
Proof.
  intros HC Hd. induction r as [|r IH]; [done|].
  rewrite seq_snoc, flat_map_app. cbn [flat_map Nat.add]. rewrite app_nil_r.
  eapply run_app_Some; [exact IH|].
  rewrite (refill_round_runs C d _ HC Hd). do 3 f_equal.
  pose proof (pow2_pos r). cbn [Nat.pow]. lia.
Qed.

Lemma first_token_live C d :
  1 <= C <= GoInt.int_max -> 0 < d ->
  run first_token_schedule (init (mkLimiter C d 0 false))
  = Some (st C d 2 false
            [GLimit L43 None; GManage M59 (C - 1); GRefill R89 true]).
Proof.
  intros HC Hd. apply Z.ltb_lt in Hd. unfold first_token_schedule.
  eapply run_app_Some; [apply (calls_arrive C d 0 false 1 [])|].
  eapply run_app_Some; [apply (first_enters C d [] [] 0 eq_refl)|].
  eapply run_app_Some.
  { apply (first_dispense C d 2 [] [] [] 0 1 eq_refl eq_refl);
      try done; try lia. int_arith. }
  change (([] ++ [GLimit L43 None])
          ++ GManage M59 (C - 1) :: [] ++ [GRefill R88 false])
    with ([GLimit L43 None; GManage M59 (C - 1)] ++ GRefill R88 false :: []).
  mid_step C d [GLimit L43 None; GManage M59 (C - 1)]. reflexivity.
Qed.

Lemma burst_start_runs C d :
  1 <= C <= GoInt.int_max -> 0 < d ->
  run (first_token_schedule ++ [Run 1] ++ replicate 4 (Run 0))
      (init (mkLimiter C d 0 false))
  = Some (st C d 1 false (piled C 0)).
Proof.
  intros HC Hd.
  eapply run_app_Some; [by apply first_token_live|].
  eapply run_app_Some.
  { change [GLimit L43 None; GManage M59 (C - 1); GRefill R89 true]
      with ([GLimit L43 None] ++ GManage M59 (C - 1) :: [GRefill R89 true]).
    cbn [run].
    erewrite (run_mid_tau C d 2 false [GLimit L43 None] (GManage M59 (C - 1)) _ 1 2
                (lean_manager C) eq_refl).
    - reflexivity.
    - unfold lean_manager.
      cbn [transitions manageTokens maxTokens numConcurrent].
      destruct (Z.eqb_spec C 1) as [->|Hne]; [reflexivity|].
      assert ((C - 1 =? 0) = false) as -> by (apply Z.eqb_neq; lia).
      assert ((C - 1 =? C) = false) as -> by (apply Z.eqb_neq; lia).
      reflexivity. }
  change ([GLimit L43 None] ++ [lean_manager C; GRefill R89 true])
    with ([] ++ GLimit L43 None :: [lean_manager C; GRefill R89 true]).
  rewrite (leave_one C d 2 [] _ 0 eq_refl) by int_arith.
  reflexivity.
Qed.

Lemma ticks_of_app i tr1 tr2 :
  ticks_of i (tr1 ++ tr2) = (ticks_of i tr1 + ticks_of i tr2)%nat.
Proof. unfold ticks_of. by rewrite List.filter_app, length_app. Qed.

Lemma ticks_of_replicate_Run i n j : ticks_of i (replicate n (Run j)) = 0%nat.
Proof. induction n as [|n IH]; [done|]. exact IH. Qed.

Lemma ticks_of_cycle i m i' p :
  ticks_of i (refill_cycle m i' p) = if Nat.eqb i' i then 1%nat else 0%nat.
Proof.
  unfold refill_cycle. rewrite !ticks_of_app, !ticks_of_replicate_Run.
  unfold ticks_of. cbn. by destruct (Nat.eqb i' i).
Qed.

(** The cycles of a round belong to different Refill Schedulers. *)
Lemma ticks_of_cycles i (f : nat -> nat) n : forall a,
  (ticks_of i (flat_map (fun j => refill_cycle 1 (2 + 2 * j) (f j)) (seq a n))
   <= 1)%nat
  /\ ((i < 2 + 2 * a)%nat ->
      ticks_of i (flat_map (fun j => refill_cycle 1 (2 + 2 * j) (f j)) (seq a n))
      = 0%nat).
Proof.
  induction n as [|n IH]; intros a; [by split; cbn; lia|].
  cbn [seq flat_map]. rewrite ticks_of_app, ticks_of_cycle.
  destruct (IH (S a)) as [IH1 IH2].
  destruct (Nat.eqb_spec (2 + 2 * a) i) as [E|E].
  - rewrite IH2 by lia. split; lia.
  - split; [lia|]. intros Hlt. rewrite IH2 by lia. done.
Qed.

Lemma ticks_of_round i k : (ticks_of i (refill_round k) <= 1)%nat.
Proof.
  unfold refill_round.
  apply (ticks_of_cycles i (fun j => (3 + 2 * (k + j))%nat) (S k) 0%nat).
Qed.

Lemma ticks_of_rounds i r :
  (ticks_of i (flat_map (fun q => refill_round (2 ^ q - 1)) (seq 0 r)) <= r)%nat.
Proof.
  induction r as [|r IH]; [cbn; lia|].
  rewrite seq_snoc, flat_map_app, ticks_of_app. cbn [flat_map Nat.add].
  rewrite app_nil_r. pose proof (ticks_of_round i (2 ^ r - 1)). lia.
Qed.

Lemma total_pile f k :
  total f (pile k)
  = Z.of_nat k * (f (GLimit (Lret None) None) + f (GRefill R89 true)).
Proof.
  induction k as [|k IH]; [done|].
  change (total f (pile (S k)))
    with (f (GLimit (Lret None) None)
          + (f (GRefill R89 true) + total f (pile k))).
  rewrite IH. lia.
Qed.

(** X12.  Refill Schedulers pile up.  A Refill Scheduler keeps ticking as
    long as its deliveries succeed, and every dispense from a full
    reservoir starts one more.  For every capacity of at least 1, every
    positive refill period and every [r], [burst_schedule r] is a schedule
    of a freshly constructed limiter in which no ticker ticks more than
    [r] times, and which nevertheless hands a token to [2 ^ r] calls, all
    of which return nil, and leaves [2 ^ r] Refill Schedulers waiting for
    their next tick. *)
Theorem refill_schedulers_pile_up maxT d l r :
  1 <= maxT <= GoInt.int_max -> 0 < d ->
  NewReservoirLimiter maxT d = Returns l ->
  exists s,
    run (burst_schedule r) (init l) = Some s
    /\ panicked s = false
    /\ pool s = piled maxT (2 ^ r - 1)
    /\ (forall i, ticks_of i (burst_schedule r) <= r)%nat
    /\ total admitted (pool s) = 2 ^ Z.of_nat r
    /\ total ticking (pool s) = 2 ^ Z.of_nat r.
Proof.
  intros HC Hd [= <-]. eexists. split.
  { unfold burst_schedule.
    eapply run_app_Some; [by apply burst_start_runs|by apply rounds_run]. }
  split; [done|]. split; [done|]. split.
  { intros i. unfold burst_schedule. rewrite ticks_of_app.
    pose proof (ticks_of_rounds i r).
    assert (ticks_of i (first_token_schedule ++ [Run 1] ++ replicate 4 (Run 0))
            = 0%nat) as -> by done.
    lia. }
  cbn [pool st]. unfold piled. rewrite !total_app, !total_pile.
  pose proof (pow2_pos r).
  assert (Z.of_nat (2 ^ r - 1) = 2 ^ Z.of_nat r - 1) as ->.
  { rewrite Nat2Z.inj_sub by done. by rewrite Nat2Z.inj_pow. }
  unfold lean_manager. cbn. destruct (maxT =? 1); cbn; lia.
Qed.

Lemma refill_schedulers_pile_up_witness :
  exists s,
    run (burst_schedule 2) (init (mkLimiter 1 50 0 false)) = Some s
    /\ panicked s = false
    /\ pool s = piled 1 (2 ^ 2 - 1)
    /\ (forall i, ticks_of i (burst_schedule 2) <= 2)%nat
    /\ total admitted (pool s) = 2 ^ Z.of_nat 2
    /\ total ticking (pool s) = 2 ^ Z.of_nat 2.
Proof.
  apply (refill_schedulers_pile_up 1 50 (mkLimiter 1 50 0 false) 2).
  - vm_compute. split; discriminate.
  - lia.
  - reflexivity.
Defined.

(** ** A call that is left waiting *)

(** X13.  No token is withheld from a waiting call.  For a limiter
    constructed with a capacity of at least 1 and a positive refill
    period, whatever the schedule, ticks and cancellations included: when
    the system is at rest and a call still waits at its select, the mutex
    is free, exactly one Manager runs, and it waits in the empty state for
    a refill at line 61 with a level of 0. *)
Theorem waiting_call_means_empty maxT d l tr s j ctx :
  1 <= maxT <= GoInt.int_max -> 0 < d ->
  NewReservoirLimiter maxT d = Returns l ->
  run tr (init l) = Some s ->
  small s ->
  at_rest s ->
  pool s !! j = Some (GLimit L41 ctx) ->
  mutex (lim s) = false
  /\ total running (pool s) = 1
  /\ exists m, pool s !! m = Some (GManage M61 0).
Proof.
  intros Hmax Hd [= <-] Hrun Hsmall [Hrest Hsync] Hj.
  pose proof (count_inv_run (mkLimiter maxT d 0 false) _ _ eq_refl eq_refl
                Hrun Hsmall) as Hinv.
  pose proof (no_panic_run (mkLimiter maxT d 0 false) _ _ eq_refl eq_refl
                Hd Hrun Hsmall) as Hlive.
  pose proof (level_ok_run (mkLimiter maxT d 0 false) _ _ Hmax Hrun) as HL.
  cbn in HL.
  assert (mutex (lim s) = false) as Hfree.
  { destruct (mutex (lim s)) eqn:Hmu; [exfalso|done].
    destruct Hinv as [_ I2 _ _ _ _ _]. rewrite Hmu in I2.
    destruct (total_pos_lookup holds (pool s) holds_nonneg) as (i & g & Hi & Hg);
      [lia|].
    destruct (holder_can_run _ _ _ Hlive Hmu Hi Hg) as [s' Hs'].
    by rewrite Hrest in Hs'. }
  destruct Hinv as [_ I2 I3 I4 _ _ _]. rewrite Hfree in I2.
  pose proof (starting_le_holds (pool s)).
  pose proof (total_nonneg starting (pool s) starting_nonneg).
  pose proof (total_nonneg running (pool s) running_nonneg).
  pose proof (total_others waiting (pool s) j _ waiting_nonneg Hj) as Hw.
  cbn in Hw.
  assert (total running (pool s) = 1) as Hone by lia.
  split; [done|]. split; [done|].
  destruct (total_pos_lookup running (pool s) running_nonneg) as (m & g & Hm & Hg);
    [lia|].
  exists m.
  pose proof (Forall_lookup_1 _ _ _ _ HL Hm) as Hlev.
  assert (m <> j) as Hmj by (intros ->; rewrite Hj in Hm; by injection Hm as <-).
  destruct g as [pc c|pc tc|pc tk]; cbn in Hg; try lia.
  pose proof (Hrest m) as Hstuck. unfold step in Hstuck.
  rewrite Hlive, Hm in Hstuck. cbn in Hstuck, Hlev.
  destruct pc; cbn in Hg, Hstuck; try lia.
  all: repeat case_match; cbn in Hstuck; rewrite ?Hfree in Hstuck;
    try discriminate Hstuck.
  all: try (by subst tc).
  all: exfalso.
  all: match type of Hm with
       | _ = Some ?g =>
           assert (exists g', sends ch_out g g') as [g' Hs]
             by (eexists; constructor);
           assert (is_Some (step (Sync ch_out m j) s)) as [s' Hs'];
           [ eexists; apply step_Sync; split_and!; [done..|];
             exists g, g', (GLimit L41 ctx), (GLimit L43 ctx);
             split_and!; try done; constructor
           | by rewrite Hsync in Hs' ]
       end.
Qed.

Lemma waiting_call_means_empty_witness :
  let s := {| lim := mkLimiter 1 50 2 false;
              pool := [GLimit (Lret None) None; GLimit L41 None;
                       GManage M61 0; GRefill R89 true];
              panicked := false |} in
  mutex (lim s) = false
  /\ total running (pool s) = 1
  /\ exists m, pool s !! m = Some (GManage M61 0).
Proof.
  apply (waiting_call_means_empty 1 50 (mkLimiter 1 50 0 false)
           (capacity_schedule 1) _ 1%nat None).
  - vm_compute. split; discriminate.
  - lia.
  - reflexivity.
  - vm_compute. reflexivity.
  - unfold small. vm_compute. discriminate.
  - apply (capacity_rest 1). reflexivity.
  - reflexivity.
Defined.
